(** * Electrolyte: the [Spec] object of lib/spec.js

    A shallow embedding of [lib/spec.js]: the [Spec] constructor, which
    reads the annotations of a module, and [Spec.prototype.create], which
    resolves the dependencies of a component through the container, joins
    them with [Promise.all] and instantiates the component in a [then]
    continuation, caching the result of singletons. *)

From Stdlib Require Import ZArith Ascii String Floats.SpecFloat DecimalString.
From stdpp Require Import gmap strings list fin_maps.

Local Set Warnings "-register-all".
Local Open Scope string_scope.
Local Open Scope list_scope.
Local Open Scope nat_scope.
Local Open Scope stdpp_scope.

(** ** JavaScript values *)

(** The values the code handles.  Numbers are IEEE doubles; a string is
    the sequence of its characters; objects and functions carry their own
    enumerable properties, a function also its arity (its [length]); a
    promise is a reference into the promise store of the event loop (two
    promises are the same object exactly when their references are
    equal). *)
Inductive value : Type :=
| VUndefined
| VNull
| VBool (b : bool)
| VNumber (f : spec_float)
| VString (s : string)
| VArray (elems : list value)
| VObject (props : gmap string value)
| VFunction (arity : nat) (props : gmap string value)
| VError (name msg : string)
| VPromise (ref : nat).

(** [typeof v] *)
Definition typeof (v : value) : string :=
  match v with
  | VUndefined => "undefined"
  | VNull => "object"
  | VBool _ => "boolean"
  | VNumber _ => "number"
  | VString _ => "string"
  | VFunction _ _ => "function"
  | VArray _ | VObject _ | VError _ _ | VPromise _ => "object"
  end.

(** ToBoolean: [undefined], [null], [false], [+0], [-0], [NaN] and the
    empty string are falsy, everything else is truthy. *)
Definition truthy (v : value) : bool :=
  match v with
  | VUndefined | VNull => false
  | VBool b => b
  | VNumber (S754_zero _) | VNumber S754_nan => false
  | VNumber _ => true
  | VString s => negb (String.eqb s "")
  | VArray _ | VObject _ | VFunction _ _ | VError _ _ | VPromise _ => true
  end.

(** [a || b] *)
Definition js_or (a b : value) : value := if truthy a then a else b.

(** Results of code that may throw. *)
Inductive result (A : Type) : Type :=
| Ok (x : A)
| Throw (e : value).
Arguments Ok {A} x.
Arguments Throw {A} e.

#[global] Instance result_ret : MRet result := @Ok.
#[global] Instance result_bind : MBind result := λ A B k r,
  match r with
  | Ok x => k x
  | Throw e => Throw e
  end.

Definition type_error (msg : string) : value := VError "TypeError" msg.

(** [o[k]] for a key [k] that is neither an array index nor [length] (the
    constructor only reads keys that begin with [@]).  Reading a property
    of [undefined] or [null] throws a TypeError; a primitive, an array, an
    error or a promise has no such property; an object or a function
    answers from its own properties (prototypes are not modelled). *)
Definition get_prop (o : value) (k : string) : result value :=
  match o with
  | VUndefined | VNull =>
      Throw (type_error "Cannot read property of undefined or null")
  | VObject m | VFunction _ m => Ok (default VUndefined (m !! k))
  | _ => Ok VUndefined
  end.

(** The key of the [i]-th element of an array: [i] in decimal. *)
Definition index_key (i : nat) : string :=
  NilEmpty.string_of_uint (Nat.to_uint i).

(** [Object.keys(o)]: the own enumerable string keys.  It throws on
    [undefined] and [null].  The keys of an object or a function are those
    of its property map (their order is not modelled: the constructor only
    builds a map from them); the keys of an array are its indices; errors
    and promises have no key that concerns the constructor. *)
Definition object_keys (o : value) : result (list string) :=
  match o with
  | VUndefined | VNull =>
      Throw (type_error "Cannot convert undefined or null to object")
  | VObject m | VFunction _ m => Ok (map_to_list m).*1
  | VArray l => Ok (index_key <$> seq 0 (length l))
  | _ => Ok []
  end.

(** [s.indexOf(c)] for a one-character [c]: the position of the first
    occurrence, or [-1]. *)
Fixpoint indexOf (s : string) (c : Ascii.ascii) : Z :=
  match s with
  | EmptyString => -1
  | String d s' =>
      if Ascii.eqb d c then 0
      else let r := indexOf s' c in if (r <? 0)%Z then -1 else (r + 1)%Z
  end.

(** ** The specification object *)

(** The fields the constructor sets.  [_instance], which the constructor
    leaves unset and [create] assigns, is kept in the state of the event
    loop below. *)
Record Spec : Type := {
  id : value;
  dependencies : value;
  singleton : value;
  implements : value;
  a : gmap string value;
  _source : value;
}.

(** The loop of lines 54-58: for every key that begins with [@], copy the
    property into [this.a]. *)
Definition copy_annotation (mod_ : value) (acc : result (gmap string value))
    (key : string) : result (gmap string value) :=
  annot ← acc;
  if (indexOf key "@"%char =? 0)%Z then
    v ← get_prop mod_ key; Ok (<[key := v]> annot)
  else Ok annot.

Definition copy_annotations (mod_ : value) (keys : list string)
    : result (gmap string value) :=
  foldl (copy_annotation mod_) (Ok ∅) keys.

(** [new Spec(id, mod_, source)], lines 40-61. *)
Definition new_Spec (id_ mod_ source : value) : result Spec :=
  req ← get_prop mod_ "@require";
  let dependencies_ := js_or req (VArray []) in
  singleton_ ← get_prop mod_ "@singleton";
  impl ← get_prop mod_ "@implements";
  let implements0 := js_or impl (VArray []) in
  let implements_ :=
    if String.eqb (typeof implements0) "string" then VArray [implements0]
    else implements0 in
  a_ ← (if String.eqb (typeof mod_) "object" || String.eqb (typeof mod_) "function"
        then keys ← object_keys mod_; copy_annotations mod_ keys
        else Ok ∅);
  Ok {| id := id_; dependencies := dependencies_; singleton := singleton_;
        implements := implements_; a := a_; _source := source |}.

(** [Spec.prototype.instantiate], lines 111-113: the base class throws;
    subclasses override it. *)
Definition base_instantiate (n : nat) (args : list value) : result value :=
  Throw (VError "Error" "Spec#instantiate must be overridden by subclass").

(** The characters of a string, each a string of its own: [s[0]],
    [s[1]], ... *)
Definition chars (s : string) : list value :=
  (λ c, VString (String c EmptyString)) <$> list_ascii_of_string s.

(** The least integer that is not below the positive number [m * 2^e]. *)
Definition ceiling (m : positive) (e : Z) : Z :=
  if (0 <=? e)%Z then (Z.pos m * 2 ^ e)%Z
  else ((Z.pos m + 2 ^ (- e) - 1) / 2 ^ (- e))%Z.

(** The rounds of [for (i = 0; i < len; ++i)], for the values of [len]
    whose conversion to a number is modelled: the least [i] for which
    [i < len] is false.  [undefined] and [NaN] compare false with every
    number, [null] and [false] count as [0], [true] as [1].  There is no
    result when the loop has no end: [len] is [Infinity], or a number
    above [2^53], where [++i] no longer changes [i].  The conversion of a
    string or an object to a number is not modelled; there is no result
    for them either. *)
Definition rounds (len : value) : option nat :=
  match len with
  | VUndefined | VNull => Some 0
  | VBool b => Some (if b then 1 else 0)
  | VNumber S754_nan | VNumber (S754_zero _) => Some 0
  | VNumber (S754_infinity negative) => if negative then Some 0 else None
  | VNumber (S754_finite negative m e) =>
      if negative then Some 0
      else if (ceiling m e <=? 2 ^ 53)%Z then Some (Z.to_nat (ceiling m e))
      else None
  | _ => None
  end.

(** [o[0], ..., o[n-1]] for an object or a function with the own
    properties [m]. *)
Definition elements (m : gmap string value) (n : nat) : list value :=
  (λ i, default VUndefined (m !! index_key i)) <$> seq 0 n.

(** The values [deps[i]] that the loop of lines 80-83 visits, from
    [i = 0] while [i < deps.length]: the elements of an array, the
    characters of a string, the first [length] index properties of an
    object or of a function (whose [length] is its arity).  A boolean, a
    number, an error and a promise have no [length], and [0 < undefined]
    is false: no round.  There is no result when the loop does not come
    to an end in the model: reading [length] of [undefined] or [null]
    throws a TypeError, and [rounds] may have no result. *)
Definition walk (deps : value) : option (list value) :=
  match deps with
  | VUndefined | VNull => None
  | VArray l => Some l
  | VString s => Some (chars s)
  | VObject m => n ← rounds (default VUndefined (m !! "length")); Some (elements m n)
  | VFunction n m => Some (elements m n)
  | VBool _ | VNumber _ | VError _ _ | VPromise _ => Some []
  end.

(** The dependencies that [create] asks the container for, when the loop
    comes to an end; none when it does not ([create] has no result
    then). *)
Definition dep_list (s : Spec) : list value :=
  default [] (walk (dependencies s)).

(** ** Promises and the event loop *)

Inductive outcome : Type :=
| Fulfilled (v : value)
| Rejected (reason : value).

(** What a promise does for its subscribers once it settles. *)
Inductive reaction : Type :=
| RAll (target i : nat)
    (* element [i] of the [Promise.all] whose result is [target] *)
| RThen (target : nat)
    (* the continuation of lines 88-96, whose result is [target] *)
| RFollow (target : nat).
    (* [target] was resolved with this promise and takes its outcome *)

#[global] Instance reaction_eq_dec : EqDecision reaction.
Proof. solve_decision. Defined.

Inductive kind : Type :=
| KExternal
    (* made by the container or its components, settled by them *)
| KAll (inputs : list value) (slots : list (option value))
    (* made by [Promise.all(inputs)]; [slots] holds the values received *)
| KThen.
    (* made by [.then] in [create] *)

Record cell : Type := Cell {
  status : option outcome;      (* [None] while pending *)
  reactions : list reaction;    (* subscribers, in subscription order *)
  ckind : kind;
}.

(** The calls the code makes to its collaborators. *)
Inductive event : Type :=
| EContainerCreate (dep ret : value)
    (* [container.create(dep, this)] returned [ret] *)
| EInstantiate (p : nat) (args : list value) (res : result value)
    (* the continuation of promise [p] called
       [this.instantiate.apply(this, args)], which returned or threw *)
| EEmit (inst : value).
    (* [container.emit('create', inst, this)] *)

Record state : Type := State {
  heap : list cell;                  (* a promise is an index into it *)
  queue : list (reaction * outcome); (* jobs of the event loop, oldest first *)
  _instance : value;                 (* [this._instance] *)
  log : list event;                  (* oldest first *)
}.

Definition init : state := State [] [] VUndefined [].

Definition set_heap (h : list cell) (σ : state) : state :=
  State h (queue σ) (_instance σ) (log σ).
Definition push_jobs (js : list (reaction * outcome)) (σ : state) : state :=
  State (heap σ) (queue σ ++ js) (_instance σ) (log σ).
Definition set_instance (v : value) (σ : state) : state :=
  State (heap σ) (queue σ) v (log σ).
Definition emit (es : list event) (σ : state) : state :=
  State (heap σ) (queue σ) (_instance σ) (log σ ++ es).

Definition alloc (c : cell) (σ : state) : nat * state :=
  (length (heap σ), set_heap (heap σ ++ [c]) σ).

(** Modelled from the spec: the promise implementation (the [promise]
    package) is not part of the sources.  A pending promise that settles
    keeps its outcome for ever and hands one job per subscriber to the
    event loop; settling a settled promise does nothing. *)
Definition settle (r : nat) (o : outcome) (σ : state) : state :=
  match heap σ !! r with
  | Some (Cell None rs k) =>
      push_jobs ((λ rc, (rc, o)) <$> rs)
        (set_heap (<[r := Cell (Some o) [] k]> (heap σ)) σ)
  | _ => σ
  end.

(** Modelled from the spec: the promise implementation is not part of the
    sources.  Subscribing to a pending promise registers the reaction;
    subscribing to a settled one queues its job at once. *)
Definition subscribe (r : nat) (rc : reaction) (σ : state) : state :=
  match heap σ !! r with
  | Some (Cell None rs k) =>
      set_heap (<[r := Cell None (rs ++ [rc]) k]> (heap σ)) σ
  | Some (Cell (Some o) _ _) => push_jobs [(rc, o)] σ
  | None => σ
  end.

(** Whether an object or a function has a callable [then]. *)
Definition has_then (m : gmap string value) : bool :=
  match m !! "then" with
  | Some (VFunction _ _) => true
  | _ => false
  end.

(** The values a promise adopts instead of being fulfilled with them: the
    promises of the store, and the objects and functions with a callable
    [then]. *)
Definition thenable (v : value) : bool :=
  match v with
  | VPromise _ => true
  | VObject m | VFunction _ m => has_then m
  | _ => false
  end.

(** Modelled from the spec: the promise implementation is not part of the
    sources.  Resolving a promise with a value fulfils it; resolving it
    with another promise makes it follow that promise; resolving it with
    itself rejects it with a TypeError.  Resolving it with any other
    thenable hands it to the [then] of that object, whose calls are not
    modelled: the promise is left pending. *)
Definition resolve (p : nat) (v : value) (σ : state) : state :=
  match v with
  | VPromise q =>
      if decide (q = p)
      then settle p (Rejected (type_error "A promise cannot be resolved with itself.")) σ
      else subscribe q (RFollow p) σ
  | _ => if thenable v then σ else settle p (Fulfilled v) σ
  end.

Definition slot_of (v : value) : option value :=
  match v with
  | VPromise _ => None
  | _ => Some v
  end.

(** All the slots, once every one is filled. *)
Definition collect (slots : list (option value)) : option (list value) :=
  mapM (λ s, s) slots.

Definition subscribe_input (P : nat) (σ : state) (iv : nat * value) : state :=
  match iv.2 with
  | VPromise r => subscribe r (RAll P iv.1) σ
  | _ => σ
  end.

(** Modelled from the spec: [Promise.all] is not part of the sources.  The
    all-or-fail-fast join of section 4.2, step 3: the result is fulfilled
    with the values in the order of [inputs] once every input is fulfilled
    (an input that is not a promise counts as its own value; [create]
    hands over no other thenable, see [valid_value]), and rejected with
    the reason of the first input that rejects. *)
Definition promise_all (inputs : list value) (σ : state) : nat * state :=
  let '(P, σ1) := alloc (Cell None [] (KAll inputs (slot_of <$> inputs))) σ in
  let σ2 := foldl (subscribe_input P) σ1 (imap pair inputs) in
  (P, match collect (slot_of <$> inputs) with
      | Some vs => settle P (Fulfilled (VArray vs)) σ2
      | None => σ2
      end).

(** Modelled from the spec: [Promise.all] is not part of the sources.  The
    input [i] of the [Promise.all] whose result is [P] was fulfilled with
    [v]: the value goes to its slot, and [P] is fulfilled once no slot is
    empty. *)
Definition fill (P i : nat) (v : value) (σ : state) : state :=
  match heap σ !! P with
  | Some (Cell st rs (KAll inputs slots)) =>
      let slots' := <[i := Some v]> slots in
      let σ1 := set_heap (<[P := Cell st rs (KAll inputs slots')]> (heap σ)) σ in
      match collect slots' with
      | Some vs => settle P (Fulfilled (VArray vs)) σ1
      | None => σ1
      end
  | _ => σ
  end.

(** Modelled from the spec: [then] is not part of the sources.  It makes a
    new promise, the result of the continuation. *)
Definition then_ (P : nat) (σ : state) : nat * state :=
  let '(p, σ1) := alloc (Cell None [] KThen) σ in
  (p, subscribe P (RThen p) σ1).

(** [f.apply(this, args)] spreads an array; [undefined] and [null] stand
    for no argument; a primitive is a TypeError (array-like objects are
    not modelled, [Promise.all] always gives an array). *)
Definition apply_args (args : value) : result (list value) :=
  match args with
  | VArray l => Ok l
  | VUndefined | VNull => Ok []
  | VBool _ | VNumber _ | VString _ =>
      Throw (type_error "CreateListFromArrayLike called on non-object")
  | _ => Ok []
  end.

(** What the container may answer with: a promise of the store, or a
    value that is not a thenable ([Promise.all] would call the [then] of
    any other thenable, which is not modelled). *)
Definition valid_value (h : list cell) (v : value) : bool :=
  match v with
  | VPromise r => bool_decide (r < length h)
  | _ => negb (thenable v)
  end.

(** The number of calls of [instantiate] so far. *)
Definition is_instantiate (e : event) : bool :=
  match e with
  | EInstantiate _ _ _ => true
  | _ => false
  end.

Definition invocations (l : list event) : nat :=
  length (List.filter is_instantiate l).

(** [container.create], as one call of [Spec.prototype.create] sees it:
    the value returned to the [i]-th iteration of the loop, which asks for
    the dependency [dep]. *)
Definition Container : Type := nat → value → value.

Section Create.

(** The specification [this] and the [instantiate] of its class: [n] is
    the number of earlier calls, so that a factory may answer
    differently from call to call. *)
Variable this : Spec.
Variable instantiate : nat → list value → result value.

(** The continuation of lines 88-96, run for the promise [p]. *)
Definition continuation (p : nat) (args : value) (σ : state)
    : result value * state :=
  match apply_args args with
  | Throw e => (Throw e, σ)
  | Ok l =>
      let res := instantiate (invocations (log σ)) l in
      let σ1 := emit [EInstantiate p l res] σ in
      match res with
      | Throw e => (Throw e, σ1)
      | Ok i =>
          let σ2 := emit [EEmit i] σ1 in
          let σ3 := if truthy (singleton this) then set_instance i σ2 else σ2 in
          (Ok i, σ3)
      end
  end.

(** One job of the event loop. *)
Definition run_job (j : reaction * outcome) (σ : state) : state :=
  match j with
  | (RAll P i, Fulfilled v) => fill P i v σ
  | (RAll P i, Rejected e) => settle P (Rejected e) σ
  | (RThen p, Fulfilled args) =>
      match continuation p args σ with
      | (Ok i, σ1) => resolve p i σ1
      | (Throw e, σ1) => settle p (Rejected e) σ1
      end
  | (RThen p, Rejected e) => settle p (Rejected e) σ
  | (RFollow p, o) => settle p o σ
  end.

(** [Spec.prototype.create], lines 68-104.  There is no result when the
    call does not return in the model: the loop over the dependencies
    does not come to an end ([walk]), or the container answers with a
    promise that does not exist or with a thenable of its own
    ([valid_value]). *)
Definition create (container : Container) (σ : state)
    : option (value * state) :=
  if truthy (_instance σ) then Some (_instance σ, σ)
  else
    deps ← walk (dependencies this);
    let promises := imap container deps in
    let σ0 := emit (zip_with EContainerCreate deps promises) σ in
    if forallb (valid_value (heap σ)) promises then
      let '(P, σ1) := promise_all promises σ0 in
      let '(p, σ2) := then_ P σ1 in
      let σ3 := if truthy (singleton this)
                then set_instance (VPromise p) σ2 else σ2 in
      Some (VPromise p, σ3)
    else None.

(** What can happen next. *)
Inductive label : Type :=
| LNew
    (* the container makes a new pending promise *)
| LSettle (r : nat) (o : outcome)
    (* the container settles one of its pending promises *)
| LCreate (container : Container)
    (* somebody calls [this.create(container)] *)
| LRun.
    (* the event loop runs its oldest job *)

Definition exec (l : label) (σ : state) : option state :=
  match l with
  | LNew => Some (alloc (Cell None [] KExternal) σ).2
  | LSettle r o =>
      match heap σ !! r with
      | Some (Cell None _ KExternal) => Some (settle r o σ)
      | _ => None
      end
  | LCreate container => snd <$> create container σ
  | LRun =>
      match queue σ with
      | [] => None
      | j :: js =>
          Some (run_job j (State (heap σ) js (_instance σ) (log σ)))
      end
  end.

Fixpoint run (tr : list label) (σ : state) : option state :=
  match tr with
  | [] => Some σ
  | l :: tr' => σ' ← exec l σ; run tr' σ'
  end.

End Create.

(** ** Observations on states *)

Definition status_of (σ : state) (r : nat) : option outcome :=
  heap σ !! r ≫= status.

Definition kind_of (σ : state) (r : nat) : option kind :=
  ckind <$> heap σ !! r.

(** The promise [P] was made by [Promise.all(inputs)]. *)
Definition is_all (σ : state) (P : nat) (inputs : list value) : Prop :=
  ∃ st rs slots, heap σ !! P = Some (Cell st rs (KAll inputs slots)).

(** The value [v] is what the input [x] of a [Promise.all] resolved to. *)
Definition resolved (σ : state) (x v : value) : Prop :=
  match x with
  | VPromise r => status_of σ r = Some (Fulfilled v)
  | _ => v = x
  end.

(** The reaction [rc] is registered with the promise [r], or its job is in
    the queue of the event loop. *)
Definition holds (σ : state) (r : nat) (rc : reaction) : Prop :=
  (∃ rs k, heap σ !! r = Some (Cell None rs k) ∧ rc ∈ rs)
  ∨ (∃ o, status_of σ r = Some o ∧ (rc, o) ∈ queue σ).

(** The number of reactions, registered or queued, weighted by [f]. *)
Definition tokens (f : reaction → nat) (σ : state) : nat :=
  sum_list_with (λ c, sum_list_with f (reactions c)) (heap σ)
  + sum_list_with (λ j, f j.1) (queue σ).

Definition is_then (rc : reaction) : nat :=
  match rc with RThen _ => 1 | _ => 0 end.

Definition then_of (p : nat) (rc : reaction) : nat :=
  if decide (rc = RThen p) then 1 else 0.

Definition settles (p : nat) (rc : reaction) : nat :=
  match rc with
  | RThen q | RFollow q => if decide (q = p) then 1 else 0
  | RAll _ _ => 0
  end.

Definition weight (rc : reaction) : nat :=
  match rc with RThen _ => 2 | _ => 1 end.

Definition settled (σ : state) (p : nat) : nat :=
  match status_of σ p with Some _ => 1 | None => 0 end.

(** The calls of [instantiate] made by the continuation of [p]. *)
Definition invoked_by (p : nat) (e : event) : bool :=
  match e with
  | EInstantiate q _ _ => bool_decide (q = p)
  | _ => false
  end.

(** The calls of [instantiate] that returned a value. *)
Definition is_return (e : event) : bool :=
  match e with
  | EInstantiate _ _ (Ok _) => true
  | _ => false
  end.

(** The calls of [instantiate] that returned a falsy value. *)
Definition is_falsy_return (e : event) : bool :=
  match e with
  | EInstantiate _ _ (Ok i) => negb (truthy i)
  | _ => false
  end.

Definition count (f : event → bool) (l : list event) : nat :=
  length (List.filter f l).

(** The state [σ'] comes after [σ]: promises are never removed, keep
    their kind and, once settled, their outcome; the log only grows. *)
Definition kind_le (k k' : kind) : Prop :=
  match k, k' with
  | KExternal, KExternal | KThen, KThen => True
  | KAll inputs _, KAll inputs' _ => inputs = inputs'
  | _, _ => False
  end.

Definition cell_le (c c' : cell) : Prop :=
  kind_le (ckind c) (ckind c')
  ∧ ∀ o, status c = Some o → status c' = Some o.

Definition ext (σ σ' : state) : Prop :=
  (∀ r c, heap σ !! r = Some c → ∃ c', heap σ' !! r = Some c' ∧ cell_le c c')
  ∧ ∃ es, log σ' = log σ ++ es.

(** ** The invariant of the event loop *)

(** Where a reaction may be: an element reaction of a [Promise.all] with
    the promise that is its input, the continuation with the
    [Promise.all] it was chained to, a follower with the promise its
    continuation returned. *)
Definition legit (σ : state) (r : nat) (rc : reaction) : Prop :=
  match rc with
  | RAll P i => ∃ inputs, is_all σ P inputs ∧ inputs !! i = Some (VPromise r)
  | RThen p => p = S r ∧ (∃ inputs, is_all σ r inputs) ∧ kind_of σ p = Some KThen
  | RFollow p => kind_of σ p = Some KThen
  end.

(** An input of a [Promise.all]: a promise is still to be heard from, or
    its value is in its slot, or it was rejected and so is the result; any
    other value is in its slot from the start. *)
Definition input_ok (σ : state) (P : nat) (slots : list (option value))
    (i : nat) (x : value) : Prop :=
  match x with
  | VPromise r =>
      holds σ r (RAll P i)
      ∨ match status_of σ r with
        | Some (Fulfilled v) => slots !! i = Some (Some v)
        | Some (Rejected e) => ∃ e', status_of σ P = Some (Rejected e')
        | None => False
        end
  | _ => slots !! i = Some (Some x)
  end.

(** The continuation chained to the [Promise.all] [P]: it is still to run,
    or it has run: on a rejection its promise has the same rejection, on a
    fulfilment it has called [instantiate] with the values. *)
Definition then_ok (σ : state) (P : nat) : Prop :=
  holds σ P (RThen (S P))
  ∨ match status_of σ P with
    | Some (Rejected e) => status_of σ (S P) = Some (Rejected e)
    | Some (Fulfilled x) =>
        ∃ l res, x = VArray l ∧ EInstantiate (S P) l res ∈ log σ
    | None => False
    end.

(** The bookkeeping of a [Promise.all]. *)
Definition all_ok (σ : state) (st : option outcome) (inputs : list value)
    (slots : list (option value)) : Prop :=
  length slots = length inputs
  ∧ (∀ i v, slots !! i = Some (Some v) →
       ∃ x, inputs !! i = Some x ∧ resolved σ x v)
  ∧ match st with
    | None => collect slots = None
    | Some (Fulfilled x) => ∃ vs, x = VArray vs ∧ slots = Some <$> vs
    | Some (Rejected e) =>
        ∃ i r, inputs !! i = Some (VPromise r)
               ∧ status_of σ r = Some (Rejected e)
    end.

Definition cell_ok (σ : state) (P : nat) (st : option outcome)
    (inputs : list value) (slots : list (option value)) : Prop :=
  all_ok σ st inputs slots
  ∧ (∀ i x, inputs !! i = Some x → input_ok σ P slots i x)
  ∧ kind_of σ (S P) = Some KThen
  ∧ then_ok σ P.

(** Every reaction is where it may be. *)
Definition tokens_legit (σ : state) : Prop :=
  (∀ r c rc, heap σ !! r = Some c → rc ∈ reactions c → legit σ r rc)
  ∧ (∀ rc o, (rc, o) ∈ queue σ → ∃ r, legit σ r rc ∧ status_of σ r = Some o).

Record Inv (σ : state) : Prop := {
  inv_legit : tokens_legit σ;
  inv_all : ∀ P st rs inputs slots,
    heap σ !! P = Some (Cell st rs (KAll inputs slots)) →
    cell_ok σ P st inputs slots;
  inv_settles : ∀ p,
    kind_of σ p = Some KThen → tokens (settles p) σ + settled σ p ≤ 1;
  inv_once : ∀ p,
    tokens (then_of p) σ + count (invoked_by p) (log σ) ≤ 1;
  inv_log : ∀ p l res,
    EInstantiate p l res ∈ log σ →
    kind_of σ p = Some KThen
    ∧ ∃ P inputs, p = S P ∧ is_all σ P inputs
                  ∧ status_of σ P = Some (Fulfilled (VArray l));
}.

(** ** The invariant of the cache *)

(** The continuation of [p] has called [instantiate], which returned. *)
Definition returned (p : nat) (l : list event) : Prop :=
  ∃ args i, EInstantiate p args (Ok i) ∈ l.

(** What [this._instance] can hold: nothing, the promise of a
    continuation, or an instance that [instantiate] returned. *)
Definition cache_ok (σ : state) : Prop :=
  _instance σ = VUndefined
  ∨ (∃ p, _instance σ = VPromise p ∧ kind_of σ p = Some KThen)
  ∨ (∃ p args, EInstantiate p args (Ok (_instance σ)) ∈ log σ).

Record SInv (this : Spec) (σ : state) : Prop := {
  sinv_cache : cache_ok σ;
  sinv_count :
    truthy (singleton this) = true →
    tokens is_then σ + invocations (log σ)
    ≤ (if truthy (_instance σ) then 1 else 0) + count is_falsy_return (log σ);
  sinv_current :
    truthy (singleton this) = true →
    ∀ p, kind_of σ p = Some KThen →
         returned p (log σ) ∨ _instance σ = VPromise p;
  sinv_plain :
    truthy (singleton this) = false → _instance σ = VUndefined;
}.

(** The state after the slow path of [create]. *)
Definition after_create (this : Spec) (k : Container) (σ : state) : state :=
  let inputs := imap k (dep_list this) in
  let σ0 := emit (zip_with EContainerCreate (dep_list this) inputs) σ in
  let σ2 := (then_ (promise_all inputs σ0).1 (promise_all inputs σ0).2).2 in
  if truthy (singleton this)
  then set_instance (VPromise (S (length (heap σ)))) σ2 else σ2.

(** Whether a descriptor is a boolean, a number or a string. *)
Definition primitive (v : value) : bool :=
  match v with
  | VBool _ | VNumber _ | VString _ => true
  | _ => false
  end.

(** ** Small systems to run the model on *)

(** A specification with the given [@singleton] and [@require]. *)
Definition ex_spec (single : value) (deps : list value) : Spec :=
  {| id := VString "x"; dependencies := VArray deps; singleton := single;
     implements := VArray []; a := ∅; _source := VUndefined |}.

(** A specification with the given [@singleton], whose [@require] is any
    value [req]. *)
Definition ex_require (single req : value) : Spec :=
  {| id := VString "x"; dependencies := req; singleton := single;
     implements := VArray []; a := ∅; _source := VUndefined |}.

(** A container that answers the request for the [i]-th dependency with
    the promise [i]. *)
Definition ex_container : Container := λ i _, VPromise i.

(** A factory that returns the array of its arguments. *)
Definition ex_array (n : nat) (args : list value) : result value :=
  Ok (VArray args).

(** A factory that always returns [v]. *)
Definition ex_const (v : value) (n : nat) (args : list value) : result value :=
  Ok v.

(** ** Further observations on the log *)

(** The instances [container.emit('create', ...)] was called with, oldest
    first. *)
Definition emitted (l : list event) : list value :=
  omap (λ e, match e with EEmit i => Some i | _ => None end) l.

(** The instances [instantiate] returned, oldest first. *)
Definition instances (l : list event) : list value :=
  omap (λ e, match e with EInstantiate _ _ (Ok i) => Some i | _ => None end) l.

Definition is_container (e : event) : bool :=
  match e with
  | EContainerCreate _ _ => true
  | _ => false
  end.

(** The number of calls of [container.create]. *)
Definition requests (l : list event) : nat := count is_container l.

(** The number of calls of [create] in a run. *)
Definition creates (tr : list label) : nat :=
  length (List.filter (λ l, match l with LCreate _ => true | _ => false end) tr).

(** What the result of [instantiate] makes of the promise [p] of its
    continuation at once: a thrown error rejects it, a value that is not a
    thenable fulfils it, [p] itself rejects it with a TypeError; for any
    other thenable [p] stays pending. *)
Definition outcome_of (res : result value) (p : nat) : option outcome :=
  match res with
  | Throw e => Some (Rejected e)
  | Ok (VPromise q) =>
      if decide (q = p)
      then Some (Rejected (type_error "A promise cannot be resolved with itself."))
      else None
  | Ok i => if thenable i then None else Some (Fulfilled i)
  end.

(** The calls of [instantiate] in the log: each result is what the
    factory gave, its promise has the outcome that follows at once, or
    follows the older promise that the factory returned; and every
    [Promise.all] of [create] has one input for each dependency. *)
Record LogInv (this : Spec) (instantiate : nat → list value → result value)
    (σ : state) : Prop := {
  log_result : ∀ p l res,
    EInstantiate p l res ∈ log σ → ∃ n, res = instantiate n l;
  log_outcome : ∀ p l res o,
    EInstantiate p l res ∈ log σ → outcome_of res p = Some o →
    status_of σ p = Some o;
  log_arity : ∀ P inputs,
    is_all σ P inputs → length inputs = length (dep_list this);
  log_follow : ∀ p l q,
    EInstantiate p l (Ok (VPromise q)) ∈ log σ → q < p →
    holds σ q (RFollow p)
    ∨ ∃ o, status_of σ q = Some o ∧ status_of σ p = Some o;
}.

(** [undefined] and [null], the two values without properties. *)
Definition nullish (v : value) : bool :=
  match v with
  | VUndefined | VNull => true
  | _ => false
  end.

(** * Theorems *)

(** ** The constructor *)

Section Constructor.

Implicit Types (m acc : gmap string value) (k : string).

(** [key.indexOf('@') == 0] tests whether the key begins with [@]. *)
Lemma indexOf_nonneg s c : (indexOf s c = -1 ∨ 0 ≤ indexOf s c)%Z.
Proof.
  induction s as [|d s IH]; simpl; [by left|].
  destruct (Ascii.eqb d c); [right; lia|].
  destruct (Z.ltb_spec (indexOf s c) 0); [by left | right; lia].
Qed.

Lemma indexOf_zero_prefix k :
  (indexOf k "@" =? 0)%Z = String.prefix "@" k.
Proof.
  destruct k as [|d k]; [done|]. cbn [indexOf String.prefix].
  destruct (Ascii.eqb_spec d "@"%char) as [->|Hne].
  - destruct k; reflexivity.
  - destruct (Ascii.ascii_dec "@" d) as [<-|_]; [done|].
    destruct (indexOf_nonneg k "@") as [->|?]; [done|].
    destruct (Z.ltb_spec (indexOf k "@") 0); [done|].
    apply Z.eqb_neq. lia.
Qed.

Lemma index_key_no_prefix i : String.prefix "@" (index_key i) = false.
Proof. unfold index_key. by destruct (Nat.to_uint i). Qed.

(** The loop over the keys of an object: a key of the list that begins
    with [@] maps to its property, every other key is left as it was. *)
Lemma copy_annotations_lookup (fn : bool) (n : nat) m ks acc :
  ∃ acc', foldl (copy_annotation (if fn then VFunction n m else VObject m)) (Ok acc) ks = Ok acc'
    ∧ ∀ k, acc' !! k =
        if decide (k ∈ ks ∧ String.prefix "@" k = true)
        then Some (default VUndefined (m !! k)) else acc !! k.
Proof.
  revert acc. induction ks as [|k0 ks IH]; intros acc; cbn [foldl].
  - exists acc. split; [done|]. intros k.
    destruct (decide _) as [[H _]|]; [|done]. by apply elem_of_nil in H.
  - unfold copy_annotation at 2. cbn [mbind result_bind]. rewrite indexOf_zero_prefix.
    destruct (String.prefix "@" k0) eqn:Hp.
    + assert (get_prop (if fn then VFunction n m else VObject m) k0
              = Ok (default VUndefined (m !! k0))) as -> by by destruct fn.
      cbn [mbind result_bind].
      destruct (IH (<[k0:=default VUndefined (m !! k0)]> acc)) as (acc' & -> & Hl).
      exists acc'. split; [done|]. intros k. rewrite Hl.
      destruct (decide (k ∈ ks ∧ _)) as [[H1 H2]|H1],
               (decide (k ∈ k0 :: ks ∧ _)) as [[H3 H4]|H3]; try done.
      * destruct H3. split; [by apply elem_of_cons; right|done].
      * apply elem_of_cons in H3 as [->|H3]; [by rewrite lookup_insert_eq|].
        by destruct H1.
      * rewrite lookup_insert_ne; [done|]. intros <-.
        destruct H3. split; [by apply elem_of_cons; left|done].
    + destruct (IH acc) as (acc' & -> & Hl).
      exists acc'. split; [done|]. intros k. rewrite Hl.
      destruct (decide (k ∈ ks ∧ _)) as [[H1 H2]|H1],
               (decide (k ∈ k0 :: ks ∧ _)) as [[H3 H4]|H3]; try done.
      * destruct H3. split; [by apply elem_of_cons; right|done].
      * apply elem_of_cons in H3 as [->|H3]; [congruence|]. by destruct H1.
Qed.

Lemma copy_annotations_object (fn : bool) (n : nat) m :
  copy_annotations (if fn then VFunction n m else VObject m) (map_to_list m).*1
  = Ok (filter (λ kv, String.prefix "@" kv.1 = true) m).
Proof.
  destruct (copy_annotations_lookup fn n m (map_to_list m).*1 ∅) as (acc' & H & Hl).
  unfold copy_annotations. rewrite H. f_equal. apply map_eq. intros k.
  rewrite Hl. rewrite lookup_empty.
  destruct (filter _ m !! k) as [v|] eqn:Hf.
  - apply map_lookup_filter_Some in Hf as [Hm Hp]. simpl in Hp.
    rewrite decide_True; [by rewrite Hm|]. split; [|done].
    apply list_elem_of_fmap. exists (k, v). split; [done|].
    by apply elem_of_map_to_list.
  - case_decide as H'; [|done]. destruct H' as [Hin Hp].
    apply list_elem_of_fmap in Hin as ([k' v] & -> & Hin).
    apply elem_of_map_to_list in Hin. simpl in *.
    assert (filter (λ kv, String.prefix "@" kv.1 = true) m !! k' = Some v) as Hs
      by by apply map_lookup_filter_Some.
    congruence.
Qed.

Lemma copy_annotations_array l ks :
  copy_annotations (VArray l) (index_key <$> ks) = Ok ∅.
Proof.
  unfold copy_annotations. generalize (∅ : gmap string value).
  induction ks as [|i ks IH]; intros acc; [done|].
  cbn [fmap list_fmap foldl]. unfold copy_annotation at 2.
  cbn [mbind result_bind].
  rewrite indexOf_zero_prefix, index_key_no_prefix. apply IH.
Qed.

End Constructor.

(** C6, as the code has it: a descriptor that is a boolean, a number or a
    string never makes the constructor fail; [annotations] is left empty,
    [dependencies] and [implements] are the empty array and [singleton] is
    [undefined]. *)
Theorem primitive_descriptor id_ mod_ source :
  primitive mod_ = true →
  new_Spec id_ mod_ source =
    Ok {| id := id_; dependencies := VArray []; singleton := VUndefined;
          implements := VArray []; a := ∅; _source := source |}.
Proof. by destruct mod_. Qed.

Lemma primitive_descriptor_witness :
  new_Spec (VString "n") (VNumber (S754_finite false 5 0)) VNull =
    Ok {| id := VString "n"; dependencies := VArray []; singleton := VUndefined;
          implements := VArray []; a := ∅; _source := VNull |}.
Proof. apply primitive_descriptor. reflexivity. Defined.

(** C6 fails for [null] and [undefined]: reading [mod['@require']] throws
    a TypeError, so the construction fails. *)
Lemma null_descriptor_throws :
  new_Spec (VString "n") VNull VUndefined
    = Throw (type_error "Cannot read property of undefined or null")
  ∧ new_Spec (VString "n") VUndefined VUndefined
    = Throw (type_error "Cannot read property of undefined or null").
Proof. split; reflexivity. Qed.

(** The constructor on an object or a function, in closed form. *)
Lemma new_Spec_object (fn : bool) (n : nat) id_ m source :
  new_Spec id_ (if fn then VFunction n m else VObject m) source =
    Ok {| id := id_;
          dependencies := js_or (default VUndefined (m !! "@require")) (VArray []);
          singleton := default VUndefined (m !! "@singleton");
          implements :=
            (let i := js_or (default VUndefined (m !! "@implements")) (VArray []) in
             if String.eqb (typeof i) "string" then VArray [i] else i);
          a := filter (λ kv, String.prefix "@" kv.1 = true) m;
          _source := source |}.
Proof.
  unfold new_Spec.
  assert (∀ k, get_prop (if fn then VFunction n m else VObject m) k
               = Ok (default VUndefined (m !! k))) as Hget by by destruct fn.
  rewrite !Hget. cbn [mbind result_bind].
  assert ((if String.eqb (typeof (if fn then VFunction n m else VObject m)) "object"
              || String.eqb (typeof (if fn then VFunction n m else VObject m)) "function"
           then keys ← object_keys (if fn then VFunction n m else VObject m);
                copy_annotations (if fn then VFunction n m else VObject m) keys
           else Ok ∅)
          = Ok (filter (λ kv, String.prefix "@" kv.1 = true) m)) as ->.
  { rewrite <- (copy_annotations_object fn n m). by destruct fn. }
  reflexivity.
Qed.

(** C7, as the code has it: when the reserved keys are absent,
    [dependencies] is the empty array, [singleton] is [undefined] (a falsy
    value, not [false]) and [implements] is the empty array; a non-empty
    string under [@implements] becomes a one-element array, the empty
    string becomes the empty array. *)
Theorem defaults_and_implements (fn : bool) (n : nat) id_ m source :
  ∃ s, new_Spec id_ (if fn then VFunction n m else VObject m) source = Ok s
    ∧ (m !! "@require" = None → dependencies s = VArray [])
    ∧ (m !! "@singleton" = None →
         singleton s = VUndefined ∧ truthy (singleton s) = false)
    ∧ (m !! "@implements" = None → implements s = VArray [])
    ∧ (∀ str, m !! "@implements" = Some (VString str) →
         implements s = if String.eqb str "" then VArray []
                        else VArray [VString str]).
Proof.
  rewrite new_Spec_object. eexists. split; [reflexivity|]. cbn.
  split_and!.
  - by intros ->.
  - by intros ->.
  - by intros ->.
  - intros str ->. cbn. unfold js_or. cbn.
    by destruct (String.eqb str "").
Qed.

Lemma defaults_and_implements_witness :
  ∃ s, new_Spec (VString "x") (VObject {[ "@implements" := VString "Foo" ]}) VUndefined = Ok s
    ∧ dependencies s = VArray []
    ∧ singleton s = VUndefined
    ∧ implements s = VArray [VString "Foo"].
Proof.
  destruct (defaults_and_implements false 0 (VString "x")
              {[ "@implements" := VString "Foo" ]} VUndefined)
    as (s & Hs & Hd & Hsg & _ & Hi).
  exists s. split; [exact Hs|]. split; [apply Hd; reflexivity|].
  split; [apply Hsg; reflexivity|]. apply (Hi "Foo"). reflexivity.
Defined.

(** C7 fails as stated: without [@singleton] the field is [undefined], not
    [false]; and the empty string under [@implements] gives the empty
    array, not a one-element collection. *)
Lemma defaults_counterexample :
  (∃ s, new_Spec (VString "x") (VObject ∅) VUndefined = Ok s
        ∧ singleton s ≠ VBool false)
  ∧ (∃ s, new_Spec (VString "x") (VObject {[ "@implements" := VString "" ]}) VUndefined = Ok s
          ∧ implements s ≠ VArray [VString ""]).
Proof. split; eexists; (split; [reflexivity|]); discriminate. Qed.


(** ** The event loop: promises *)

Section Promises.

Implicit Types (σ : state) (r p P : nat) (o : outcome) (rc : reaction)
  (c : cell) (f : reaction → nat).

(** *** What the operations on promises do *)

Lemma settle_cases r o σ :
  (∃ rs k, heap σ !! r = Some (Cell None rs k)
     ∧ settle r o σ =
         State (<[r := Cell (Some o) [] k]> (heap σ))
               (queue σ ++ ((λ rc, (rc, o)) <$> rs)) (_instance σ) (log σ))
  ∨ ((∀ rs k, heap σ !! r ≠ Some (Cell None rs k)) ∧ settle r o σ = σ).
Proof.
  unfold settle. destruct (heap σ !! r) as [[[o'|] rs k]|] eqn:Hr.
  - right. split; [congruence|done].
  - left. by exists rs, k.
  - right. split; [congruence|done].
Qed.

Lemma subscribe_cases r rc σ :
  (∃ rs k, heap σ !! r = Some (Cell None rs k)
     ∧ subscribe r rc σ =
         State (<[r := Cell None (rs ++ [rc]) k]> (heap σ))
               (queue σ) (_instance σ) (log σ))
  ∨ (∃ o rs k, heap σ !! r = Some (Cell (Some o) rs k)
     ∧ subscribe r rc σ =
         State (heap σ) (queue σ ++ [(rc, o)]) (_instance σ) (log σ))
  ∨ (heap σ !! r = None ∧ subscribe r rc σ = σ).
Proof.
  unfold subscribe. destruct (heap σ !! r) as [[[o'|] rs k]|] eqn:Hr.
  - right; left. by exists o', rs, k.
  - left. by exists rs, k.
  - by right; right.
Qed.

Lemma lookup_insert_cell (h : list cell) r x c c0 :
  h !! r = Some c0 →
  <[r:=c]> h !! x = if decide (x = r) then Some c else h !! x.
Proof.
  intros Hr. case_decide as Hx.
  - subst. apply list_lookup_insert_eq. by eapply lookup_lt_Some.
  - by apply list_lookup_insert_ne.
Qed.

(** What a cell becomes when a promise settles. *)
Lemma settle_lookup r o σ x c' :
  heap (settle r o σ) !! x = Some c' →
  heap σ !! x = Some c'
  ∨ (x = r ∧ ∃ rs k, heap σ !! r = Some (Cell None rs k)
                     ∧ c' = Cell (Some o) [] k).
Proof.
  destruct (settle_cases r o σ) as [(rs & k & Hr & ->)|[_ ->]]; simpl.
  - rewrite (lookup_insert_cell _ _ _ _ _ Hr). case_decide as Hx.
    + intros [= <-]. right. split; [done|]. by exists rs, k.
    + by left.
  - by left.
Qed.

Lemma settle_lookup_fwd r o σ x c :
  heap σ !! x = Some c →
  ∃ c', heap (settle r o σ) !! x = Some c' ∧ ckind c' = ckind c
        ∧ (∀ o', status c = Some o' → status c' = Some o').
Proof.
  intros Hx.
  destruct (settle_cases r o σ) as [(rs & k & Hr & ->)|[_ ->]]; simpl.
  - rewrite (lookup_insert_cell _ _ _ _ _ Hr). case_decide as Hd.
    + subst. rewrite Hr in Hx. injection Hx as <-.
      eexists. split; [done|]. by split.
    + eexists. split; [done|]. by split.
  - eexists. split; [done|]. by split.
Qed.

Lemma subscribe_lookup r rc σ x c' :
  heap (subscribe r rc σ) !! x = Some c' →
  heap σ !! x = Some c'
  ∨ (x = r ∧ ∃ rs k, heap σ !! r = Some (Cell None rs k)
                     ∧ c' = Cell None (rs ++ [rc]) k).
Proof.
  destruct (subscribe_cases r rc σ)
    as [(rs & k & Hr & ->)|[(o & rs & k & Hr & ->)|[_ ->]]]; simpl.
  - rewrite (lookup_insert_cell _ _ _ _ _ Hr). case_decide as Hx.
    + intros [= <-]. right. split; [done|]. by exists rs, k.
    + by left.
  - by left.
  - by left.
Qed.

Lemma subscribe_lookup_fwd r rc σ x c :
  heap σ !! x = Some c →
  ∃ c', heap (subscribe r rc σ) !! x = Some c' ∧ ckind c' = ckind c
        ∧ status c' = status c.
Proof.
  intros Hx.
  destruct (subscribe_cases r rc σ)
    as [(rs & k & Hr & ->)|[(o & rs & k & Hr & ->)|[_ ->]]]; simpl.
  - rewrite (lookup_insert_cell _ _ _ _ _ Hr). case_decide as Hd.
    + subst. rewrite Hr in Hx. injection Hx as <-. eexists. by split.
    + eexists. by split.
  - eexists. by split.
  - eexists. by split.
Qed.

Lemma settle_instance r o σ : _instance (settle r o σ) = _instance σ.
Proof. by destruct (settle_cases r o σ) as [(rs & k & Hr & ->)|[_ ->]]. Qed.
Lemma settle_log r o σ : log (settle r o σ) = log σ.
Proof. by destruct (settle_cases r o σ) as [(rs & k & Hr & ->)|[_ ->]]. Qed.
Lemma settle_length r o σ : length (heap (settle r o σ)) = length (heap σ).
Proof.
  destruct (settle_cases r o σ) as [(rs & k & Hr & ->)|[_ ->]]; [|done].
  simpl. by rewrite length_insert.
Qed.

Lemma subscribe_instance r rc σ : _instance (subscribe r rc σ) = _instance σ.
Proof.
  by destruct (subscribe_cases r rc σ)
    as [(rs & k & Hr & ->)|[(o & rs & k & Hr & ->)|[_ ->]]].
Qed.
Lemma subscribe_log r rc σ : log (subscribe r rc σ) = log σ.
Proof.
  by destruct (subscribe_cases r rc σ)
    as [(rs & k & Hr & ->)|[(o & rs & k & Hr & ->)|[_ ->]]].
Qed.
Lemma subscribe_length r rc σ :
  length (heap (subscribe r rc σ)) = length (heap σ).
Proof.
  destruct (subscribe_cases r rc σ)
    as [(rs & k & Hr & ->)|[(o & rs & k & Hr & ->)|[_ ->]]]; try done.
  simpl. by rewrite length_insert.
Qed.

Lemma resolve_instance p v σ : _instance (resolve p v σ) = _instance σ.
Proof.
  unfold resolve. destruct v; cbn [thenable]; try destruct (has_then _); try done; try apply settle_instance.
  case_decide; [apply settle_instance|apply subscribe_instance].
Qed.
Lemma resolve_log p v σ : log (resolve p v σ) = log σ.
Proof.
  unfold resolve. destruct v; cbn [thenable]; try destruct (has_then _); try done; try apply settle_log.
  case_decide; [apply settle_log|apply subscribe_log].
Qed.
Lemma resolve_length p v σ : length (heap (resolve p v σ)) = length (heap σ).
Proof.
  unfold resolve. destruct v; cbn [thenable]; try destruct (has_then _); try done; try apply settle_length.
  case_decide; [apply settle_length|apply subscribe_length].
Qed.

(** *** States that come later *)

Lemma kind_le_refl k : kind_le k k.
Proof. by destruct k. Qed.

Lemma kind_le_trans k1 k2 k3 : kind_le k1 k2 → kind_le k2 k3 → kind_le k1 k3.
Proof. destruct k1, k2, k3; simpl; try done. congruence. Qed.

Lemma kind_le_eq k k' : k' = k → kind_le k k'.
Proof. intros ->. apply kind_le_refl. Qed.

Lemma ext_refl σ : ext σ σ.
Proof.
  split.
  - intros r c Hr. exists c. split; [done|]. split; [apply kind_le_refl|done].
  - exists []. by rewrite app_nil_r.
Qed.

Lemma ext_trans σ1 σ2 σ3 : ext σ1 σ2 → ext σ2 σ3 → ext σ1 σ3.
Proof.
  intros [H1 [es1 L1]] [H2 [es2 L2]]. split.
  - intros r c Hr. destruct (H1 _ _ Hr) as (c2 & Hr2 & Hk2 & Hs2).
    destruct (H2 _ _ Hr2) as (c3 & Hr3 & Hk3 & Hs3).
    exists c3. split; [done|]. split; [by eapply kind_le_trans|].
    intros o Ho. by apply Hs3, Hs2.
  - exists (es1 ++ es2). by rewrite L2, L1, app_assoc.
Qed.

Lemma ext_settle r o σ : ext σ (settle r o σ).
Proof.
  split; [|exists []; by rewrite settle_log, app_nil_r].
  intros x c Hx. destruct (settle_lookup_fwd r o σ x c Hx) as (c' & H' & Hk & Hs).
  exists c'. split; [done|]. split; [by apply kind_le_eq|done].
Qed.

Lemma ext_subscribe r rc σ : ext σ (subscribe r rc σ).
Proof.
  split; [|exists []; by rewrite subscribe_log, app_nil_r].
  intros x c Hx.
  destruct (subscribe_lookup_fwd r rc σ x c Hx) as (c' & H' & Hk & Hs).
  exists c'. split; [done|]. split; [by apply kind_le_eq|].
  intros o'. by rewrite Hs.
Qed.

Lemma ext_resolve p v σ : ext σ (resolve p v σ).
Proof.
  unfold resolve. destruct v; cbn [thenable]; try destruct (has_then _); try done; try apply ext_refl; try apply ext_settle.
  case_decide; [apply ext_settle|apply ext_subscribe].
Qed.

Lemma ext_alloc c σ : ext σ (alloc c σ).2.
Proof.
  split; [|exists []; simpl; by rewrite app_nil_r].
  intros x c0 Hx. exists c0. simpl. split; [by apply lookup_app_l_Some|].
  split; [apply kind_le_refl|done].
Qed.

Lemma ext_emit es σ : ext σ (emit es σ).
Proof.
  split; [|by exists es].
  intros x c Hx. exists c. split; [done|]. split; [apply kind_le_refl|done].
Qed.

Lemma ext_set_instance v σ : ext σ (set_instance v σ).
Proof.
  split; [|exists []; simpl; by rewrite app_nil_r].
  intros x c Hx. exists c. split; [done|]. split; [apply kind_le_refl|done].
Qed.

(** Facts that stay true. *)
Lemma ext_status σ σ' r o :
  ext σ σ' → status_of σ r = Some o → status_of σ' r = Some o.
Proof.
  intros [H _]. unfold status_of. destruct (heap σ !! r) as [c|] eqn:Hr; [|done].
  simpl. intros Hs. destruct (H _ _ Hr) as (c' & -> & _ & Hs'). simpl. auto.
Qed.

Lemma ext_kind_then σ σ' p :
  ext σ σ' → kind_of σ p = Some KThen → kind_of σ' p = Some KThen.
Proof.
  intros [H _]. unfold kind_of. destruct (heap σ !! p) as [c|] eqn:Hr; [|done].
  simpl. intros [= Hk]. destruct (H _ _ Hr) as (c' & -> & Hk' & _). simpl.
  rewrite Hk in Hk'. by destruct (ckind c').
Qed.

Lemma ext_is_all σ σ' P inputs :
  ext σ σ' → is_all σ P inputs → is_all σ' P inputs.
Proof.
  intros [H _] (st & rs & slots & HP).
  destruct (H _ _ HP) as ([st' rs' k'] & HP' & Hk' & _). simpl in Hk'.
  destruct k'; try done. subst. by exists st', rs', slots0.
Qed.

Lemma ext_resolved σ σ' x v : ext σ σ' → resolved σ x v → resolved σ' x v.
Proof. intros H. destruct x; simpl; try done. by apply ext_status. Qed.

Lemma ext_legit σ σ' r rc : ext σ σ' → legit σ r rc → legit σ' r rc.
Proof.
  intros H. destruct rc as [P i|p|p]; simpl.
  - intros (inputs & Ha & Hi). exists inputs. split; [by eapply ext_is_all|done].
  - intros (-> & [inputs Ha] & Hk). split; [done|]. split.
    + exists inputs. by eapply ext_is_all.
    + by eapply ext_kind_then.
  - by apply ext_kind_then.
Qed.

Lemma ext_log σ σ' e : ext σ σ' → e ∈ log σ → e ∈ log σ'.
Proof. intros [_ [es ->]] He. apply elem_of_app. by left. Qed.

Lemma ext_length σ σ' : ext σ σ' → length (heap σ) ≤ length (heap σ').
Proof.
  intros [H _]. destruct (decide (length (heap σ) ≤ length (heap σ'))); [done|].
  assert (is_Some (heap σ !! length (heap σ'))) as [c Hc]
    by (apply lookup_lt_is_Some; lia).
  destruct (H _ _ Hc) as (c' & Hc' & _).
  apply lookup_lt_Some in Hc'. lia.
Qed.

End Promises.

Section Tokens.

Implicit Types (σ : state) (r p P : nat) (o : outcome) (rc : reaction)
  (c : cell) (f : reaction → nat).

(** *** Where the reactions are *)

Lemma holds_eq σ σ' r rc :
  heap σ' = heap σ → queue σ' = queue σ → holds σ r rc → holds σ' r rc.
Proof. unfold holds, status_of. by intros -> ->. Qed.

Lemma holds_alloc c σ r rc : holds σ r rc → holds (alloc c σ).2 r rc.
Proof.
  intros [(rs & k & Hr & Hin)|(o & Hs & Hq)]; [left|right].
  - exists rs, k. split; [|done]. simpl. by apply lookup_app_l_Some.
  - exists o. split; [|done]. by eapply ext_status; [apply ext_alloc|].
Qed.

Lemma holds_subscribe r' rc' σ r rc :
  holds σ r rc → holds (subscribe r' rc' σ) r rc.
Proof.
  intros [(rs & k & Hr & Hin)|(o & Hs & Hq)].
  - destruct (subscribe_cases r' rc' σ)
      as [(rs' & k' & Hr' & ->)|[(o' & rs' & k' & Hr' & ->)|[_ ->]]].
    + left. simpl. rewrite (lookup_insert_cell _ _ _ _ _ Hr').
      case_decide as Hd.
      * subst. rewrite Hr in Hr'. injection Hr' as <- <-.
        eexists _, _. split; [done|]. apply elem_of_app. by left.
      * by exists rs, k.
    + left. by exists rs, k.
    + left. by exists rs, k.
  - right. exists o. split; [by eapply ext_status; [apply ext_subscribe|]|].
    destruct (subscribe_cases r' rc' σ)
      as [(rs' & k' & Hr' & ->)|[(o' & rs' & k' & Hr' & ->)|[_ ->]]];
      simpl; try done.
    apply elem_of_app. by left.
Qed.

Lemma holds_subscribe_new r rc σ :
  r < length (heap σ) → holds (subscribe r rc σ) r rc.
Proof.
  intros Hlt. apply lookup_lt_is_Some in Hlt as [c Hc].
  destruct (subscribe_cases r rc σ)
    as [(rs' & k' & Hr' & ->)|[(o' & rs' & k' & Hr' & ->)|[Hn _]]].
  - left. simpl. rewrite (lookup_insert_cell _ _ _ _ _ Hr'), decide_True by done.
    eexists _, _. split; [done|]. apply elem_of_app. right. by apply list_elem_of_singleton.
  - right. exists o'. unfold status_of. simpl. rewrite Hr'. split; [done|].
    apply elem_of_app. right. by apply list_elem_of_singleton.
  - congruence.
Qed.

Lemma holds_settle r' o' σ r rc : holds σ r rc → holds (settle r' o' σ) r rc.
Proof.
  intros [(rs & k & Hr & Hin)|(o & Hs & Hq)].
  - destruct (settle_cases r' o' σ) as [(rs' & k' & Hr' & ->)|[_ ->]].
    + simpl. destruct (decide (r = r')) as [->|Hne].
      * right. exists o'. unfold status_of. simpl.
        rewrite (lookup_insert_cell _ _ _ _ _ Hr'), decide_True by done.
        split; [done|]. rewrite Hr in Hr'. injection Hr' as <- <-.
        apply elem_of_app. right. by apply (list_elem_of_fmap_2 (λ rc, (rc, o'))).
      * left. exists rs, k. simpl.
        by rewrite (lookup_insert_cell _ _ _ _ _ Hr'), decide_False.
    + left. by exists rs, k.
  - right. exists o. split; [by eapply ext_status; [apply ext_settle|]|].
    destruct (settle_cases r' o' σ) as [(rs' & k' & Hr' & ->)|[_ ->]];
      simpl; try done.
    apply elem_of_app. by left.
Qed.

Lemma holds_resolve p v σ r rc : holds σ r rc → holds (resolve p v σ) r rc.
Proof.
  unfold resolve. destruct v; cbn [thenable]; try destruct (has_then _); try done; try apply holds_settle.
  case_decide; [apply holds_settle|apply holds_subscribe].
Qed.

(** Changing the slots of a [Promise.all] moves no reaction. *)
Lemma holds_set_kind σ P st rs k k' r rc :
  heap σ !! P = Some (Cell st rs k) →
  holds σ r rc →
  holds (set_heap (<[P := Cell st rs k']> (heap σ)) σ) r rc.
Proof.
  intros HP [(rs0 & k0 & Hr & Hin)|(o & Hs & Hq)]; [left|right]; simpl.
  - rewrite (lookup_insert_cell _ _ _ _ _ HP). case_decide as Hd.
    + subst. rewrite HP in Hr. injection Hr as -> -> ->. by eexists _, _.
    + by exists rs0, k0.
  - exists o. split; [|done]. unfold status_of in *. simpl.
    rewrite (lookup_insert_cell _ _ _ _ _ HP). case_decide as Hd; [|done].
    subst. by rewrite HP in Hs.
Qed.

(** Taking the oldest job off the queue. *)
Lemma holds_pop h j js i l r rc :
  holds (State h (j :: js) i l) r rc →
  holds (State h js i l) r rc
  ∨ (j.1 = rc ∧ status_of (State h js i l) r = Some j.2).
Proof.
  intros [(rs & k & Hr & Hin)|(o & Hs & Hq)].
  - left. left. by exists rs, k.
  - simpl in Hq. apply elem_of_cons in Hq as [<-|Hq].
    + by right.
    + left. right. by exists o.
Qed.

(** *** Counting reactions *)

Lemma sum_list_with_insert {A} (g : A → nat) (l : list A) i x y :
  l !! i = Some x →
  sum_list_with g (<[i:=y]> l) + g x = sum_list_with g l + g y.
Proof.
  intros Hi. rewrite <- (take_drop_middle l i x Hi) at 2.
  rewrite insert_take_drop by by eapply lookup_lt_Some.
  rewrite !sum_list_with_app. simpl. lia.
Qed.

Lemma sum_list_with_fmap_fst f o (rs : list reaction) :
  sum_list_with (λ j : reaction * outcome, f j.1) ((λ rc, (rc, o)) <$> rs)
  = sum_list_with f rs.
Proof.
  induction rs as [|rc rs IH]; [done|].
  cbn [fmap list_fmap sum_list_with fst]. cbn [fmap] in IH. by rewrite IH.
Qed.

Lemma tokens_eq f σ σ' :
  heap σ' = heap σ → queue σ' = queue σ → tokens f σ' = tokens f σ.
Proof. unfold tokens. by intros -> ->. Qed.

Lemma tokens_alloc f c σ :
  tokens f (alloc c σ).2 = tokens f σ + sum_list_with f (reactions c).
Proof. unfold tokens. simpl. rewrite sum_list_with_app. simpl. lia. Qed.

Lemma tokens_settle f r o σ : tokens f (settle r o σ) = tokens f σ.
Proof.
  destruct (settle_cases r o σ) as [(rs & k & Hr & ->)|[_ ->]]; [|done].
  unfold tokens. cbn [heap queue].
  pose proof (sum_list_with_insert (λ c, sum_list_with f (reactions c))
                (heap σ) r _ (Cell (Some o) [] k) Hr) as H.
  simpl in H. rewrite sum_list_with_app, sum_list_with_fmap_fst. lia.
Qed.

Lemma tokens_subscribe f r rc σ :
  tokens f (subscribe r rc σ) ≤ tokens f σ + f rc.
Proof.
  destruct (subscribe_cases r rc σ)
    as [(rs & k & Hr & ->)|[(o & rs & k & Hr & ->)|[_ ->]]]; [| |lia].
  - unfold tokens. simpl.
    pose proof (sum_list_with_insert (λ c, sum_list_with f (reactions c))
                  (heap σ) r _ (Cell None (rs ++ [rc]) k) Hr) as H.
    simpl in H. rewrite sum_list_with_app in H. simpl in H. lia.
  - unfold tokens. simpl. rewrite sum_list_with_app. simpl. lia.
Qed.

Lemma tokens_resolve f p v σ :
  tokens f (resolve p v σ) ≤ tokens f σ + f (RFollow p).
Proof.
  unfold resolve. destruct v; cbn [thenable]; try destruct (has_then _); try done; rewrite ?tokens_settle; try lia.
  case_decide; [rewrite tokens_settle; lia|apply tokens_subscribe].
Qed.

Lemma tokens_set_kind f σ P st rs k k' :
  heap σ !! P = Some (Cell st rs k) →
  tokens f (set_heap (<[P := Cell st rs k']> (heap σ)) σ) = tokens f σ.
Proof.
  intros HP. unfold tokens. simpl.
  pose proof (sum_list_with_insert (λ c, sum_list_with f (reactions c))
                (heap σ) P _ (Cell st rs k') HP) as H.
  simpl in H. lia.
Qed.

Lemma tokens_pop f h j js i l :
  tokens f (State h (j :: js) i l) = f j.1 + tokens f (State h js i l).
Proof. unfold tokens. simpl. lia. Qed.

Lemma tokens_holds f σ r rc : holds σ r rc → f rc ≤ tokens f σ.
Proof.
  unfold tokens. intros [(rs & k & Hr & Hin)|(o & Hs & Hq)].
  - apply list_elem_of_lookup_2 in Hr.
    pose proof (sum_list_with_in _ (λ c, sum_list_with f (reactions c)) _ Hr) as H1.
    pose proof (sum_list_with_in _ f _ Hin) as H2. simpl in H1. lia.
  - pose proof (sum_list_with_in _ (λ j : reaction * outcome, f j.1) _ Hq) as H1.
    simpl in H1. lia.
Qed.

Lemma sum_list_with_zero {A} (g : A → nat) (l : list A) :
  (∀ x, x ∈ l → g x = 0) → sum_list_with g l = 0.
Proof.
  induction l as [|x l IH]; intros H; simpl; [done|].
  rewrite (H x), IH; [done| |by left]. intros y Hy. apply H. by right.
Qed.

Lemma tokens_zero f σ :
  (∀ r c rc, heap σ !! r = Some c → rc ∈ reactions c → f rc = 0) →
  (∀ rc o, (rc, o) ∈ queue σ → f rc = 0) →
  tokens f σ = 0.
Proof.
  intros H1 H2. unfold tokens. rewrite !sum_list_with_zero; [done| |].
  - intros [rc o] Hin. by eapply H2.
  - intros c Hc. apply list_elem_of_lookup_1 in Hc as [r Hr].
    apply sum_list_with_zero. intros rc Hin. by eapply H1.
Qed.

End Tokens.

Section Frames.

Implicit Types (σ : state) (r p P : nat) (o : outcome) (rc : reaction)
  (c : cell) (f : reaction → nat).

(** *** The invariant of a [Promise.all] in a later state *)

Lemma all_ok_ext σ σ' st inputs slots :
  ext σ σ' → all_ok σ st inputs slots → all_ok σ' st inputs slots.
Proof.
  intros He (Hlen & Hslots & Hst). split; [done|]. split.
  - intros i v Hi. destruct (Hslots i v Hi) as (x & Hx & Hres).
    exists x. split; [done|]. by eapply ext_resolved.
  - destruct st as [[x|e]|]; try done.
    destruct Hst as (i & r & Hi & Hr). exists i, r. split; [done|].
    by eapply ext_status.
Qed.

Lemma input_ok_mono σ σ' P slots i x :
  ext σ σ' →
  (∀ r, holds σ r (RAll P i) → holds σ' r (RAll P i)) →
  input_ok σ P slots i x → input_ok σ' P slots i x.
Proof.
  intros He Hh. destruct x; simpl; try done.
  intros [H|H]; [left; by apply Hh|right].
  destruct (status_of σ ref) as [[v|e]|] eqn:Hs; [| |done].
  - by rewrite (ext_status _ _ _ _ He Hs).
  - rewrite (ext_status _ _ _ _ He Hs). destruct H as [e' H].
    exists e'. by eapply ext_status.
Qed.

Lemma then_ok_mono σ σ' P :
  ext σ σ' →
  (holds σ P (RThen (S P)) → holds σ' P (RThen (S P))) →
  then_ok σ P → then_ok σ' P.
Proof.
  intros He Hh [H|H]; [left; by apply Hh|right].
  destruct (status_of σ P) as [[v|e]|] eqn:Hs; [| |done].
  - rewrite (ext_status _ _ _ _ He Hs). destruct H as (l & res & -> & Hin).
    exists l, res. split; [done|]. by eapply ext_log.
  - rewrite (ext_status _ _ _ _ He Hs). by eapply ext_status.
Qed.

Lemma cell_ok_mono σ σ' P st inputs slots :
  ext σ σ' →
  (∀ r rc, holds σ r rc → holds σ' r rc) →
  cell_ok σ P st inputs slots → cell_ok σ' P st inputs slots.
Proof.
  intros He Hh (Ha & Hi & Hk & Ht). split; [by eapply all_ok_ext|].
  split; [|split].
  - intros i x Hx. eapply input_ok_mono; [done| |by apply Hi]. intros r. apply Hh.
  - by eapply ext_kind_then.
  - eapply then_ok_mono; [done| |done]. apply Hh.
Qed.

(** *** Reactions stay where they may be *)

Lemma legit_alloc c σ : tokens_legit σ → reactions c = [] → tokens_legit (alloc c σ).2.
Proof.
  intros [H1 H2] Hc. pose proof (ext_alloc c σ) as He. split.
  - intros r c' rc Hr Hin. simpl in Hr.
    apply lookup_app_Some in Hr as [Hr|[_ Hr]].
    + eapply ext_legit; [done|]. by eapply H1.
    + apply list_lookup_singleton_Some in Hr as [_ <-]. rewrite Hc in Hin.
      by apply elem_of_nil in Hin.
  - intros rc o Hq. destruct (H2 rc o Hq) as (r & Hl & Hs). exists r.
    split; [by eapply ext_legit|by eapply ext_status].
Qed.

Lemma legit_settle r o σ : tokens_legit σ → tokens_legit (settle r o σ).
Proof.
  intros [H1 H2]. pose proof (ext_settle r o σ) as He. split.
  - intros x c' rc Hx Hin.
    apply settle_lookup in Hx as [Hx|(-> & rs & k & Hr & ->)].
    + eapply ext_legit; [done|]. by eapply H1.
    + by apply elem_of_nil in Hin.
  - intros rc o' Hq.
    destruct (settle_cases r o σ) as [(rs & k & Hr & Heq)|[_ Heq]].
    + rewrite Heq in Hq. simpl in Hq. apply elem_of_app in Hq as [Hq|Hq].
      * destruct (H2 rc o' Hq) as (r' & Hl & Hs). exists r'.
        split; [by eapply ext_legit|by eapply ext_status].
      * apply list_elem_of_fmap in Hq as (rc' & [= -> ->] & Hin).
        exists r. split.
        -- eapply ext_legit; [done|]. by eapply (H1 r _ rc' Hr).
        -- rewrite Heq. unfold status_of. simpl.
           by rewrite (lookup_insert_cell _ _ _ _ _ Hr), decide_True.
    + rewrite Heq in Hq. destruct (H2 rc o' Hq) as (r' & Hl & Hs). exists r'.
      split; [by eapply ext_legit|by eapply ext_status].
Qed.

Lemma legit_subscribe r rc σ :
  tokens_legit σ → legit σ r rc → tokens_legit (subscribe r rc σ).
Proof.
  intros [H1 H2] Hnew. pose proof (ext_subscribe r rc σ) as He. split.
  - intros x c' rc' Hx Hin.
    apply subscribe_lookup in Hx as [Hx|(-> & rs & k & Hr & ->)].
    + eapply ext_legit; [done|]. by eapply H1.
    + simpl in Hin. apply elem_of_app in Hin as [Hin|Hin].
      * eapply ext_legit; [done|]. by eapply (H1 r _ rc' Hr).
      * apply list_elem_of_singleton in Hin as ->. by eapply ext_legit.
  - intros rc' o' Hq.
    destruct (subscribe_cases r rc σ)
      as [(rs & k & Hr & Heq)|[(o & rs & k & Hr & Heq)|[_ Heq]]].
    + rewrite Heq in Hq. simpl in Hq.
      destruct (H2 rc' o' Hq) as (r' & Hl & Hs). exists r'.
      split; [by eapply ext_legit|by eapply ext_status].
    + rewrite Heq in Hq. simpl in Hq. apply elem_of_app in Hq as [Hq|Hq].
      * destruct (H2 rc' o' Hq) as (r' & Hl & Hs). exists r'.
        split; [by eapply ext_legit|by eapply ext_status].
      * apply list_elem_of_singleton in Hq as [= -> ->]. exists r.
        split; [by eapply ext_legit|].
        eapply ext_status; [done|]. unfold status_of. by rewrite Hr.
    + rewrite Heq in Hq. destruct (H2 rc' o' Hq) as (r' & Hl & Hs). exists r'.
      split; [by eapply ext_legit|by eapply ext_status].
Qed.

(** A state with the same promises, fewer jobs and a longer log. *)
Lemma legit_sub σ σ' :
  tokens_legit σ → ext σ σ' →
  (∀ r c, heap σ' !! r = Some c → ∃ c0, heap σ !! r = Some c0
                                       ∧ reactions c = reactions c0) →
  (∀ j, j ∈ queue σ' → j ∈ queue σ) →
  tokens_legit σ'.
Proof.
  intros [H1 H2] He Hh Hq. split.
  - intros r c rc Hr Hin. destruct (Hh _ _ Hr) as (c0 & Hr0 & Hrs).
    rewrite Hrs in Hin. eapply ext_legit; [done|]. by eapply H1.
  - intros rc o Hin. destruct (H2 rc o (Hq _ Hin)) as (r & Hl & Hs).
    exists r. split; [by eapply ext_legit|by eapply ext_status].
Qed.

Lemma ext_set_kind σ P st rs inputs slots slots' :
  heap σ !! P = Some (Cell st rs (KAll inputs slots)) →
  ext σ (set_heap (<[P := Cell st rs (KAll inputs slots')]> (heap σ)) σ).
Proof.
  intros HP. split; [|exists []; simpl; by rewrite app_nil_r].
  intros x c Hx. simpl. rewrite (lookup_insert_cell _ _ _ _ _ HP).
  case_decide as Hd.
  - subst. rewrite HP in Hx. injection Hx as <-. eexists. split; [done|].
    by split.
  - exists c. split; [done|]. split; [apply kind_le_refl|done].
Qed.

Lemma ext_pop h j js i l : ext (State h (j :: js) i l) (State h js i l).
Proof.
  split; [|exists []; simpl; by rewrite app_nil_r].
  intros x c Hx. exists c. split; [done|]. split; [apply kind_le_refl|done].
Qed.

End Frames.

Section Observations.

Implicit Types (σ : state) (r p P : nat) (o : outcome) (rc : reaction)
  (c : cell) (f : reaction → nat).

Lemma kind_of_settle r o σ x : kind_of (settle r o σ) x = kind_of σ x.
Proof.
  unfold kind_of.
  destruct (settle_cases r o σ) as [(rs & k & Hr & ->)|[_ ->]]; [|done].
  simpl. rewrite (lookup_insert_cell _ _ _ _ _ Hr). case_decide; [|done].
  subst. by rewrite Hr.
Qed.

Lemma kind_of_subscribe r rc σ x : kind_of (subscribe r rc σ) x = kind_of σ x.
Proof.
  unfold kind_of.
  destruct (subscribe_cases r rc σ)
    as [(rs & k & Hr & ->)|[(o & rs & k & Hr & ->)|[_ ->]]]; try done.
  simpl. rewrite (lookup_insert_cell _ _ _ _ _ Hr). case_decide; [|done].
  subst. by rewrite Hr.
Qed.

Lemma kind_of_resolve p v σ x : kind_of (resolve p v σ) x = kind_of σ x.
Proof.
  unfold resolve. destruct v; cbn [thenable]; try destruct (has_then _); try done; try apply kind_of_settle.
  case_decide; [apply kind_of_settle|apply kind_of_subscribe].
Qed.

Lemma status_of_subscribe r rc σ x :
  status_of (subscribe r rc σ) x = status_of σ x.
Proof.
  unfold status_of.
  destruct (subscribe_cases r rc σ)
    as [(rs & k & Hr & ->)|[(o & rs & k & Hr & ->)|[_ ->]]]; try done.
  simpl. rewrite (lookup_insert_cell _ _ _ _ _ Hr). case_decide; [|done].
  subst. by rewrite Hr.
Qed.

Lemma status_of_settle_ne r o σ x :
  x ≠ r → status_of (settle r o σ) x = status_of σ x.
Proof.
  intros Hne. unfold status_of.
  destruct (settle_cases r o σ) as [(rs & k & Hr & ->)|[_ ->]]; [|done].
  simpl. by rewrite (lookup_insert_cell _ _ _ _ _ Hr), decide_False.
Qed.

(** Settling gives the outcome to a pending promise and leaves a settled
    one as it is. *)
Lemma status_of_settle_eq r o σ :
  r < length (heap σ) →
  status_of (settle r o σ) r =
    Some (match status_of σ r with Some o' => o' | None => o end).
Proof.
  intros Hlt. apply lookup_lt_is_Some in Hlt as [[st rs k] Hc].
  unfold status_of at 2. rewrite Hc. simpl.
  destruct (settle_cases r o σ) as [(rs' & k' & Hr & ->)|[Hn ->]].
  - unfold status_of. simpl.
    rewrite (lookup_insert_cell _ _ _ _ _ Hr), decide_True by done.
    rewrite Hc in Hr. by injection Hr as ->.
  - unfold status_of. rewrite Hc. simpl. destruct st; [done|].
    by destruct (Hn rs k).
Qed.

Lemma settled_settle_ne r o σ x :
  x ≠ r → settled (settle r o σ) x = settled σ x.
Proof. intros. unfold settled. by rewrite status_of_settle_ne. Qed.

Lemma settled_subscribe r rc σ x : settled (subscribe r rc σ) x = settled σ x.
Proof. unfold settled. by rewrite status_of_subscribe. Qed.

Lemma settled_le_1 σ x : settled σ x ≤ 1.
Proof. unfold settled. destruct (status_of σ x); lia. Qed.

Lemma kind_of_lt σ x k : kind_of σ x = Some k → x < length (heap σ).
Proof.
  unfold kind_of. destruct (heap σ !! x) eqn:Hx; [|done].
  intros _. by eapply lookup_lt_Some.
Qed.

Lemma status_of_lt σ x o : status_of σ x = Some o → x < length (heap σ).
Proof.
  unfold status_of. destruct (heap σ !! x) eqn:Hx; [|done].
  intros _. by eapply lookup_lt_Some.
Qed.

Lemma is_all_kind σ P inputs :
  is_all σ P inputs ↔ ∃ slots, kind_of σ P = Some (KAll inputs slots).
Proof.
  unfold is_all, kind_of. split.
  - intros (st & rs & slots & ->). by exists slots.
  - intros [slots H]. destruct (heap σ !! P) as [[st rs k]|]; [|done].
    injection H as ->. by exists st, rs, slots.
Qed.

(** [collect] succeeds exactly when every slot is filled. *)
Lemma collect_Some slots vs : collect slots = Some vs ↔ slots = Some <$> vs.
Proof.
  unfold collect. rewrite mapM_Some. split.
  - induction 1 as [|s v slots vs Hs _ IH]; [done|]. simpl. by rewrite Hs, IH.
  - intros ->. induction vs as [|v vs IH]; by constructor.
Qed.

Lemma collect_filled slots :
  (∀ i, i < length slots → ∃ v, slots !! i = Some (Some v)) →
  ∃ vs, collect slots = Some vs.
Proof.
  induction slots as [|s slots IH]; intros H; [by exists []|].
  destruct (H 0) as [v Hv]; [simpl; lia|]. injection Hv as ->.
  destruct IH as [vs Hvs].
  { intros i Hi. apply (H (S i)). simpl. lia. }
  exists (v :: vs). apply collect_Some. apply collect_Some in Hvs.
  by rewrite Hvs.
Qed.

Lemma count_app g (l1 l2 : list event) :
  count g (l1 ++ l2) = count g l1 + count g l2.
Proof. unfold count. by rewrite List.filter_app, length_app. Qed.

Lemma count_zero g (l : list event) :
  (∀ e, e ∈ l → g e = false) → count g l = 0.
Proof.
  unfold count. induction l as [|e l IH]; intros H; [done|]. simpl.
  rewrite (H e) by by left. apply IH. intros e' He'. apply H. by right.
Qed.

Lemma count_pos g (l : list event) :
  0 < count g l → ∃ e, e ∈ l ∧ g e = true.
Proof.
  unfold count. induction l as [|e l IH]; simpl; [lia|].
  destruct (g e) eqn:He.
  - intros _. exists e. split; [by left|done].
  - intros H. destruct (IH H) as (e' & Hin & He'). exists e'.
    split; [by right|done].
Qed.

End Observations.

Section Steps.

Implicit Types (σ : state) (r p P : nat) (o : outcome) (rc : reaction)
  (c : cell) (f : reaction → nat).

(** A [Promise.all] after a step that takes at most one job [rc0] off
    the queue, a job that carries the outcome [o0]. *)
Lemma cell_ok_step σ σ' P st st' inputs slots slots' rc0 o0 :
  ext σ σ' →
  (∀ r rc, holds σ r rc →
     holds σ' r rc ∨ (rc = rc0 ∧ status_of σ r = Some o0)) →
  cell_ok σ P st inputs slots →
  all_ok σ' st' inputs slots' →
  (∀ i v, slots !! i = Some (Some v) → slots' !! i = Some (Some v)) →
  (∀ i r, rc0 = RAll P i → inputs !! i = Some (VPromise r) →
     status_of σ r = Some o0 →
     match o0 with
     | Fulfilled v => slots' !! i = Some (Some v)
     | Rejected e => ∃ e', status_of σ' P = Some (Rejected e')
     end) →
  (rc0 = RThen (S P) → status_of σ P = Some o0 →
     match o0 with
     | Rejected e => status_of σ' (S P) = Some (Rejected e)
     | Fulfilled x => ∃ l res, x = VArray l ∧ EInstantiate (S P) l res ∈ log σ'
     end) →
  cell_ok σ' P st' inputs slots'.
Proof.
  intros He Hh (Ha & Hi & Hk & Ht) Ha' Hsl Hin Hth.
  split; [done|]. split; [|split].
  - intros i x Hx. specialize (Hi i x Hx). destruct x; simpl in *; try by apply Hsl.
    destruct Hi as [Hi|Hi].
    + destruct (Hh _ _ Hi) as [?|[<- Hs]]; [by left|right].
      specialize (Hin i ref eq_refl Hx Hs).
      rewrite (ext_status _ _ _ _ He Hs). by destruct o0.
    + right. destruct (status_of σ ref) as [[v|e]|] eqn:Hs; [| |done].
      * rewrite (ext_status _ _ _ _ He Hs). by apply Hsl.
      * rewrite (ext_status _ _ _ _ He Hs). destruct Hi as [e' Hi].
        exists e'. by eapply ext_status.
  - by eapply ext_kind_then.
  - destruct Ht as [Ht|Ht].
    + destruct (Hh _ _ Ht) as [?|[<- Hs]]; [by left|right].
      specialize (Hth eq_refl Hs).
      rewrite (ext_status _ _ _ _ He Hs). by destruct o0.
    + right. destruct (status_of σ P) as [[v|e]|] eqn:Hs; [| |done].
      * rewrite (ext_status _ _ _ _ He Hs). destruct Ht as (l & res & -> & Hl).
        exists l, res. split; [done|]. by eapply ext_log.
      * rewrite (ext_status _ _ _ _ He Hs). by eapply ext_status.
Qed.

Lemma Inv_init : Inv init.
Proof.
  split.
  - split; [intros r c rc Hr|intros rc o Hq]; [done|by apply elem_of_nil in Hq].
  - intros P st rs inputs slots HP. done.
  - intros p Hp. done.
  - intros p. unfold tokens, count. simpl. lia.
  - intros p l res H. by apply elem_of_nil in H.
Qed.

(** The log part of the invariant in a later state with the same log. *)
Lemma inv_log_ext σ σ' :
  Inv σ → ext σ σ' → log σ' = log σ →
  ∀ p l res, EInstantiate p l res ∈ log σ' →
    kind_of σ' p = Some KThen
    ∧ ∃ P inputs, p = S P ∧ is_all σ' P inputs
                  ∧ status_of σ' P = Some (Fulfilled (VArray l)).
Proof.
  intros HI He Hl p l res Hin. rewrite Hl in Hin.
  destruct (inv_log _ HI p l res Hin) as (Hk & P & inputs & -> & Ha & Hs).
  split; [by eapply ext_kind_then|]. exists P, inputs. split; [done|].
  split; [by eapply ext_is_all|by eapply ext_status].
Qed.

(** No reaction targets a promise that does not exist yet. *)
Lemma tokens_fresh σ p f :
  tokens_legit σ → length (heap σ) ≤ p →
  (∀ rc, f rc ≠ 0 → rc = RThen p ∨ rc = RFollow p) →
  tokens f σ = 0.
Proof.
  intros [H1 H2] Hp Hf.
  assert (∀ r rc, legit σ r rc → f rc = 0) as Hz.
  { intros r rc Hl. destruct (decide (f rc = 0)) as [|Hne]; [done|].
    destruct (Hf rc Hne) as [->| ->]; simpl in Hl.
    - destruct Hl as (_ & _ & Hk). apply kind_of_lt in Hk. lia.
    - apply kind_of_lt in Hl. lia. }
  apply tokens_zero.
  - intros r c rc Hr Hin. eapply Hz. by eapply H1.
  - intros rc o Hq. destruct (H2 rc o Hq) as (r & Hl & _). by eapply Hz.
Qed.

Lemma settles_then_or_follow p rc :
  settles p rc ≠ 0 → rc = RThen p ∨ rc = RFollow p.
Proof.
  destruct rc as [? ?|q|q]; simpl; [done| |]; case_decide; subst; auto; done.
Qed.

Lemma then_of_then_or_follow p rc :
  then_of p rc ≠ 0 → rc = RThen p ∨ rc = RFollow p.
Proof. unfold then_of. case_decide; [by left|done]. Qed.

(** The container makes a promise. *)
Lemma Inv_new σ : Inv σ → Inv (alloc (Cell None [] KExternal) σ).2.
Proof.
  intros HI. pose proof (ext_alloc (Cell None [] KExternal) σ) as He. split.
  - by apply legit_alloc; [apply HI|].
  - intros P st rs inputs slots HP. simpl in HP.
    apply lookup_app_Some in HP as [HP|[_ HP]].
    + eapply cell_ok_mono; [done| |by eapply inv_all].
      intros r rc. apply holds_alloc.
    + by apply list_lookup_singleton_Some in HP as [_ ?].
  - intros p Hp.
    assert (kind_of σ p = Some KThen) as Hk.
    { unfold kind_of in *. simpl in Hp.
      destruct (heap σ !! p) as [c|] eqn:Hc.
      - by rewrite (lookup_app_l_Some _ _ _ _ Hc) in Hp.
      - destruct ((heap σ ++ [Cell None [] KExternal]) !! p) as [c'|] eqn:Hc'; [|done].
        apply lookup_app_Some in Hc' as [?|[_ Hc']]; [congruence|].
        apply list_lookup_singleton_Some in Hc' as [_ <-]. done. }
    pose proof (inv_settles _ HI p Hk) as H.
    assert (settled (alloc (Cell None [] KExternal) σ).2 p = settled σ p) as Hs.
    { unfold settled, status_of. simpl. apply kind_of_lt in Hk.
      by rewrite lookup_app_l. }
    rewrite tokens_alloc, Hs. simpl. lia.
  - intros p. rewrite tokens_alloc. simpl. pose proof (inv_once _ HI p). lia.
  - by apply (inv_log_ext σ).
Qed.

(** The container settles one of its promises. *)
Lemma Inv_settle_external σ r o rs :
  Inv σ → heap σ !! r = Some (Cell None rs KExternal) → Inv (settle r o σ).
Proof.
  intros HI Hr. pose proof (ext_settle r o σ) as He.
  assert (kind_of σ r = Some KExternal) as Hkr by (unfold kind_of; by rewrite Hr).
  split.
  - apply legit_settle, HI.
  - intros P st rs' inputs slots HP.
    apply settle_lookup in HP as [HP|(-> & rs0 & k & Hr0 & Heq)].
    + eapply cell_ok_mono; [done| |by eapply inv_all].
      intros r' rc. apply holds_settle.
    + injection Heq as _ _ <-. congruence.
  - intros p Hp. rewrite kind_of_settle in Hp. rewrite tokens_settle.
    rewrite settled_settle_ne by congruence. by apply inv_settles.
  - intros p. rewrite tokens_settle, settle_log. apply HI.
  - apply (inv_log_ext σ); [done..|apply settle_log].
Qed.

End Steps.

Section Jobs.

Implicit Types (σ : state) (r p P : nat) (o : outcome) (rc : reaction)
  (c : cell) (f : reaction → nat).

Lemma all_ok_not_fulfilled σ x inputs slots i r e :
  all_ok σ (Some (Fulfilled x)) inputs slots →
  inputs !! i = Some (VPromise r) →
  status_of σ r = Some (Rejected e) → False.
Proof.
  intros (Hlen & Hsl & vs & -> & ->) Hi Hr.
  rewrite length_fmap in Hlen.
  assert (is_Some (vs !! i)) as [v Hv].
  { apply lookup_lt_is_Some. rewrite Hlen. by eapply lookup_lt_Some. }
  destruct (Hsl i v) as (x & Hx & Hres).
  { by rewrite list_lookup_fmap, Hv. }
  rewrite Hi in Hx. injection Hx as <-. simpl in Hres. congruence.
Qed.

Lemma is_all_lookup σ P inputs st rs inputs' slots :
  is_all σ P inputs →
  heap σ !! P = Some (Cell st rs (KAll inputs' slots)) → inputs' = inputs.
Proof. intros (? & ? & ? & H) H'. congruence. Qed.

Lemma is_all_not_then σ P inputs : is_all σ P inputs → kind_of σ P ≠ Some KThen.
Proof. intros (? & ? & ? & H). unfold kind_of. by rewrite H. Qed.

(** What the head of the queue says. *)
Lemma queue_head_legit h rc o js i l :
  Inv (State h ((rc, o) :: js) i l) →
  ∃ r, legit (State h js i l) r rc ∧ status_of (State h js i l) r = Some o.
Proof.
  intros HI. destruct (inv_legit _ HI) as [_ H2].
  destruct (H2 rc o) as (r & Hl & Hs); [by left|].
  exists r. split; [|done]. eapply ext_legit; [apply ext_pop|done].
Qed.

Lemma legit_pop h j js i l :
  tokens_legit (State h (j :: js) i l) → tokens_legit (State h js i l).
Proof.
  intros H. eapply legit_sub; [done|apply ext_pop| |].
  - intros r c Hr. by exists c.
  - intros j' Hj'. by right.
Qed.

Lemma holds_pop_settle h rc0 o0 js i l Q o r rc :
  holds (State h ((rc0, o0) :: js) i l) r rc →
  holds (settle Q o (State h js i l)) r rc
  ∨ (rc = rc0 ∧ status_of (State h ((rc0, o0) :: js) i l) r = Some o0).
Proof.
  intros H. apply holds_pop in H as [H|[<- H]]; [left|by right].
  by apply holds_settle.
Qed.

(** An element of a [Promise.all] was rejected: so is the result, unless
    it is settled already. *)
Lemma Inv_job_all_rejected h P i0 e js i l :
  Inv (State h ((RAll P i0, Rejected e) :: js) i l) →
  Inv (settle P (Rejected e) (State h js i l)).
Proof.
  intros HI.
  destruct (queue_head_legit _ _ _ _ _ _ HI) as (r & (inputs & Ha & Hi0) & Hr).
  set (σ := State h ((RAll P i0, Rejected e) :: js) i l) in *.
  set (σ1 := State h js i l) in *.
  assert (ext σ (settle P (Rejected e) σ1)) as He
    by (eapply ext_trans; [apply ext_pop|apply ext_settle]).
  split.
  - apply legit_settle, (legit_pop _ _ _ _ _ (inv_legit _ HI)).
  - intros P' st' rs' inputs' slots' HP.
    assert (status_of (settle P (Rejected e) σ1) P' = st') as Hst'
      by (unfold status_of; by rewrite HP).
    assert (∃ st rs, heap σ !! P' = Some (Cell st rs (KAll inputs' slots'))
              ∧ (st = st' ∨ (P' = P ∧ st = None ∧ st' = Some (Rejected e))))
      as (st & rs & HP0 & Hst).
    { apply settle_lookup in HP as [HP|(-> & rs0 & k & Hr0 & Heq)].
      - exists st', rs'. split; [done|by left].
      - injection Heq as -> -> <-. exists None, rs0. split; [done|]. by right. }
    pose proof (inv_all _ HI _ _ _ _ _ HP0) as Hc.
    eapply (cell_ok_step σ _ P' st st' inputs' slots' slots'
              (RAll P i0) (Rejected e)); try done.
    + apply holds_pop_settle.
    + destruct Hst as [<-|(-> & -> & ->)].
      * eapply all_ok_ext; [done|apply Hc].
      * destruct Hc as ((Hlen & Hsl & _) & _). split; [done|]. split.
        -- intros j v Hj. destruct (Hsl j v Hj) as (x & Hx & Hres).
           exists x. split; [done|]. by eapply ext_resolved.
        -- exists i0, r. rewrite (is_all_lookup _ _ _ _ _ _ _ Ha HP0).
           split; [done|]. eapply ext_status; [apply ext_settle|done].
    + intros j r' [= -> ->] Hj Hr'. rewrite Hst'.
      destruct Hst as [<-|(_ & _ & ->)]; [|by eexists].
      destruct st as [[x|e']|].
      * destruct Hc as (Hc & _). destruct (all_ok_not_fulfilled _ _ _ _ _ _ _ Hc Hj Hr').
      * by eexists.
      * rewrite status_of_settle_eq in Hst' by by eapply lookup_lt_Some.
        done.
  - intros p Hp. rewrite kind_of_settle in Hp. rewrite tokens_settle.
    rewrite settled_settle_ne.
    + pose proof (inv_settles _ HI p Hp) as H.
      unfold σ in H. rewrite tokens_pop in H. simpl in H. apply H.
    + intros ->. by eapply (is_all_not_then σ1 P).
  - intros p. rewrite tokens_settle, settle_log.
    pose proof (inv_once _ HI p) as H.
    unfold σ in H. rewrite tokens_pop in H. simpl in H. apply H.
  - apply (inv_log_ext σ); [done..|exact (settle_log _ _ σ1)].
Qed.

End Jobs.

Section JobFill.

Implicit Types (σ : state) (r p P : nat) (o : outcome) (rc : reaction)
  (c : cell) (f : reaction → nat).

Lemma fill_cell P i0 v σ st rs inputs slots :
  heap σ !! P = Some (Cell st rs (KAll inputs slots)) →
  ∃ st' rs',
    heap (fill P i0 v σ) !! P
      = Some (Cell st' rs' (KAll inputs (<[i0 := Some v]> slots)))
    ∧ ((st' = st ∧ (st = None → collect (<[i0 := Some v]> slots) = None))
       ∨ (st = None ∧ ∃ vs, collect (<[i0 := Some v]> slots) = Some vs
                            ∧ st' = Some (Fulfilled (VArray vs)))).
Proof.
  intros HP. unfold fill. rewrite HP.
  set (slots' := <[i0 := Some v]> slots).
  set (σ1 := set_heap (<[P := Cell st rs (KAll inputs slots')]> (heap σ)) σ).
  assert (heap σ1 !! P = Some (Cell st rs (KAll inputs slots'))) as H1.
  { simpl. by rewrite (lookup_insert_cell _ _ _ _ _ HP), decide_True. }
  destruct (collect slots') as [vs|] eqn:Hc.
  - destruct (settle_cases P (Fulfilled (VArray vs)) σ1)
      as [(rs0 & k & Hr & ->)|[Hn ->]].
    + rewrite H1 in Hr. injection Hr as -> <- <-. simpl.
      rewrite list_lookup_insert_eq
        by (rewrite length_insert; by eapply lookup_lt_Some).
      eexists _, _. split; [done|]. right. split; [done|]. by exists vs.
    + exists st, rs. split; [done|]. left. split; [done|]. intros ->.
      by destruct (Hn rs (KAll inputs slots')).
  - exists st, rs. split; [done|]. by left.
Qed.

Lemma fill_other P i0 v σ x : x ≠ P → heap (fill P i0 v σ) !! x = heap σ !! x.
Proof.
  intros Hne. unfold fill.
  destruct (heap σ !! P) as [[st rs [|inputs slots|]]|] eqn:HP; try done.
  set (slots' := <[i0 := Some v]> slots).
  set (σ1 := set_heap (<[P := Cell st rs (KAll inputs slots')]> (heap σ)) σ).
  assert (heap σ1 !! x = heap σ !! x) as H1.
  { simpl. by rewrite (lookup_insert_cell _ _ _ _ _ HP), decide_False. }
  destruct (collect slots') as [vs|]; [|done].
  destruct (settle_cases P (Fulfilled (VArray vs)) σ1)
    as [(rs0 & k & Hr & ->)|[Hn ->]]; [|done].
  simpl. by rewrite !list_lookup_insert_ne by done.
Qed.

Lemma fill_log P i0 v σ : log (fill P i0 v σ) = log σ.
Proof.
  unfold fill.
  destruct (heap σ !! P) as [[st rs [|inputs slots|]]|]; try done.
  destruct (collect _); [by rewrite settle_log|done].
Qed.

Lemma fill_instance P i0 v σ : _instance (fill P i0 v σ) = _instance σ.
Proof.
  unfold fill.
  destruct (heap σ !! P) as [[st rs [|inputs slots|]]|]; try done.
  destruct (collect _); [by rewrite settle_instance|done].
Qed.

Lemma ext_fill P i0 v σ : ext σ (fill P i0 v σ).
Proof.
  unfold fill.
  destruct (heap σ !! P) as [[st rs [|inputs slots|]]|] eqn:HP;
    try apply ext_refl.
  destruct (collect _).
  - eapply ext_trans; [by eapply ext_set_kind|apply ext_settle].
  - by eapply ext_set_kind.
Qed.

Lemma holds_fill P i0 v σ r rc : holds σ r rc → holds (fill P i0 v σ) r rc.
Proof.
  intros H. unfold fill.
  destruct (heap σ !! P) as [[st rs [|inputs slots|]]|] eqn:HP; try done.
  destruct (collect _).
  - apply holds_settle. by eapply holds_set_kind.
  - by eapply holds_set_kind.
Qed.

Lemma tokens_fill f P i0 v σ : tokens f (fill P i0 v σ) = tokens f σ.
Proof.
  unfold fill.
  destruct (heap σ !! P) as [[st rs [|inputs slots|]]|] eqn:HP; try done.
  destruct (collect _).
  - rewrite tokens_settle. by eapply tokens_set_kind.
  - by eapply tokens_set_kind.
Qed.

Lemma legit_fill P i0 v σ : tokens_legit σ → tokens_legit (fill P i0 v σ).
Proof.
  intros H. unfold fill.
  destruct (heap σ !! P) as [[st rs [|inputs slots|]]|] eqn:HP; try done.
  set (slots' := <[i0 := Some v]> slots).
  assert (tokens_legit
            (set_heap (<[P := Cell st rs (KAll inputs slots')]> (heap σ)) σ)).
  { eapply legit_sub; [done|by eapply ext_set_kind| |done].
    intros x c. simpl. rewrite (lookup_insert_cell _ _ _ _ _ HP).
    case_decide as Hd.
    * intros [= <-]. subst. by eexists.
    * intros Hx. by exists c. }
  destruct (collect _); [by apply legit_settle|done].
Qed.

Lemma fill_status_other P i0 v σ x :
  x ≠ P → status_of (fill P i0 v σ) x = status_of σ x.
Proof. intros. unfold status_of. by rewrite fill_other. Qed.

Lemma fill_kind_then P i0 v σ x :
  kind_of (fill P i0 v σ) x = Some KThen → kind_of σ x = Some KThen.
Proof.
  destruct (decide (x = P)) as [->|Hne].
  - unfold kind_of. destruct (heap σ !! P) as [[st rs k]|] eqn:HP.
    + destruct k as [|inputs slots|].
      * unfold fill. rewrite HP. by rewrite HP.
      * destruct (fill_cell P i0 v σ _ _ _ _ HP) as (st' & rs' & -> & _). done.
      * unfold fill. rewrite HP. by rewrite HP.
    + unfold fill. rewrite HP. by rewrite HP.
  - unfold kind_of. by rewrite fill_other.
Qed.

End JobFill.

Section JobFill2.

Implicit Types (σ : state) (r p P : nat) (o : outcome) (rc : reaction)
  (c : cell) (f : reaction → nat).

(** An element of a [Promise.all] was fulfilled: its value goes to its
    slot. *)
Lemma Inv_job_all_fulfilled h P i0 v js i l :
  Inv (State h ((RAll P i0, Fulfilled v) :: js) i l) →
  Inv (fill P i0 v (State h js i l)).
Proof.
  intros HI.
  destruct (queue_head_legit _ _ _ _ _ _ HI) as (r & (inputs & Ha & Hi0) & Hr).
  set (σ := State h ((RAll P i0, Fulfilled v) :: js) i l) in *.
  set (σ1 := State h js i l) in *.
  assert (ext σ (fill P i0 v σ1)) as He
    by (eapply ext_trans; [apply ext_pop|apply ext_fill]).
  destruct Ha as (st & rs & slots & HP).
  pose proof (inv_all _ HI _ _ _ _ _ HP) as Hc.
  assert (∀ w, slots !! i0 = Some (Some w) → w = v) as Hagree.
  { intros w Hw. destruct Hc as ((_ & Hsl & _) & _).
    destruct (Hsl i0 w Hw) as (x & Hx & Hres).
    rewrite Hi0 in Hx. injection Hx as <-. simpl in Hres.
    change (status_of σ r) with (status_of σ1 r) in Hres. congruence. }
  assert (i0 < length slots) as Hlt.
  { destruct Hc as ((Hlen & _) & _). rewrite Hlen. by eapply lookup_lt_Some. }
  assert (∀ j w, slots !! j = Some (Some w) →
            <[i0 := Some v]> slots !! j = Some (Some w)) as Hmono.
  { intros j w Hj. destruct (decide (j = i0)) as [->|Hne].
    - rewrite (Hagree w Hj). by apply list_lookup_insert_eq.
    - by rewrite list_lookup_insert_ne. }
  split.
  - apply legit_fill, (legit_pop _ _ _ _ _ (inv_legit _ HI)).
  - intros P' st' rs' inputs' slots' HP'.
    destruct (decide (P' = P)) as [->|Hne].
    + destruct (fill_cell P i0 v σ1 _ _ _ _ HP) as (st2 & rs2 & HP2 & Hst).
      rewrite HP2 in HP'. injection HP' as <- <- <- <-.
      eapply (cell_ok_step σ _ P st st2 inputs slots _
                (RAll P i0) (Fulfilled v)); try done.
      * intros r' rc H. apply holds_pop in H as [H|[<- H]]; [left|by right].
        by apply holds_fill.
      * destruct Hc as ((Hlen & Hsl & Hcase) & _). split; [|split].
        -- by rewrite length_insert.
        -- intros j w Hj. destruct (decide (j = i0)) as [->|Hnej].
           ++ rewrite list_lookup_insert_eq in Hj by done.
              injection Hj as <-. exists (VPromise r). split; [done|].
              simpl. eapply ext_status; [apply ext_fill|done].
           ++ rewrite list_lookup_insert_ne in Hj by done.
              destruct (Hsl j w Hj) as (x & Hx & Hres). exists x.
              split; [done|]. by eapply ext_resolved.
        -- destruct Hst as [[-> Hn]|(-> & vs & Hvs & ->)].
           ++ destruct st as [[x|e]|].
              ** destruct Hcase as (vs & -> & Hvs). exists vs. split; [done|].
                 rewrite list_insert_id; [done|].
                 destruct (lookup_lt_is_Some_2 _ _ Hlt) as [[w|] Hw].
                 --- by rewrite Hw, (Hagree w Hw).
                 --- rewrite Hvs, list_lookup_fmap in Hw.
                     by destruct (vs !! i0).
              ** destruct Hcase as (j & r' & Hj & Hr'). exists j, r'.
                 split; [done|]. by eapply ext_status.
              ** by apply Hn.
           ++ exists vs. split; [done|]. by apply collect_Some.
      * intros j r' [= ->] Hj Hr'. by apply list_lookup_insert_eq.
    + rewrite fill_other in HP' by done.
      pose proof (inv_all _ HI _ _ _ _ _ HP') as Hc'.
      eapply (cell_ok_step σ _ P' st' st' inputs' slots' slots'
                (RAll P i0) (Fulfilled v)); try done.
      * intros r' rc H. apply holds_pop in H as [H|[<- H]]; [left|by right].
        by apply holds_fill.
      * eapply all_ok_ext; [done|apply Hc'].
      * intros j r' [= -> ->]. done.
  - intros p Hp. apply fill_kind_then in Hp. rewrite tokens_fill.
    assert (p ≠ P) as Hne.
    { intros ->. apply (is_all_not_then σ1 P inputs); [|done].
      by exists st, rs, slots. }
    unfold settled. rewrite fill_status_other by done.
    pose proof (inv_settles _ HI p Hp) as H.
    unfold σ in H. rewrite tokens_pop in H. simpl in H. apply H.
  - intros p. rewrite tokens_fill, fill_log.
    pose proof (inv_once _ HI p) as H.
    unfold σ in H. rewrite tokens_pop in H. simpl in H. apply H.
  - apply (inv_log_ext σ); [done..|exact (fill_log _ _ _ σ1)].
Qed.

End JobFill2.

Section JobThen.

Implicit Types (σ : state) (r p P : nat) (o : outcome) (rc : reaction)
  (c : cell) (f : reaction → nat).

Lemma settle_lookup_other p o σ x c' :
  heap (settle p o σ) !! x = Some c' → x ≠ p → heap σ !! x = Some c'.
Proof. intros H Hne. by apply settle_lookup in H as [H|[-> _]]. Qed.

Lemma subscribe_lookup_weak r rc σ x st' rs' k' :
  heap (subscribe r rc σ) !! x = Some (Cell st' rs' k') →
  ∃ rs0, heap σ !! x = Some (Cell st' rs0 k').
Proof.
  intros H. apply subscribe_lookup in H as [H|(-> & rs & k & Hr & [= -> -> ->])].
  - by exists rs'.
  - by exists rs.
Qed.

Lemma resolve_lookup p v σ x st' rs' k' :
  heap (resolve p v σ) !! x = Some (Cell st' rs' k') → x ≠ p →
  ∃ rs0, heap σ !! x = Some (Cell st' rs0 k').
Proof.
  intros H Hne. unfold resolve in H.
  destruct v; cbn [thenable] in H; try destruct (has_then _);
    try (by exists rs'); try (exists rs'; by eapply settle_lookup_other).
  case_decide.
  - exists rs'. by eapply settle_lookup_other.
  - by eapply subscribe_lookup_weak.
Qed.

Lemma legit_resolve p v σ :
  tokens_legit σ → kind_of σ p = Some KThen → tokens_legit (resolve p v σ).
Proof.
  intros H Hk. unfold resolve. destruct v; cbn [thenable]; try destruct (has_then _); try done; try by apply legit_settle.
  case_decide; [by apply legit_settle|by apply legit_subscribe].
Qed.

Lemma status_of_resolve_ne p v σ x :
  x ≠ p → status_of (resolve p v σ) x = status_of σ x.
Proof.
  intros Hne. unfold resolve. destruct v; cbn [thenable]; try destruct (has_then _); try done; try by apply status_of_settle_ne.
  case_decide; [by apply status_of_settle_ne|apply status_of_subscribe].
Qed.

(** Resolving a pending promise that nobody else settles: afterwards it
    is settled, or a single follower is registered for it. *)
Lemma resolve_settles p v σ :
  tokens (settles p) σ = 0 → settled σ p = 0 →
  tokens (settles p) (resolve p v σ) + settled (resolve p v σ) p ≤ 1.
Proof.
  intros H0 Hs0. unfold resolve.
  assert (∀ o, tokens (settles p) (settle p o σ) + settled (settle p o σ) p ≤ 1).
  { intros o. rewrite tokens_settle, H0. apply settled_le_1. }
  destruct v; cbn [thenable]; try destruct (has_then _); try done;
    try (rewrite H0, Hs0; lia).
  case_decide as Hq; [done|].
  pose proof (tokens_subscribe (settles p) ref (RFollow p) σ) as Ht.
  simpl in Ht. rewrite decide_True in Ht by done.
  rewrite settled_subscribe. lia.
Qed.

End JobThen.

Section JobThen2.

Implicit Types (σ : state) (r p P : nat) (o : outcome) (rc : reaction)
  (c : cell) (f : reaction → nat).

(** The jobs that end in the promise [p] of a continuation: after the
    job [(rc0, o0)] is taken off the queue and the events [es] are
    logged, [p] is settled or resolved. *)
Lemma Inv_finish h rc0 o0 js i l p σ2 σ' :
  Inv (State h ((rc0, o0) :: js) i l) →
  rc0 = RThen p ∨ rc0 = RFollow p →
  heap σ2 = h → queue σ2 = js →
  (∃ es, log σ2 = l ++ es
     ∧ (∀ p', count (invoked_by p') es ≤ then_of p' rc0)
     ∧ (∀ p' l' res, EInstantiate p' l' res ∈ es →
          p' = p ∧ rc0 = RThen p ∧ o0 = Fulfilled (VArray l'))) →
  (∃ o, σ' = settle p o σ2) ∨ (∃ v, σ' = resolve p v σ2) →
  (rc0 = RThen p →
     match o0 with
     | Rejected e => σ' = settle p (Rejected e) σ2
     | Fulfilled x => ∃ l' res, x = VArray l' ∧ EInstantiate p l' res ∈ log σ2
     end) →
  Inv σ'.
Proof.
  intros HI Hrc Hh Hq (es & Hlog & Hcount & Hnew) Hop Hthen.
  set (σ := State h ((rc0, o0) :: js) i l) in *.
  destruct (queue_head_legit _ _ _ _ _ _ HI) as (r0 & Hl0 & Hr0).
  assert (kind_of σ p = Some KThen) as Hkp.
  { destruct Hrc as [-> | ->]; simpl in Hl0; [apply Hl0|done]. }
  assert (ext σ σ2) as He2.
  { split; [|by exists es].
    intros x c Hx. exists c. rewrite Hh. split; [done|].
    split; [apply kind_le_refl|done]. }
  assert (ext σ2 σ') as He2'.
  { destruct Hop as [[o ->]|[v ->]]; [apply ext_settle|apply ext_resolve]. }
  assert (ext σ σ') as He by by eapply ext_trans.
  assert (∀ r rc, holds σ r rc →
            holds σ' r rc ∨ (rc = rc0 ∧ status_of σ r = Some o0)) as Hholds.
  { intros r rc H. apply holds_pop in H as [H|[<- H]]; [left|by right].
    assert (holds σ2 r rc) as H2 by (eapply holds_eq; [| |exact H]; done).
    destruct Hop as [[o ->]|[v ->]]; [by apply holds_settle|by apply holds_resolve]. }
  assert (tokens (settles p) σ2 = 0 ∧ settled σ2 p = 0) as [Ht0 Hs0].
  { pose proof (inv_settles _ HI p Hkp) as H. unfold σ in H.
    rewrite tokens_pop in H. simpl in H.
    assert (settles p rc0 = 1) as Hone.
    { destruct Hrc as [-> | ->]; simpl; by rewrite decide_True. }
    assert (tokens (settles p) σ2 = tokens (settles p) (State h js i l)) as ->
      by by apply tokens_eq.
    assert (settled σ2 p = settled σ p) as ->
      by (unfold settled, status_of; by rewrite Hh).
    unfold σ. lia. }
  assert (tokens_legit σ2) as Hl2.
  { eapply legit_sub; [apply (inv_legit _ HI)|done| |].
    - intros r c Hr. rewrite Hh in Hr. by exists c.
    - intros j Hj. rewrite Hq in Hj. by right. }
  assert (∀ x, x ≠ p → status_of σ' x = status_of σ x) as Hst.
  { intros x Hne.
    assert (status_of σ2 x = status_of σ x) as <-
      by (unfold status_of; by rewrite Hh).
    destruct Hop as [[o ->]|[v ->]];
      [by apply status_of_settle_ne|by apply status_of_resolve_ne]. }
  assert (∀ x, kind_of σ' x = kind_of σ x) as Hkind.
  { intros x.
    assert (kind_of σ2 x = kind_of σ x) as <-
      by (unfold kind_of; by rewrite Hh).
    destruct Hop as [[o ->]|[v ->]];
      [by apply kind_of_settle|by apply kind_of_resolve]. }
  split.
  - destruct Hop as [[o ->]|[v ->]]; [by apply legit_settle|].
    apply legit_resolve; [done|]. by eapply ext_kind_then.
  - intros P' st' rs' inputs' slots' HP'.
    assert (P' ≠ p) as Hne.
    { intros ->. specialize (Hkind p). unfold kind_of in Hkind at 1.
      rewrite HP' in Hkind. simpl in Hkind. congruence. }
    assert (∃ rs0, heap σ !! P' = Some (Cell st' rs0 (KAll inputs' slots')))
      as [rs0 HP0].
    { change (heap σ) with h. rewrite <- Hh.
      destruct Hop as [[o ->]|[v ->]].
      - exists rs'. by eapply settle_lookup_other.
      - by eapply resolve_lookup. }
    pose proof (inv_all _ HI _ _ _ _ _ HP0) as Hc.
    eapply (cell_ok_step σ σ' P' st' st' inputs' slots' slots' rc0 o0);
      try done.
    + eapply all_ok_ext; [done|apply Hc].
    + intros j r ->. destruct Hrc; done.
    + intros -> HsP. assert (S P' = p) as <- by (destruct Hrc; congruence).
      specialize (Hthen eq_refl). destruct o0 as [x|e].
      * destruct Hthen as (l' & res & -> & Hin). exists l', res.
        split; [done|]. by apply (ext_log σ2 σ').
      * subst σ'. rewrite status_of_settle_eq.
        -- unfold settled in Hs0. by destruct (status_of σ2 (S P')).
        -- rewrite Hh. by eapply (kind_of_lt σ).
  - intros p' Hp'. rewrite Hkind in Hp'.
    destruct (decide (p' = p)) as [->|Hne].
    + destruct Hop as [[o ->]|[v ->]].
      * rewrite tokens_settle, Ht0. apply settled_le_1.
      * by apply resolve_settles.
    + assert (settled σ' p' = settled σ p') as ->
        by (unfold settled; by rewrite Hst).
      pose proof (inv_settles _ HI p' Hp') as H. unfold σ in H at 1.
      rewrite tokens_pop in H. simpl in H.
      assert (tokens (settles p') σ' ≤ tokens (settles p') (State h js i l)); [|lia].
      assert (tokens (settles p') σ2 = tokens (settles p') (State h js i l)) as <-
        by by apply tokens_eq.
      destruct Hop as [[o ->]|[v ->]]; [by rewrite tokens_settle|].
      pose proof (tokens_resolve (settles p') p v σ2) as Hr.
      simpl in Hr. rewrite decide_False in Hr by done. lia.
  - intros p'.
    assert (tokens (then_of p') σ' ≤ tokens (then_of p') (State h js i l)) as Ht.
    { assert (tokens (then_of p') σ2 = tokens (then_of p') (State h js i l)) as <-
        by by apply tokens_eq.
      destruct Hop as [[o ->]|[v ->]]; [by rewrite tokens_settle|].
      pose proof (tokens_resolve (then_of p') p v σ2) as Hr.
      unfold then_of in Hr at 3. rewrite decide_False in Hr by done. lia. }
    assert (log σ' = l ++ es) as ->.
    { rewrite <- Hlog. destruct Hop as [[o ->]|[v ->]];
        [apply settle_log|apply resolve_log]. }
    rewrite count_app. pose proof (inv_once _ HI p') as H. unfold σ in H.
    rewrite tokens_pop in H. simpl in H. specialize (Hcount p'). lia.
  - intros p' l' res Hin.
    assert (log σ' = l ++ es) as Hl'.
    { rewrite <- Hlog. destruct Hop as [[o ->]|[v ->]];
        [apply settle_log|apply resolve_log]. }
    rewrite Hl' in Hin. apply elem_of_app in Hin as [Hin|Hin].
    + destruct (inv_log _ HI p' l' res Hin) as (Hk & P & inputs & -> & Ha & Hs).
      split; [by eapply ext_kind_then|]. exists P, inputs. split; [done|].
      split; [by eapply ext_is_all|by eapply ext_status].
    + destruct (Hnew _ _ _ Hin) as (-> & -> & ->).
      split; [by rewrite Hkind|]. simpl in Hl0.
      destruct Hl0 as (-> & [inputs Ha] & _). exists r0, inputs.
      split; [done|]. split.
      * apply (ext_is_all σ); [done|exact Ha].
      * rewrite Hst; [exact Hr0|]. lia.
Qed.

End JobThen2.

Section Loop.

Variable this : Spec.
Variable instantiate : nat → list value → result value.

Implicit Types (σ : state) (r p P : nat) (o : outcome) (rc : reaction)
  (c : cell) (f : reaction → nat).

(** The continuation on the array of a [Promise.all]. *)
Lemma continuation_array p vs σ :
  let res := instantiate (invocations (log σ)) vs in
  let σ' := (continuation this instantiate p (VArray vs) σ).2 in
  (continuation this instantiate p (VArray vs) σ).1 = res
  ∧ heap σ' = heap σ ∧ queue σ' = queue σ
  ∧ log σ' = log σ ++ EInstantiate p vs res
               :: match res with Ok i => [EEmit i] | Throw _ => [] end
  ∧ _instance σ' = match res with
                   | Ok i => if truthy (singleton this) then i else _instance σ
                   | Throw _ => _instance σ
                   end.
Proof.
  unfold continuation. simpl.
  destruct (instantiate (invocations (log σ)) vs) as [i|e]; simpl.
  - destruct (truthy (singleton this)); simpl; by rewrite <- app_assoc.
  - done.
Qed.

Lemma count_invoked_single p p' vs res es :
  (∀ e, e ∈ es → invoked_by p' e = false) →
  count (invoked_by p') (EInstantiate p vs res :: es) ≤ then_of p' (RThen p).
Proof.
  intros Hes. unfold count. simpl. unfold then_of.
  pose proof (count_zero (invoked_by p') es Hes) as Hz. unfold count in Hz.
  destruct (bool_decide_reflect (p = p')) as [->|Hne].
  - rewrite decide_True by done. simpl. lia.
  - rewrite decide_False by congruence. lia.
Qed.

(** The event loop keeps the invariant. *)
Lemma Inv_run_job h j js i l :
  Inv (State h (j :: js) i l) →
  Inv (run_job this instantiate j (State h js i l)).
Proof.
  intros HI. destruct j as [[P i0|p|p] o].
  - destruct o as [v|e]; simpl.
    + by apply (Inv_job_all_fulfilled h P i0 v js i l).
    + by apply (Inv_job_all_rejected h P i0 e js i l).
  - destruct o as [args|e].
    + (* the continuation runs *)
      destruct (queue_head_legit _ _ _ _ _ _ HI) as (P & (-> & [inputs Ha] & Hk) & HsP).
      destruct Ha as (st & rs & slots & HP).
      assert (∃ vs, args = VArray vs) as [vs ->].
      { destruct (inv_all _ HI _ _ _ _ _ HP) as ((_ & _ & Hst) & _).
        unfold status_of in HsP. simpl in HsP, HP. rewrite HP in HsP.
        simpl in HsP. subst st. destruct Hst as (vs & -> & _). by exists vs. }
      set (σ1 := State h js i l) in *.
      destruct (continuation_array (S P) vs σ1) as (Hres & Hh & Hq & Hlog & _).
      simpl. destruct (continuation this instantiate (S P) (VArray vs) σ1)
        as [res σ2] eqn:Hcont. simpl in Hres, Hh, Hq, Hlog.
      rewrite <- Hres in Hlog. clear Hres.
      eapply (Inv_finish h (RThen (S P)) (Fulfilled (VArray vs)) js i l (S P) σ2);
        [exact HI|by left|done|done| | |].
      * eexists. split; [exact Hlog|]. split.
        -- intros p'. apply count_invoked_single. intros e He.
           destruct res; [|by apply elem_of_nil in He].
           by apply list_elem_of_singleton in He as ->.
        -- intros p' l' res' Hin. apply elem_of_cons in Hin as [[= -> -> ->]|Hin];
             [done|].
           destruct res; [|by apply elem_of_nil in Hin].
           by apply list_elem_of_singleton in Hin.
      * destruct res as [v|e]; [right; by exists v|left; by eexists].
      * intros _. exists vs, res.
        split; [done|]. rewrite Hlog. apply elem_of_app. right. by left.
    + simpl. eapply (Inv_finish h (RThen p) (Rejected e) js i l p (State h js i l));
        [exact HI|by left|done|done| | |].
      * exists []. split; [simpl; by rewrite app_nil_r|]. split.
        -- intros p'. unfold count. simpl. lia.
        -- intros p' l' res Hin. by apply elem_of_nil in Hin.
      * left. by eexists.
      * done.
  - simpl. eapply (Inv_finish h (RFollow p) o js i l p (State h js i l));
      [exact HI|by right|done|done| | |].
    + exists []. split; [simpl; by rewrite app_nil_r|]. split.
      * intros p'. unfold count. simpl. lia.
      * intros p' l' res Hin. by apply elem_of_nil in Hin.
    + left. by eexists.
    + done.
Qed.

End Loop.

Section All.

Implicit Types (σ : state) (r p P : nat) (o : outcome) (rc : reaction)
  (c : cell) (f : reaction → nat) (l : list (nat * value)).

Lemma subscribe_lookup_ne r rc σ x :
  x ≠ r → heap (subscribe r rc σ) !! x = heap σ !! x.
Proof.
  intros Hne.
  destruct (subscribe_cases r rc σ)
    as [(rs & k & Hr & ->)|[(o & rs & k & Hr & ->)|[_ ->]]]; try done.
  simpl. by rewrite list_lookup_insert_ne.
Qed.

(** *** The subscriptions of [Promise.all] *)

Lemma subscribe_input_cases P σ iv :
  subscribe_input P σ iv = σ
  ∨ ∃ r, iv.2 = VPromise r ∧ subscribe_input P σ iv = subscribe r (RAll P iv.1) σ.
Proof.
  unfold subscribe_input. destruct iv as [i v]. simpl.
  destruct v; try by left. right. by eexists.
Qed.

Lemma ext_subscribe_inputs P l σ : ext σ (foldl (subscribe_input P) σ l).
Proof.
  revert σ. induction l as [|iv l IH]; intros σ; simpl; [apply ext_refl|].
  eapply ext_trans; [|apply IH].
  destruct (subscribe_input_cases P σ iv) as [->|(r & _ & ->)];
    [apply ext_refl|apply ext_subscribe].
Qed.

Lemma holds_subscribe_inputs P l σ r rc :
  holds σ r rc → holds (foldl (subscribe_input P) σ l) r rc.
Proof.
  revert σ. induction l as [|iv l IH]; intros σ H; simpl; [done|].
  apply IH. destruct (subscribe_input_cases P σ iv) as [->|(r' & _ & ->)];
    [done|by apply holds_subscribe].
Qed.

Lemma status_of_subscribe_inputs P l σ x :
  status_of (foldl (subscribe_input P) σ l) x = status_of σ x.
Proof.
  revert σ. induction l as [|iv l IH]; intros σ; simpl; [done|].
  rewrite IH. destruct (subscribe_input_cases P σ iv) as [->|(r' & _ & ->)];
    [done|apply status_of_subscribe].
Qed.

Lemma kind_of_subscribe_inputs P l σ x :
  kind_of (foldl (subscribe_input P) σ l) x = kind_of σ x.
Proof.
  revert σ. induction l as [|iv l IH]; intros σ; simpl; [done|].
  rewrite IH. destruct (subscribe_input_cases P σ iv) as [->|(r' & _ & ->)];
    [done|apply kind_of_subscribe].
Qed.

Lemma length_subscribe_inputs P l σ :
  length (heap (foldl (subscribe_input P) σ l)) = length (heap σ).
Proof.
  revert σ. induction l as [|iv l IH]; intros σ; simpl; [done|].
  rewrite IH. destruct (subscribe_input_cases P σ iv) as [->|(r' & _ & ->)];
    [done|apply subscribe_length].
Qed.

Lemma log_subscribe_inputs P l σ :
  log (foldl (subscribe_input P) σ l) = log σ.
Proof.
  revert σ. induction l as [|iv l IH]; intros σ; simpl; [done|].
  rewrite IH. destruct (subscribe_input_cases P σ iv) as [->|(r' & _ & ->)];
    [done|apply subscribe_log].
Qed.

Lemma instance_subscribe_inputs P l σ :
  _instance (foldl (subscribe_input P) σ l) = _instance σ.
Proof.
  revert σ. induction l as [|iv l IH]; intros σ; simpl; [done|].
  rewrite IH. destruct (subscribe_input_cases P σ iv) as [->|(r' & _ & ->)];
    [done|apply subscribe_instance].
Qed.

Lemma tokens_subscribe_inputs f P l σ :
  (∀ i, f (RAll P i) = 0) →
  tokens f (foldl (subscribe_input P) σ l) ≤ tokens f σ.
Proof.
  intros Hf. revert σ. induction l as [|iv l IH]; intros σ; simpl; [done|].
  etrans; [apply IH|].
  destruct (subscribe_input_cases P σ iv) as [->|(r' & _ & ->)]; [done|].
  pose proof (tokens_subscribe f r' (RAll P iv.1) σ). rewrite Hf in *. lia.
Qed.

Lemma lookup_subscribe_inputs P l σ x :
  (∀ i r, (i, VPromise r) ∈ l → r ≠ x) →
  heap (foldl (subscribe_input P) σ l) !! x = heap σ !! x.
Proof.
  revert σ. induction l as [|iv l IH]; intros σ Hl; simpl; [done|].
  rewrite IH by (intros i r Hin; apply (Hl i r); by right).
  destruct (subscribe_input_cases P σ iv) as [->|(r' & Hr' & ->)]; [done|].
  apply subscribe_lookup_ne. intros ->. apply (Hl iv.1 r'); [|done].
  destruct iv as [i v]. simpl in *. subst. by left.
Qed.

Lemma lookup_subscribe_inputs_weak P l σ x st rs k :
  heap (foldl (subscribe_input P) σ l) !! x = Some (Cell st rs k) →
  ∃ rs0, heap σ !! x = Some (Cell st rs0 k).
Proof.
  revert σ rs. induction l as [|iv l IH]; intros σ rs H; simpl in H; [by exists rs|].
  destruct (IH _ _ H) as [rs1 H1].
  destruct (subscribe_input_cases P σ iv) as [Heq|(r' & _ & Heq)];
    rewrite Heq in H1; [by exists rs1|].
  by eapply subscribe_lookup_weak.
Qed.

Lemma holds_subscribe_inputs_new P l σ i r :
  (i, VPromise r) ∈ l → r < length (heap σ) →
  holds (foldl (subscribe_input P) σ l) r (RAll P i).
Proof.
  revert σ. induction l as [|iv l IH]; intros σ Hin Hlt; simpl.
  - by apply elem_of_nil in Hin.
  - apply elem_of_cons in Hin as [<-|Hin].
    + apply holds_subscribe_inputs. simpl. by apply holds_subscribe_new.
    + apply IH; [done|].
      destruct (subscribe_input_cases P σ iv) as [->|(r' & _ & ->)]; [done|].
      by rewrite subscribe_length.
Qed.

Lemma legit_subscribe_inputs P l σ :
  (∀ i r, (i, VPromise r) ∈ l → legit σ r (RAll P i)) →
  tokens_legit σ → tokens_legit (foldl (subscribe_input P) σ l).
Proof.
  revert σ. induction l as [|iv l IH]; intros σ Hl H; simpl; [done|].
  assert (ext σ (subscribe_input P σ iv)) as He.
  { destruct (subscribe_input_cases P σ iv) as [->|(r' & _ & ->)];
      [apply ext_refl|apply ext_subscribe]. }
  apply IH.
  - intros i r Hin. eapply ext_legit; [done|]. apply Hl. by right.
  - destruct (subscribe_input_cases P σ iv) as [->|(r' & Hr' & ->)]; [done|].
    apply legit_subscribe; [done|]. apply Hl.
    destruct iv as [i v]. simpl in *. subst. by left.
Qed.

Lemma elem_of_imap_pair (inputs : list value) i v :
  (i, v) ∈ imap pair inputs ↔ inputs !! i = Some v.
Proof.
  rewrite list_elem_of_lookup. split.
  - intros [j Hj]. rewrite list_lookup_imap in Hj.
    destruct (inputs !! j) as [w|] eqn:Hw; [|done].
    by injection Hj as -> ->.
  - intros Hi. exists i. by rewrite list_lookup_imap, Hi.
Qed.

Lemma slot_of_lookup (inputs : list value) i x :
  inputs !! i = Some x →
  (slot_of <$> inputs) !! i = Some (slot_of x).
Proof. intros H. by rewrite list_lookup_fmap, H. Qed.

End All.

Section CreateInv.

Implicit Types (σ : state) (r p P : nat) (o : outcome) (rc : reaction)
  (c : cell) (f : reaction → nat).

(** A state with the same promises and jobs, whose log has grown by
    events that are not calls of [instantiate]. *)
Lemma Inv_same_heap σ σ' es :
  heap σ' = heap σ → queue σ' = queue σ → log σ' = log σ ++ es →
  (∀ e, e ∈ es → is_instantiate e = false) →
  Inv σ → Inv σ'.
Proof.
  intros Hh Hq Hl Hes HI.
  assert (ext σ σ') as He.
  { split; [|by exists es]. intros x c Hx. exists c. rewrite Hh.
    split; [done|]. split; [apply kind_le_refl|done]. }
  assert (∀ r rc, holds σ r rc → holds σ' r rc) as Hh'
    by (intros r rc; by apply holds_eq).
  split.
  - eapply legit_sub; [apply HI|done| |].
    + intros r c Hr. rewrite Hh in Hr. by exists c.
    + intros j. by rewrite Hq.
  - intros P st rs inputs slots HP. rewrite Hh in HP.
    eapply cell_ok_mono; [done|done|by eapply inv_all].
  - intros p Hp. rewrite (tokens_eq _ σ σ') by done.
    unfold kind_of in Hp. rewrite Hh in Hp. unfold settled, status_of.
    rewrite Hh. by apply inv_settles.
  - intros p. rewrite (tokens_eq _ σ σ'), Hl, count_app by done.
    rewrite (count_zero _ es).
    + pose proof (inv_once _ HI p). lia.
    + intros e He'. specialize (Hes e He'). by destruct e.
  - intros p l res Hin. rewrite Hl in Hin. apply elem_of_app in Hin as [Hin|Hin].
    + destruct (inv_log _ HI p l res Hin) as (Hk & P & inputs & -> & Ha & Hs).
      split; [by eapply ext_kind_then|]. exists P, inputs. split; [done|].
      split; [by eapply ext_is_all|by eapply ext_status].
    + by specialize (Hes _ Hin).
Qed.

Lemma Inv_set_instance v σ : Inv σ → Inv (set_instance v σ).
Proof.
  apply (Inv_same_heap σ _ []); try done.
  - simpl. by rewrite app_nil_r.
  - intros e He. by apply elem_of_nil in He.
Qed.

(** No call of [instantiate] is logged for a promise that does not
    exist yet. *)
Lemma count_fresh σ p :
  Inv σ → length (heap σ) ≤ p → count (invoked_by p) (log σ) = 0.
Proof.
  intros HI Hp. apply count_zero. intros e He. destruct e as [| q l res|]; try done.
  simpl. apply bool_decide_eq_false. intros ->.
  destruct (inv_log _ HI _ _ _ He) as [Hk _]. apply kind_of_lt in Hk. lia.
Qed.

(** [Promise.all(inputs).then(...)]: the two new promises. *)
Lemma Inv_promise_all_then inputs σ :
  Inv σ →
  (∀ i r, inputs !! i = Some (VPromise r) → r < length (heap σ)) →
  let P := length (heap σ) in
  let σ2 := (then_ (promise_all inputs σ).1 (promise_all inputs σ).2).2 in
  (promise_all inputs σ).1 = P
  ∧ (then_ (promise_all inputs σ).1 (promise_all inputs σ).2).1 = S P
  ∧ Inv σ2
  ∧ ext σ σ2
  ∧ is_all σ2 P inputs
  ∧ kind_of σ2 (S P) = Some KThen
  ∧ length (heap σ2) = S (S P)
  ∧ log σ2 = log σ
  ∧ _instance σ2 = _instance σ
  ∧ (∀ f, (∀ i, f (RAll P i) = 0) →
       tokens f σ2 ≤ tokens f σ + f (RThen (S P))).
Proof.
  intros HI Hvalid P σ2'.
  set (cP := Cell None [] (KAll inputs (slot_of <$> inputs))).
  set (σa := set_heap (heap σ ++ [cP]) σ).
  set (σb := foldl (subscribe_input P) σa (imap pair inputs)).
  set (σc := match collect (slot_of <$> inputs) with
             | Some vs => settle P (Fulfilled (VArray vs)) σb
             | None => σb
             end).
  set (σd := set_heap (heap σc ++ [Cell None [] KThen]) σc).
  assert (length (heap σa) = S P) as Hla
    by (simpl; rewrite length_app; simpl; unfold P; lia).
  assert (length (heap σb) = S P) as Hlb
    by (unfold σb; by rewrite length_subscribe_inputs).
  assert (length (heap σc) = S P) as Hlc
    by (unfold σc; destruct (collect _); by rewrite ?settle_length).
  assert (length (heap σd) = S (S P)) as Hld
    by (simpl; rewrite length_app; simpl; lia).
  set (σ2 := subscribe P (RThen (S P)) σd).
  assert (σ2' = σ2) as Heq2 by (unfold σ2; rewrite <- Hlc; reflexivity).
  assert ((promise_all inputs σ).1 = P) as Heq0 by reflexivity.
  assert ((then_ (promise_all inputs σ).1 (promise_all inputs σ).2).1 = S P)
    as Heq1 by (rewrite <- Hlc; reflexivity).
  rewrite Heq1, Heq0, Heq2. clear Heq0 Heq1 Heq2 σ2'.
  assert (ext σ σa) as Hea by apply (ext_alloc cP σ).
  assert (ext σa σb) as Heb by apply ext_subscribe_inputs.
  assert (ext σb σc) as Hec
    by (unfold σc; destruct (collect _); [apply ext_settle|apply ext_refl]).
  assert (ext σc σd) as Hed by apply (ext_alloc (Cell None [] KThen) σc).
  assert (ext σd σ2) as He2 by apply ext_subscribe.
  assert (ext σ σ2) as He
    by exact (ext_trans _ _ _ (ext_trans _ _ _ (ext_trans _ _ _
                (ext_trans _ _ _ Hea Heb) Hec) Hed) He2).
  assert (heap σa !! P = Some cP) as HPa.
  { simpl. rewrite lookup_app_r by (unfold P; lia).
    unfold P. by rewrite Nat.sub_diag. }
  assert (heap σb !! P = Some cP) as HPb.
  { unfold σb. rewrite lookup_subscribe_inputs; [done|].
    intros i r Hin. apply elem_of_imap_pair in Hin.
    specialize (Hvalid i r Hin). unfold P. lia. }
  assert (∃ st, heap σc !! P = Some (Cell st [] (KAll inputs (slot_of <$> inputs)))
            ∧ match st with
              | None => collect (slot_of <$> inputs) = None
              | Some o => ∃ vs, o = Fulfilled (VArray vs)
                                ∧ collect (slot_of <$> inputs) = Some vs
              end) as (st & HPc & Hst).
  { unfold σc. destruct (collect (slot_of <$> inputs)) as [vs|] eqn:Hc.
    - destruct (settle_cases P (Fulfilled (VArray vs)) σb)
        as [(rs & k & Hr & ->)|[Hn ->]].
      + rewrite HPb in Hr. injection Hr as <- <-. simpl.
        rewrite list_lookup_insert_eq by lia. eexists. split; [done|].
        by exists vs.
      + by destruct (Hn [] (KAll inputs (slot_of <$> inputs))).
    - by exists None. }
  assert (heap σd !! P = Some (Cell st [] (KAll inputs (slot_of <$> inputs))))
    as HPd by (simpl; by apply lookup_app_l_Some).
  assert (heap σd !! S P = Some (Cell None [] KThen)) as Hpd.
  { simpl. rewrite lookup_app_r by lia. by rewrite Hlc, Nat.sub_diag. }
  assert (∀ r rc, holds σ r rc → holds σ2 r rc) as Hholds.
  { intros r rc H. apply holds_subscribe.
    apply (holds_alloc (Cell None [] KThen) σc).
    assert (holds σb r rc) as Hb
      by (apply holds_subscribe_inputs; by apply (holds_alloc cP σ)).
    unfold σc. destruct (collect _); [by apply holds_settle|done]. }
  assert (tokens_legit σ2) as Hlegit.
  { apply legit_subscribe.
    - apply (legit_alloc (Cell None [] KThen) σc); [|done].
      assert (tokens_legit σb) as Hb.
      { apply legit_subscribe_inputs.
        - intros i r Hin. apply elem_of_imap_pair in Hin. exists inputs.
          split; [|done]. by eexists _, _, _.
        - apply (legit_alloc cP σ); [apply HI|done]. }
      unfold σc. destruct (collect _); [by apply legit_settle|done].
    - split; [done|]. split.
      + exists inputs. by eexists _, _, _.
      + unfold kind_of. by rewrite Hpd. }
  assert (∀ f, (∀ i, f (RAll P i) = 0) →
            tokens f σ2 ≤ tokens f σ + f (RThen (S P))) as Htok.
  { intros f Hf. etrans; [apply tokens_subscribe|].
    apply Nat.add_le_mono_r.
    change σd with (alloc (Cell None [] KThen) σc).2.
    rewrite (tokens_alloc f (Cell None [] KThen) σc). simpl.
    rewrite Nat.add_0_r.
    assert (tokens f σc = tokens f σb) as ->
      by (unfold σc; destruct (collect _); by rewrite ?tokens_settle).
    etrans; [exact (tokens_subscribe_inputs f P _ σa Hf)|].
    change σa with (alloc cP σ).2.
    rewrite (tokens_alloc f cP σ). simpl. lia. }
  assert (∀ x, x < P → status_of σ2 x = status_of σ x) as Hstat.
  { intros x Hx. unfold σ2. rewrite status_of_subscribe.
    assert (status_of σd x = status_of σc x) as ->
      by (unfold status_of; simpl; by rewrite lookup_app_l by lia).
    assert (status_of σc x = status_of σb x) as ->.
    { unfold σc. destruct (collect _); [|done].
      apply status_of_settle_ne. lia. }
    unfold σb. rewrite status_of_subscribe_inputs.
    unfold status_of. simpl. by rewrite lookup_app_l by (unfold P in Hx; lia). }
  assert (log σ2 = log σ) as Hlog.
  { unfold σ2. rewrite subscribe_log. simpl.
    assert (log σc = log σb) as ->
      by (unfold σc; destruct (collect _); by rewrite ?settle_log).
    unfold σb. by rewrite log_subscribe_inputs. }
  assert (heap σ2 !! P = heap σ2 !! P) as _ by done.
  split; [done|]. split; [done|].
  split; [|split; [done|split; [|split; [|split; [|split; [|split; [|done]]]]]]].
  - split.
    + done.
    + intros P' st' rs' inputs' slots' HP'.
      apply subscribe_lookup_weak in HP' as [rs1 HP'].
      simpl in HP'. apply lookup_app_Some in HP' as [HP'|[_ HP']];
        [|by apply list_lookup_singleton_Some in HP' as [_ ?]].
      destruct (decide (P' = P)) as [->|Hne].
      * rewrite HPc in HP'. injection HP' as <- <- <- <-.
        split; [|split; [|split]].
        -- split; [by rewrite length_fmap|]. split.
           ++ intros i v Hi. rewrite list_lookup_fmap in Hi.
              destruct (inputs !! i) as [x|] eqn:Hx; [|done].
              exists x. split; [done|]. simpl in Hi. injection Hi as Hi.
              destruct x; simpl in *; congruence.
           ++ destruct st as [o|]; [|done]. destruct Hst as (vs & -> & Hvs).
              exists vs. split; [done|]. by apply collect_Some.
        -- intros i x Hx. destruct x; simpl;
             try (by rewrite (slot_of_lookup _ _ _ Hx)).
           left. apply holds_subscribe.
           apply (holds_alloc (Cell None [] KThen) σc).
           assert (holds σb ref (RAll P i)) as Hb.
           { apply holds_subscribe_inputs_new; [by apply elem_of_imap_pair|].
             specialize (Hvalid _ _ Hx). lia. }
           unfold σc. destruct (collect _); [by apply holds_settle|done].
        -- unfold kind_of, σ2.
           destruct (subscribe_lookup_fwd P (RThen (S P)) σd _ _ Hpd)
             as (c' & -> & Hk & _). simpl. by rewrite Hk.
        -- left. apply holds_subscribe_new. lia.
      * assert (∃ rs0, heap σ !! P' = Some (Cell st' rs0 (KAll inputs' slots')))
          as [rs0 HP0].
        { assert (heap σb !! P' = Some (Cell st' rs1 (KAll inputs' slots'))) as Hb.
          { unfold σc in HP'. destruct (collect _); [|done].
            by eapply settle_lookup_other. }
          apply lookup_subscribe_inputs_weak in Hb as [rs0 Hb]. exists rs0.
          simpl in Hb. apply lookup_app_Some in Hb as [Hb|[Hge Hb]]; [done|].
          apply list_lookup_singleton_Some in Hb as [Hz _].
          apply lookup_lt_Some in HP'. unfold P in *. lia. }
        eapply cell_ok_mono; [done|done|by eapply inv_all].
    + intros p Hp.
      destruct (decide (p = S P)) as [->|Hne].
      * specialize (Htok (settles (S P)) (λ _, eq_refl)).
        simpl in Htok. rewrite decide_True in Htok by done.
        rewrite (tokens_fresh σ (S P)) in Htok;
          [|apply HI|unfold P; lia|apply settles_then_or_follow].
        assert (settled σ2 (S P) = 0) as ->; [|lia].
        unfold settled, σ2. rewrite status_of_subscribe. unfold status_of.
        by rewrite Hpd.
      * assert (p < P) as Hlt.
        { apply kind_of_lt in Hp as Hlt.
          fold σ2 in Hlt. unfold σ2 in Hlt. rewrite subscribe_length, Hld in Hlt.
          destruct (decide (p = P)) as [->|]; [|lia].
          destruct (ext_is_all σd σ2 P inputs He2) as (? & ? & ? & Hc);
            [by eexists _, _, _|].
          unfold kind_of in Hp. fold σ2 in Hp. by rewrite Hc in Hp. }
        assert (kind_of σ p = Some KThen) as Hk.
        { unfold kind_of in *. fold σ2 in Hp.
          destruct (heap σ !! p) as [c|] eqn:Hc.
          - destruct He as [He _]. destruct (He _ _ Hc) as (c' & Hc' & Hkl & _).
            rewrite Hc' in Hp. simpl in *. injection Hp as Hp.
            rewrite Hp in Hkl. by destruct (ckind c).
          - apply lookup_ge_None in Hc. unfold P in Hlt. lia. }
        specialize (Htok (settles p) (λ _, eq_refl)).
        simpl in Htok. rewrite decide_False in Htok by done.
        unfold settled. rewrite Hstat by done.
        pose proof (inv_settles _ HI p Hk) as H. unfold settled in H. lia.
    + intros p. rewrite Hlog.
      assert (∀ i, then_of p (RAll P i) = 0) as Hf by done.
      specialize (Htok (then_of p) Hf).
      destruct (decide (p = S P)) as [->|Hne].
      * rewrite (tokens_fresh σ (S P)) in Htok;
          [|apply HI|unfold P; lia|apply then_of_then_or_follow].
        rewrite (count_fresh σ) by (done || (unfold P; lia)).
        assert (then_of (S P) (RThen (S P)) = 1) as Hone
          by (unfold then_of; by rewrite decide_True).
        lia.
      * assert (then_of p (RThen (S P)) = 0) as Hzero
          by (unfold then_of; rewrite decide_False; [done|congruence]).
        pose proof (inv_once _ HI p). lia.
    + by apply (inv_log_ext σ).
  - apply (ext_is_all σd); [done|]. by eexists _, _, _.
  - apply (ext_kind_then σd); [done|]. unfold kind_of. by rewrite Hpd.
  - unfold σ2. by rewrite subscribe_length.
  - done.
  - unfold σ2. rewrite subscribe_instance. simpl.
    assert (_instance σc = _instance σb) as ->
      by (unfold σc; destruct (collect _); by rewrite ?settle_instance).
    unfold σb. by rewrite instance_subscribe_inputs.
Qed.

End CreateInv.

Section Reach.

Variable this : Spec.
Variable instantiate : nat → list value → result value.

Implicit Types (σ : state) (r p P : nat) (o : outcome) (rc : reaction)
  (c : cell) (k : Container) (tr : list label).

(** *** What [create] does *)

Lemma create_fast k σ :
  truthy (_instance σ) = true → create this k σ = Some (_instance σ, σ).
Proof. intros H. unfold create. by rewrite H. Qed.

Lemma valid_inputs (h : list cell) (inputs : list value) :
  forallb (valid_value h) inputs = true →
  ∀ i r, inputs !! i = Some (VPromise r) → r < length h.
Proof.
  rewrite forallb_forall.
  intros H i r Hi. apply list_elem_of_lookup_2, list_elem_of_In, H in Hi.
  simpl in Hi. by apply bool_decide_eq_true in Hi.
Qed.

Lemma walk_dep_list ds :
  walk (dependencies this) = Some ds → dep_list this = ds.
Proof. unfold dep_list. by intros ->. Qed.

Lemma create_slow k σ :
  truthy (_instance σ) = false →
  create this k σ =
    match walk (dependencies this) with
    | Some _ =>
        if forallb (valid_value (heap σ)) (imap k (dep_list this))
        then Some (VPromise (S (length (heap σ))), after_create this k σ)
        else None
    | None => None
    end.
Proof.
  intros H. unfold create, after_create, dep_list. rewrite H.
  destruct (walk (dependencies this)) as [ds|]; [|reflexivity]. cbn [mbind option_bind].
  change (default [] (Some ds)) with ds.
  destruct (forallb _ _) eqn:Hv; [|done].
  set (inputs := imap k ds).
  set (σ0 := emit (zip_with EContainerCreate ds inputs) σ).
  destruct (promise_all inputs σ0) as [P σ1] eqn:HP. cbn [fst snd].
  destruct (then_ P σ1) as [p σ2] eqn:Hp. cbn [fst snd].
  assert (p = S (length (heap σ))) as ->; [|done].
  assert (p = (then_ P σ1).1) as -> by by rewrite Hp.
  assert (P = (promise_all inputs σ0).1) as -> by by rewrite HP.
  assert (σ1 = (promise_all inputs σ0).2) as -> by by rewrite HP.
  unfold then_, promise_all. simpl.
  destruct (collect _); by rewrite ?settle_length, length_subscribe_inputs;
    simpl; rewrite length_app; simpl; lia.
Qed.

Lemma events_not_instantiate (deps inputs : list value) e :
  e ∈ zip_with EContainerCreate deps inputs → is_instantiate e = false.
Proof.
  intros He. apply list_elem_of_lookup_1 in He as [i Hi].
  apply lookup_zip_with_Some in Hi as (d & x & -> & _). done.
Qed.

(** The slow path of [create] on a state that satisfies the invariant. *)
Lemma after_create_spec k σ :
  Inv σ →
  forallb (valid_value (heap σ)) (imap k (dep_list this)) = true →
  let P := length (heap σ) in
  let σ' := after_create this k σ in
  Inv σ' ∧ ext σ σ'
  ∧ is_all σ' P (imap k (dep_list this))
  ∧ kind_of σ' (S P) = Some KThen
  ∧ length (heap σ') = S (S P)
  ∧ log σ' = log σ ++ zip_with EContainerCreate (dep_list this)
                        (imap k (dep_list this))
  ∧ _instance σ' = (if truthy (singleton this) then VPromise (S P)
                    else _instance σ)
  ∧ (∀ f, (∀ i, f (RAll P i) = 0) →
       tokens f σ' ≤ tokens f σ + f (RThen (S P))).
Proof.
  intros HI Hv P σ'. unfold σ', after_create.
  set (inputs := imap k (dep_list this)) in *.
  set (σ0 := emit (zip_with EContainerCreate (dep_list this) inputs) σ).
  assert (Inv σ0) as HI0.
  { eapply (Inv_same_heap σ σ0); try done. apply events_not_instantiate. }
  assert (ext σ σ0) as He0 by apply ext_emit.
  destruct (Inv_promise_all_then inputs σ0 HI0)
    as (_ & _ & HI2 & He2 & Ha & Hk & Hlen & Hlog & Hinst & Htok).
  { by apply valid_inputs. }
  change (length (heap σ0)) with P in *.
  set (σ2 := (then_ (promise_all inputs σ0).1 (promise_all inputs σ0).2).2) in *.
  destruct (truthy (singleton this)).
  - split; [by apply Inv_set_instance|]. split.
    { eapply ext_trans; [done|]. eapply ext_trans; [done|].
      apply ext_set_instance. }
    split; [done|]. split; [done|]. split; [done|].
    split; [simpl; by rewrite Hlog|]. split; [done|]. exact Htok.
  - split; [done|]. split; [by eapply ext_trans|].
    split; [done|]. split; [done|]. split; [done|].
    split; [by rewrite Hlog|]. split; [done|]. exact Htok.
Qed.

(** *** Every step keeps the invariant *)

Lemma create_cases k σ v σ' :
  create this k σ = Some (v, σ') →
  (truthy (_instance σ) = true ∧ v = _instance σ ∧ σ' = σ)
  ∨ (truthy (_instance σ) = false
     ∧ forallb (valid_value (heap σ)) (imap k (dep_list this)) = true
     ∧ v = VPromise (S (length (heap σ))) ∧ σ' = after_create this k σ).
Proof.
  destruct (truthy (_instance σ)) eqn:Ht.
  - rewrite create_fast by done. intros [= <- <-]. by left.
  - rewrite create_slow by done. destruct (walk _); [|done].
    destruct (forallb _ _); [|done].
    intros [= <- <-]. by right.
Qed.

(** The slow path returns only when the loop over the dependencies
    comes to an end. *)
Lemma create_walk k σ v σ' :
  create this k σ = Some (v, σ') → truthy (_instance σ) = false →
  walk (dependencies this) = Some (dep_list this).
Proof.
  intros Hc Ht. rewrite create_slow in Hc by done. unfold dep_list.
  by destruct (walk _).
Qed.

Lemma create_valid k σ ds :
  truthy (_instance σ) = false →
  walk (dependencies this) = Some ds →
  forallb (valid_value (heap σ)) (imap k ds) = true →
  create this k σ = Some (VPromise (S (length (heap σ))), after_create this k σ).
Proof.
  intros Ht Hw Hv. rewrite create_slow by done.
  rewrite (walk_dep_list _ Hw), Hw. by rewrite Hv.
Qed.

Lemma exec_cases l σ σ' :
  exec this instantiate l σ = Some σ' →
  (l = LNew ∧ σ' = (alloc (Cell None [] KExternal) σ).2)
  ∨ (∃ r o rs, l = LSettle r o ∧ heap σ !! r = Some (Cell None rs KExternal)
               ∧ σ' = settle r o σ)
  ∨ (∃ k v, l = LCreate k ∧ create this k σ = Some (v, σ'))
  ∨ (∃ j js, l = LRun ∧ queue σ = j :: js
             ∧ σ' = run_job this instantiate j
                      (State (heap σ) js (_instance σ) (log σ))).
Proof.
  destruct l as [|r o|k|]; simpl.
  - intros [= <-]. by left.
  - destruct (heap σ !! r) as [[[?|] rs [| |]]|] eqn:Hr; try done.
    intros [= <-]. right; left. by exists r, o, rs.
  - destruct (create this k σ) as [[v σ1]|] eqn:Hc; [|done].
    intros [= <-]. right; right; left. by exists k, v.
  - destruct (queue σ) as [|j js] eqn:Hq; [done|].
    intros [= <-]. right; right; right. by exists j, js.
Qed.

Lemma Inv_exec l σ σ' : Inv σ → exec this instantiate l σ = Some σ' → Inv σ'.
Proof.
  intros HI H. apply exec_cases in H
    as [[-> ->]|[(r & o & rs & -> & Hr & ->)|[(k & v & -> & Hc)|(j & js & -> & Hq & ->)]]].
  - by apply Inv_new.
  - by eapply Inv_settle_external.
  - apply create_cases in Hc as [(_ & _ & ->)|(_ & Hv & _ & ->)]; [done|].
    by apply after_create_spec.
  - apply Inv_run_job. destruct σ as [h q i l]. simpl in *. by subst.
Qed.

Lemma Inv_run tr σ σ' : Inv σ → run this instantiate tr σ = Some σ' → Inv σ'.
Proof.
  revert σ. induction tr as [|l tr IH]; intros σ HI; simpl.
  - by intros [= <-].
  - destruct (exec this instantiate l σ) as [σ1|] eqn:He; [|done]. simpl.
    apply IH. by eapply Inv_exec.
Qed.

Lemma ext_run_job j σ : ext σ (run_job this instantiate j σ).
Proof.
  destruct j as [[P i0|p|p] [v|e]]; simpl;
    try apply ext_settle; try apply ext_fill.
  unfold continuation. destruct (apply_args v) as [l|e]; [|apply ext_settle].
  destruct (instantiate _ l) as [i|e].
  - eapply ext_trans; [|apply ext_resolve].
    destruct (truthy (singleton this)).
    + eapply ext_trans; [apply ext_emit|].
      eapply ext_trans; [apply ext_emit|apply ext_set_instance].
    + eapply ext_trans; apply ext_emit.
  - eapply ext_trans; [apply ext_emit|apply ext_settle].
Qed.

Lemma ext_exec l σ σ' : Inv σ → exec this instantiate l σ = Some σ' → ext σ σ'.
Proof.
  intros HI H. apply exec_cases in H
    as [[-> ->]|[(r & o & rs & -> & Hr & ->)|[(k & v & -> & Hc)|(j & js & -> & Hq & ->)]]].
  - apply ext_alloc.
  - apply ext_settle.
  - apply create_cases in Hc as [(_ & _ & ->)|(_ & Hv & _ & ->)]; [apply ext_refl|].
    by apply after_create_spec.
  - eapply ext_trans; [|apply ext_run_job]. destruct σ as [h q i l].
    simpl in *. subst. apply ext_pop.
Qed.

Lemma ext_run tr σ σ' : Inv σ → run this instantiate tr σ = Some σ' → ext σ σ'.
Proof.
  revert σ. induction tr as [|l tr IH]; intros σ HI; simpl.
  - intros [= <-]. apply ext_refl.
  - destruct (exec this instantiate l σ) as [σ1|] eqn:He; [|done]. simpl.
    intros H. eapply ext_trans; [by eapply ext_exec|].
    eapply IH; [by eapply Inv_exec|done].
Qed.

Lemma run_app tr1 tr2 σ :
  run this instantiate (tr1 ++ tr2) σ
  = run this instantiate tr1 σ ≫= run this instantiate tr2.
Proof.
  revert σ. induction tr1 as [|l tr1 IH]; intros σ; simpl; [done|].
  destruct (exec this instantiate l σ); simpl; [apply IH|done].
Qed.

End Reach.

Section Progress.

Variable this : Spec.
Variable instantiate : nat → list value → result value.

Implicit Types (σ : state) (r p P : nat) (o : outcome) (rc : reaction)
  (c : cell) (k : Container) (tr : list label).

(** *** The event loop comes to rest *)

Lemma continuation_heap p args σ :
  heap (continuation this instantiate p args σ).2 = heap σ
  ∧ queue (continuation this instantiate p args σ).2 = queue σ.
Proof.
  unfold continuation. destruct (apply_args args) as [l|e]; [|done].
  destruct (instantiate _ l) as [i|e]; [|done].
  by destruct (truthy (singleton this)).
Qed.

Lemma run_job_weight j σ :
  tokens weight (run_job this instantiate j σ) + 1 ≤ tokens weight σ + weight j.1.
Proof.
  destruct j as [[P i0|p|p] [v|e]]; simpl;
    rewrite ?tokens_fill, ?tokens_settle; try lia.
  destruct (continuation_heap p v σ) as [Hh Hq].
  destruct (continuation this instantiate p v σ) as [[i|e] σ1]; simpl in *.
  - pose proof (tokens_resolve weight p i σ1) as H. simpl in H.
    rewrite (tokens_eq weight σ σ1) in H by done. lia.
  - rewrite tokens_settle, (tokens_eq weight σ σ1) by done. lia.
Qed.

(** Running the queue to the end: no job is left after finitely many
    steps of the event loop. *)
Lemma drain σ :
  ∃ n σ', run this instantiate (replicate n LRun) σ = Some σ' ∧ queue σ' = [].
Proof.
  remember (tokens weight σ) as m eqn:Hm.
  revert σ Hm. induction (lt_wf m) as [m _ IH]. intros σ ->.
  destruct (queue σ) as [|j js] eqn:Hq.
  - exists 0, σ. by split.
  - set (σ1 := run_job this instantiate j (State (heap σ) js (_instance σ) (log σ))).
    assert (tokens weight σ1 < tokens weight σ) as Hlt.
    { pose proof (run_job_weight j (State (heap σ) js (_instance σ) (log σ))) as H.
      fold σ1 in H.
      assert (tokens weight σ = weight j.1
                + tokens weight (State (heap σ) js (_instance σ) (log σ))) as ->.
      { unfold tokens. simpl. rewrite Hq. simpl. lia. }
      lia. }
    destruct (IH _ Hlt σ1 eq_refl) as (n & σ' & Hrun & Hq').
    exists (S n), σ'. split; [|done]. simpl. by rewrite Hq.
Qed.

(** *** What is known once the event loop is at rest *)

Lemma holds_at_rest σ r rc o :
  queue σ = [] → status_of σ r = Some o → holds σ r rc → False.
Proof.
  intros Hq Hs [(rs & k & Hr & _)|(o' & _ & Hin)].
  - unfold status_of in Hs. by rewrite Hr in Hs.
  - rewrite Hq in Hin. by apply elem_of_nil in Hin.
Qed.

(** The values [instantiate] was called with are those the inputs
    resolved to, in the order of the inputs. *)
Lemma invoked_aligned σ P inputs l res :
  Inv σ → is_all σ P inputs → EInstantiate (S P) l res ∈ log σ →
  Forall2 (resolved σ) inputs l.
Proof.
  intros HI Ha Hin.
  destruct (inv_log _ HI _ _ _ Hin) as (_ & P' & inputs' & [= <-] & Ha' & Hs).
  destruct Ha as (st & rs & slots & HP).
  destruct (inv_all _ HI _ _ _ _ _ HP) as ((Hlen & Hsl & Hst) & _).
  unfold status_of in Hs. rewrite HP in Hs. simpl in Hs. subst st.
  destruct Hst as (vs & [= <-] & ->). rewrite length_fmap in Hlen.
  apply Forall2_same_length_lookup. split; [done|].
  intros i x v Hx Hv. destruct (Hsl i v) as (x' & Hx' & Hres).
  { by rewrite list_lookup_fmap, Hv. }
  congruence.
Qed.

Lemma rejected_not_invoked σ P inputs i r e l res :
  Inv σ → is_all σ P inputs →
  inputs !! i = Some (VPromise r) → status_of σ r = Some (Rejected e) →
  EInstantiate (S P) l res ∉ log σ.
Proof.
  intros HI Ha Hi Hr Hin.
  pose proof (invoked_aligned _ _ _ _ _ HI Ha Hin) as Hall.
  destruct (Forall2_lookup_l _ _ _ _ _ Hall Hi) as (v & _ & Hres).
  simpl in Hres. congruence.
Qed.

(** At rest, with every input fulfilled, [instantiate] has been called. *)
Lemma at_rest_fulfilled σ P inputs :
  Inv σ → queue σ = [] → is_all σ P inputs →
  (∀ i r, inputs !! i = Some (VPromise r) →
     ∃ v, status_of σ r = Some (Fulfilled v)) →
  ∃ l res, EInstantiate (S P) l res ∈ log σ ∧ Forall2 (resolved σ) inputs l.
Proof.
  intros HI Hq Ha Hful. pose proof Ha as (st & rs & slots & HP).
  destruct (inv_all _ HI _ _ _ _ _ HP) as ((Hlen & Hsl & Hst) & Hin & _ & Hth).
  assert (∀ i, i < length slots → ∃ v, slots !! i = Some (Some v)) as Hfilled.
  { intros i Hi. rewrite Hlen in Hi.
    apply lookup_lt_is_Some in Hi as [x Hx]. specialize (Hin i x Hx).
    destruct x; simpl in Hin; try by eexists.
    destruct (Hful _ _ Hx) as [v Hv]. exists v.
    destruct Hin as [Hh|Hd]; [by destruct (holds_at_rest _ _ _ _ Hq Hv Hh)|].
    by rewrite Hv in Hd. }
  destruct (collect_filled slots Hfilled) as [vs Hvs].
  assert (status_of σ P = st) as HsP by (unfold status_of; by rewrite HP).
  destruct st as [[x|e]|].
  - destruct Hth as [Hh|Hd]; [by destruct (holds_at_rest _ _ _ _ Hq HsP Hh)|].
    rewrite HsP in Hd. destruct Hd as (l & res & -> & Hlog).
    exists l, res. split; [done|]. by eapply invoked_aligned.
  - destruct Hst as (i & r & Hi & Hr). destruct (Hful _ _ Hi) as [v Hv]. congruence.
  - congruence.
Qed.

(** At rest, with an input rejected, the [Promise.all] and the promise
    of the continuation are rejected with the reason of a rejected
    input. *)
Lemma at_rest_rejected σ P inputs i r e :
  Inv σ → queue σ = [] → is_all σ P inputs →
  inputs !! i = Some (VPromise r) → status_of σ r = Some (Rejected e) →
  ∃ i' r' e', inputs !! i' = Some (VPromise r')
    ∧ status_of σ r' = Some (Rejected e')
    ∧ status_of σ P = Some (Rejected e')
    ∧ status_of σ (S P) = Some (Rejected e').
Proof.
  intros HI Hq Ha Hi Hr. pose proof Ha as (st & rs & slots & HP).
  destruct (inv_all _ HI _ _ _ _ _ HP) as ((Hlen & Hsl & Hst) & Hin & _ & Hth).
  assert (status_of σ P = st) as HsP by (unfold status_of; by rewrite HP).
  specialize (Hin i _ Hi). simpl in Hin. rewrite Hr in Hin.
  destruct Hin as [Hh|[e1 He1]]; [by destruct (holds_at_rest _ _ _ _ Hq Hr Hh)|].
  rewrite HsP in He1. subst st. destruct Hst as (i' & r' & Hi' & Hr').
  exists i', r', e1. split; [done|]. split; [done|]. split; [done|].
  destruct Hth as [Hh|Hd]; [by destruct (holds_at_rest _ _ _ _ Hq HsP Hh)|].
  by rewrite HsP in Hd.
Qed.

End Progress.

Section Cache.

Variable this : Spec.
Variable instantiate : nat → list value → result value.

Implicit Types (σ : state) (r p P : nat) (o : outcome) (rc : reaction)
  (c : cell) (k : Container) (tr : list label).

(** *** What a job does to the cache and to the log *)

Lemma run_job_effect j σ :
  let σ' := run_job this instantiate j σ in
  (∃ p args l i,
      j = (RThen p, Fulfilled args) ∧ apply_args args = Ok l
      ∧ log σ' = log σ ++ [EInstantiate p l (Ok i); EEmit i]
      ∧ _instance σ' = if truthy (singleton this) then i else _instance σ)
  ∨ (_instance σ' = _instance σ
     ∧ (log σ' = log σ
        ∨ ∃ p args l e,
            j = (RThen p, Fulfilled args)
            ∧ log σ' = log σ ++ [EInstantiate p l (Throw e)])).
Proof.
  destruct j as [[P i0|p|p] [v|e]]; simpl;
    rewrite ?fill_log, ?fill_instance, ?settle_log, ?settle_instance;
    try (right; split; [done|by left]).
  unfold continuation. destruct (apply_args v) as [l|e] eqn:Ha.
  - destruct (instantiate (invocations (log σ)) l) as [i|e].
    + left. exists p, v, l, i. split; [done|]. split; [done|].
      rewrite resolve_log, resolve_instance.
      destruct (truthy (singleton this)); simpl; by rewrite <- app_assoc.
    + right. rewrite settle_log, settle_instance. split; [done|].
      right. by exists p, v, l, e.
  - right. rewrite settle_log, settle_instance. split; [done|by left].
Qed.

Lemma fill_length P i0 v σ : length (heap (fill P i0 v σ)) = length (heap σ).
Proof.
  unfold fill.
  destruct (heap σ !! P) as [[st rs [|inputs slots|]]|]; try done.
  destruct (collect _); rewrite ?settle_length; simpl; by rewrite length_insert.
Qed.

Lemma run_job_length j σ :
  length (heap (run_job this instantiate j σ)) = length (heap σ).
Proof.
  destruct j as [[P i0|p|p] [v|e]]; simpl;
    rewrite ?fill_length, ?settle_length; try done.
  destruct (continuation_heap this instantiate p v σ) as [Hh _].
  destruct (continuation this instantiate p v σ) as [[i|e] σ1]; simpl in *.
  - by rewrite resolve_length, Hh.
  - by rewrite settle_length, Hh.
Qed.

Lemma run_job_is_then j σ :
  tokens is_then (run_job this instantiate j σ) ≤ tokens is_then σ.
Proof.
  destruct j as [[P i0|p|p] [v|e]]; simpl;
    rewrite ?tokens_fill, ?tokens_settle; try done.
  destruct (continuation_heap this instantiate p v σ) as [Hh Hq].
  destruct (continuation this instantiate p v σ) as [[i|e] σ1]; simpl in *.
  - pose proof (tokens_resolve is_then p i σ1) as H. simpl in H.
    rewrite (tokens_eq is_then σ σ1) in H by done. lia.
  - rewrite tokens_settle, (tokens_eq is_then σ σ1) by done. lia.
Qed.

Lemma kind_then_back σ σ' p :
  ext σ σ' → p < length (heap σ) →
  kind_of σ' p = Some KThen → kind_of σ p = Some KThen.
Proof.
  intros [He _] Hlt. apply lookup_lt_is_Some in Hlt as [c Hc].
  destruct (He _ _ Hc) as (c' & Hc' & Hk & _).
  unfold kind_of. rewrite Hc, Hc'. simpl. intros [= Hk'].
  rewrite Hk' in Hk. by destruct (ckind c).
Qed.

Lemma returned_ext σ σ' p : ext σ σ' → returned p (log σ) → returned p (log σ').
Proof.
  intros He (args & i & Hin). exists args, i. by eapply ext_log.
Qed.

Lemma cache_ok_ext σ σ' :
  ext σ σ' → _instance σ' = _instance σ → cache_ok σ → cache_ok σ'.
Proof.
  intros He Hi [H|[(p & H & Hk)|(p & args & H)]].
  - left. congruence.
  - right; left. exists p. split; [congruence|by eapply ext_kind_then].
  - right; right. exists p, args. rewrite Hi. by eapply ext_log.
Qed.

Lemma returned_invoked p l : returned p l → 0 < count (invoked_by p) l.
Proof.
  intros (args & i & Hin). unfold count.
  induction l as [|e l IH]; [by apply elem_of_nil in Hin|].
  apply elem_of_cons in Hin as [<-|Hin]; simpl.
  - rewrite bool_decide_true by done. simpl. lia.
  - specialize (IH Hin). destruct (invoked_by p e); simpl; lia.
Qed.

Lemma SInv_init : SInv this init.
Proof.
  split.
  - by left.
  - intros _. unfold tokens, invocations, count. simpl. lia.
  - intros _ p Hp. done.
  - done.
Qed.

Lemma invocations_app l1 l2 :
  invocations (l1 ++ l2) = invocations l1 + invocations l2.
Proof. unfold invocations. by rewrite List.filter_app, length_app. Qed.

Lemma invocations_container (deps inputs : list value) :
  invocations (zip_with EContainerCreate deps inputs) = 0.
Proof.
  unfold invocations. revert inputs.
  induction deps as [|d deps IH]; intros [|x inputs]; simpl; auto.
Qed.

Lemma count_container g (deps inputs : list value) :
  (∀ d x, g (EContainerCreate d x) = false) →
  count g (zip_with EContainerCreate deps inputs) = 0.
Proof.
  intros Hg. apply count_zero. intros e He.
  apply list_elem_of_lookup_1 in He as [i Hi].
  apply lookup_zip_with_Some in Hi as (d & x & -> & _). apply Hg.
Qed.

(** Every step keeps the invariant of the cache. *)
Lemma SInv_exec l σ σ' :
  Inv σ → SInv this σ → exec this instantiate l σ = Some σ' → SInv this σ'.
Proof.
  intros HI HS Hex. pose proof (ext_exec this instantiate l σ σ' HI Hex) as He.
  apply exec_cases in Hex
    as [[-> ->]|[(r & o & rs & -> & Hr & ->)|[(k & v & -> & Hc)|(j & js & -> & Hq & ->)]]].
  - (* a new promise of the container *)
    split.
    + by eapply cache_ok_ext; [| |apply HS].
    + intros Hs. rewrite tokens_alloc. simpl.
      pose proof (sinv_count _ _ HS Hs). lia.
    + intros Hs p Hp. apply (sinv_current _ _ HS Hs).
      assert (p < S (length (heap σ))) as Hlt.
      { apply kind_of_lt in Hp. simpl in Hp. rewrite length_app in Hp.
        simpl in Hp. lia. }
      destruct (decide (p = length (heap σ))) as [->|Hne].
      * unfold kind_of in Hp. simpl in Hp.
        rewrite lookup_app_r, Nat.sub_diag in Hp by lia. done.
      * eapply kind_then_back; [done|lia|done].
    + apply HS.
  - (* a promise of the container settles *)
    split.
    + eapply cache_ok_ext; [done|apply settle_instance|apply HS].
    + intros Hs. rewrite tokens_settle, settle_log, settle_instance.
      by apply HS.
    + intros Hs p Hp. rewrite kind_of_settle in Hp.
      rewrite settle_log, settle_instance. by apply HS.
    + intros Hs. rewrite settle_instance. by apply HS.
  - (* a call of [create] *)
    apply create_cases in Hc as [(_ & _ & ->)|(Hf & Hv & _ & ->)]; [done|].
    destruct (after_create_spec this k σ HI Hv)
      as (_ & _ & Ha & Hk & Hlen & Hlog & Hinst & Htok).
    split.
    + destruct (truthy (singleton this)) eqn:Hs.
      * right; left. by eexists.
      * left. rewrite Hinst. by apply HS.
    + intros Hs. rewrite Hinst, Hs, Hlog. simpl.
      rewrite invocations_app, invocations_container, count_app.
      rewrite count_container by done.
      specialize (Htok is_then (λ _, eq_refl)). simpl in Htok.
      pose proof (sinv_count _ _ HS Hs) as H. rewrite Hf in H. lia.
    + intros Hs p Hp. rewrite Hinst, Hs.
      destruct (decide (p = S (length (heap σ)))) as [->|Hne]; [by right|].
      left. eapply returned_ext; [done|].
      assert (p ≠ length (heap σ)) as Hne'.
      { intros ->. destruct Ha as (? & ? & ? & Hc). unfold kind_of in Hp.
        by rewrite Hc in Hp. }
      assert (kind_of σ p = Some KThen) as Hk0.
      { eapply kind_then_back; [done| |done].
        apply kind_of_lt in Hp. rewrite Hlen in Hp. lia. }
      destruct (sinv_current _ _ HS Hs p Hk0) as [?|Hi]; [done|].
      by rewrite Hi in Hf.
    + intros Hs. rewrite Hinst, Hs. by apply HS.
  - (* a job of the event loop *)
    set (σ1 := State (heap σ) js (_instance σ) (log σ)) in *.
    pose proof (run_job_effect j σ1) as Heff.
    pose proof (run_job_is_then j σ1) as Htok.
    pose proof (run_job_length j σ1) as Hlen.
    set (σ' := run_job this instantiate j σ1) in *. simpl in Heff.
    assert (tokens is_then σ = is_then j.1 + tokens is_then σ1) as Hpop.
    { unfold tokens. simpl. rewrite Hq. simpl. lia. }
    assert (∀ p, kind_of σ' p = Some KThen → kind_of σ p = Some KThen) as Hback.
    { intros p Hp. eapply kind_then_back; [done| |done].
      apply kind_of_lt in Hp. by rewrite Hlen in Hp. }
    destruct Heff as [(p & args & vs & i & -> & Hargs & Hlog & Hinst)
                     |[Hinst [Hlog|(p & args & vs & e & -> & Hlog)]]].
    + (* [instantiate] returned [i] *)
      assert ((RThen p, Fulfilled args) ∈ queue σ) as Hin by (rewrite Hq; by left).
      destruct (inv_legit _ HI) as [_ Hlq].
      destruct (Hlq _ _ Hin) as (P & (-> & _ & Hkp) & _).
      split.
      * destruct (truthy (singleton this)) eqn:Hs.
        -- right; right. exists (S P), vs. rewrite Hinst, Hlog.
           apply elem_of_app. right. by left.
        -- eapply cache_ok_ext; [done|done|apply HS].
      * intros Hs. rewrite Hinst, Hs, Hlog, invocations_app, count_app.
        unfold invocations at 2, count at 2. simpl.
        pose proof (sinv_count _ _ HS Hs) as H. simpl in Hpop.
        destruct (truthy i), (truthy (_instance σ)); simpl; lia.
      * intros Hs p' Hp'. rewrite Hinst, Hs.
        destruct (decide (p' = S P)) as [->|Hne].
        -- left. exists vs, i. rewrite Hlog. apply elem_of_app. right. by left.
        -- left. eapply returned_ext; [done|].
           destruct (sinv_current _ _ HS Hs p' (Hback _ Hp')) as [?|Hi]; [done|].
           destruct (sinv_current _ _ HS Hs (S P) Hkp) as [Hret|Hi'];
             [|congruence].
           apply returned_invoked in Hret.
           pose proof (inv_once _ HI (S P)) as Honce.
           assert (1 ≤ tokens (then_of (S P)) σ); [|lia].
           unfold tokens. rewrite Hq. simpl. unfold then_of at 2.
           rewrite decide_True by done. lia.
      * intros Hs. rewrite Hinst, Hs. by apply HS.
    + split.
      * eapply cache_ok_ext; [done|done|apply HS].
      * intros Hs. rewrite Hinst, Hlog.
        pose proof (sinv_count _ _ HS Hs) as H. simpl. lia.
      * intros Hs p Hp. rewrite Hinst, Hlog.
        by apply (sinv_current _ _ HS Hs), Hback.
      * intros Hs. rewrite Hinst. by apply HS.
    + split.
      * eapply cache_ok_ext; [done|done|apply HS].
      * intros Hs. rewrite Hinst, Hlog, invocations_app, count_app.
        unfold invocations at 2, count at 2. simpl.
        pose proof (sinv_count _ _ HS Hs) as H. simpl in Hpop. simpl. lia.
      * intros Hs p' Hp'. rewrite Hinst.
        destruct (sinv_current _ _ HS Hs p' (Hback _ Hp')) as [Hr|Hi];
          [left|by right].
        by eapply returned_ext.
      * intros Hs. rewrite Hinst. by apply HS.
Qed.

Lemma SInv_run tr σ σ' :
  Inv σ → SInv this σ → run this instantiate tr σ = Some σ' → SInv this σ'.
Proof.
  revert σ. induction tr as [|l tr IH]; intros σ HI HS; simpl.
  - by intros [= <-].
  - destruct (exec this instantiate l σ) as [σ1|] eqn:He; [|done]. simpl.
    apply IH; [by eapply Inv_exec|by eapply SInv_exec].
Qed.

Lemma reach tr σ :
  run this instantiate tr init = Some σ → Inv σ ∧ SInv this σ.
Proof.
  intros H. split.
  - eapply Inv_run; [apply Inv_init|done].
  - eapply SInv_run; [apply Inv_init|apply SInv_init|done].
Qed.

End Cache.

Section Shared.

Variable this : Spec.
Variable instantiate : nat → list value → result value.

Implicit Types (σ : state) (r p P : nat) (o : outcome) (rc : reaction)
  (c : cell) (k : Container) (tr : list label).

(** A call of [create] that takes the slow path, and what follows it:
    whatever happens next, the continuation calls [instantiate] with
    the values of the dependencies in the declared order, and it does
    call it once they are all fulfilled and the event loop has run. *)
Lemma create_then_invoked σ0 k tr1 σ :
  Inv σ0 →
  forallb (valid_value (heap σ0)) (imap k (dep_list this)) = true →
  run this instantiate tr1 (after_create this k σ0) = Some σ →
  let P := length (heap σ0) in
  let inputs := imap k (dep_list this) in
  Inv σ ∧ is_all σ P inputs
  ∧ (∀ l res, EInstantiate (S P) l res ∈ log σ →
       Forall2 (resolved σ) inputs l)
  ∧ ((∀ i r, inputs !! i = Some (VPromise r) →
        ∃ x, status_of σ r = Some (Fulfilled x)) →
     ∃ n σ' l res,
       run this instantiate (replicate n LRun) σ = Some σ'
       ∧ EInstantiate (S P) l res ∈ log σ'
       ∧ Forall2 (resolved σ') inputs l).
Proof.
  intros HI0 Hv Hrun P inputs.
  destruct (after_create_spec this k σ0 HI0 Hv) as (HI1 & _ & Ha1 & _).
  pose proof (Inv_run this instantiate _ _ _ HI1 Hrun) as HI.
  pose proof (ext_run this instantiate _ _ _ HI1 Hrun) as He.
  assert (is_all σ P inputs) as Ha by by eapply ext_is_all.
  split; [done|]. split; [done|]. split.
  - intros l res Hin. by eapply invoked_aligned.
  - intros Hful. destruct (drain this instantiate σ) as (n & σ' & Hd & Hq).
    pose proof (Inv_run this instantiate _ _ _ HI Hd) as HI'.
    pose proof (ext_run this instantiate _ _ _ HI Hd) as He'.
    destruct (at_rest_fulfilled σ' P inputs HI' Hq) as (l & res & Hin & Hall).
    + by eapply ext_is_all.
    + intros i r Hi. destruct (Hful i r Hi) as [x Hx]. exists x.
      by eapply ext_status.
    + by exists n, σ', l, res.
Qed.

(** While [instantiate] does not return, a truthy cache is kept. *)
Lemma count_ext g σ σ' : ext σ σ' → count g (log σ) ≤ count g (log σ').
Proof. intros [_ [es ->]]. rewrite count_app. lia. Qed.

Lemma instance_kept_step l σ σ' :
  exec this instantiate l σ = Some σ' →
  truthy (_instance σ) = true →
  count is_return (log σ') = count is_return (log σ) →
  _instance σ' = _instance σ.
Proof.
  intros Hex Ht Hc. apply exec_cases in Hex
    as [[-> ->]|[(r & o & rs & -> & Hr & ->)|[(k & v & -> & Hcr)|(j & js & -> & Hq & ->)]]].
  - done.
  - apply settle_instance.
  - apply create_cases in Hcr as [(_ & _ & ->)|(Hf & _)]; [done|congruence].
  - set (σ1 := State (heap σ) js (_instance σ) (log σ)) in *.
    destruct (run_job_effect this instantiate j σ1)
      as [(p & args & vs & i & -> & Hargs & Hlog & Hinst)|[Hinst _]];
      [|exact Hinst].
    rewrite Hlog, count_app in Hc. unfold count at 2 in Hc.
    simpl in Hc. change (log σ1) with (log σ) in Hc. lia.
Qed.

Lemma instance_kept tr σ σ' :
  Inv σ → run this instantiate tr σ = Some σ' →
  truthy (_instance σ) = true →
  count is_return (log σ') = count is_return (log σ) →
  _instance σ' = _instance σ.
Proof.
  revert σ. induction tr as [|l tr IH]; intros σ HI; simpl.
  - by intros [= <-].
  - destruct (exec this instantiate l σ) as [σ1|] eqn:He; [|done]. simpl.
    intros Hrun Ht Hc.
    pose proof (Inv_exec this instantiate _ _ _ HI He) as HI1.
    pose proof (count_ext is_return _ _ (ext_exec this instantiate _ _ _ HI He)).
    pose proof (count_ext is_return _ _ (ext_run this instantiate _ _ _ HI1 Hrun)).
    assert (_instance σ1 = _instance σ) as H1
      by (eapply instance_kept_step; [done|done|lia]).
    rewrite <- H1. apply IH; [done|done|by rewrite H1|lia].
Qed.

Lemma returned_is_return p l : returned p l → 0 < count is_return l.
Proof.
  intros (args & i & Hin). unfold count.
  induction l as [|e l IH]; [by apply elem_of_nil in Hin|].
  apply elem_of_cons in Hin as [<-|Hin]; simpl; [lia|].
  specialize (IH Hin). destruct (is_return e); simpl; lia.
Qed.

(** A settled promise of a continuation whose [instantiate] has not
    returned: it never will. *)
Lemma not_returned_step l σ σ' p o :
  Inv σ → exec this instantiate l σ = Some σ' →
  kind_of σ p = Some KThen → status_of σ p = Some o →
  returned p (log σ') → returned p (log σ).
Proof.
  intros HI Hex Hk Hs Hret. apply exec_cases in Hex
    as [[-> ->]|[(r & o' & rs & -> & Hr & ->)|[(k & v & -> & Hcr)|(j & js & -> & Hq & ->)]]].
  - done.
  - by rewrite settle_log in Hret.
  - apply create_cases in Hcr as [(_ & _ & ->)|(_ & Hv & _ & ->)]; [done|].
    destruct (after_create_spec this k σ HI Hv) as (_ & _ & _ & _ & _ & Hlog & _).
    rewrite Hlog in Hret. destruct Hret as (args & i & Hin).
    apply elem_of_app in Hin as [Hin|Hin]; [by exists args, i|].
    by apply events_not_instantiate in Hin.
  - assert (tokens (settles p) σ = 0) as Hz.
    { pose proof (inv_settles _ HI p Hk) as H. unfold settled in H.
      rewrite Hs in H. lia. }
    set (σ1 := State (heap σ) js (_instance σ) (log σ)) in *.
    destruct (run_job_effect this instantiate j σ1)
      as [(p0 & args & vs & i & -> & Hargs & Hlog & Hinst)
         |[_ [Hlog|(p0 & args & vs & e & -> & Hlog)]]];
      rewrite Hlog in Hret.
    + destruct Hret as (args' & i' & Hin).
      apply elem_of_app in Hin as [Hin|Hin]; [exists args', i'; exact Hin|].
      apply elem_of_cons in Hin as [[= -> _ _]|Hin].
      * unfold tokens in Hz. rewrite Hq in Hz. simpl in Hz.
        rewrite decide_True in Hz by done. lia.
      * by apply list_elem_of_singleton in Hin.
    + exact Hret.
    + destruct Hret as (args' & i' & Hin).
      apply elem_of_app in Hin as [Hin|Hin]; [exists args', i'; exact Hin|].
      by apply list_elem_of_singleton in Hin.
Qed.

Lemma not_returned tr σ σ' p o :
  Inv σ → run this instantiate tr σ = Some σ' →
  kind_of σ p = Some KThen → status_of σ p = Some o →
  returned p (log σ') → returned p (log σ).
Proof.
  revert σ. induction tr as [|l tr IH]; intros σ HI; simpl.
  - by intros [= <-].
  - destruct (exec this instantiate l σ) as [σ1|] eqn:He; [|done]. simpl.
    intros Hrun Hk Hs Hret.
    pose proof (Inv_exec this instantiate _ _ _ HI He) as HI1.
    pose proof (ext_exec this instantiate _ _ _ HI He) as He1.
    eapply not_returned_step; [done..|].
    eapply IH; [done|done| | |done].
    + by eapply ext_kind_then.
    + by eapply ext_status.
Qed.

End Shared.

(** ** More about [create]: what the continuation leaves behind *)

Section Continuation.

Variable this : Spec.
Variable instantiate : nat → list value → result value.

Implicit Types (σ : state) (r p P : nat) (o : outcome) (rc : reaction)
  (c : cell) (k : Container) (tr : list label).

(** The job of a continuation whose [Promise.all] is fulfilled: it calls
    [instantiate] with the array of the [Promise.all], emits the
    instance when there is one, and the promise of the continuation gets
    the outcome that follows from the result. *)
Lemma job_then h p args js i l :
  Inv (State h ((RThen p, Fulfilled args) :: js) i l) →
  ∃ vs, args = VArray vs
    ∧ let res := instantiate (invocations l) vs in
      let σ' := run_job this instantiate (RThen p, Fulfilled args)
                  (State h js i l) in
      log σ' = l ++ EInstantiate p vs res
                 :: match res with Ok v => [EEmit v] | Throw _ => [] end
      ∧ (∀ o, outcome_of res p = Some o → status_of σ' p = Some o)
      ∧ (∀ q, res = Ok (VPromise q) → q < p → holds σ' q (RFollow p)).
Proof.
  intros HI.
  destruct (queue_head_legit _ _ _ _ _ _ HI)
    as (P & (-> & [inputs Ha] & Hk) & HsP).
  destruct Ha as (st & rs & slots & HP).
  assert (∃ vs, args = VArray vs) as [vs ->].
  { destruct (inv_all _ HI _ _ _ _ _ HP) as ((_ & _ & Hst) & _).
    unfold status_of in HsP. simpl in HsP, HP. rewrite HP in HsP.
    simpl in HsP. subst st. destruct Hst as (vs & -> & _). by exists vs. }
  exists vs. split; [done|].
  set (σ1 := State h js i l) in *.
  assert (status_of σ1 (S P) = None) as Hpend.
  { pose proof (inv_settles _ HI (S P) Hk) as H. rewrite tokens_pop in H.
    simpl in H. rewrite decide_True in H by done.
    unfold settled in H. change (status_of _ (S P)) with (status_of σ1 (S P)) in H.
    destruct (status_of σ1 (S P)); [lia|done]. }
  assert (S P < length (heap σ1)) as Hlt by by apply (kind_of_lt σ1 _ KThen).
  destruct (continuation_array this instantiate (S P) vs σ1)
    as (Hres & Hh & Hq & Hlog & _).
  simpl. destruct (continuation this instantiate (S P) (VArray vs) σ1)
    as [res σ2] eqn:Hcont. simpl in Hres, Hh, Hq, Hlog.
  rewrite <- Hres in *. clear Hres.
  assert (status_of σ2 (S P) = None) as Hpend2
    by (unfold status_of in *; by rewrite Hh).
  assert (S P < length (heap σ2)) as Hlt2 by by rewrite Hh.
  assert (∀ o, status_of (settle (S P) o σ2) (S P) = Some o) as Hset.
  { intros o. rewrite status_of_settle_eq by done. by rewrite Hpend2. }
  destruct res as [v|e].
  - rewrite resolve_log. split; [done|]. split.
    + intros o Ho. unfold resolve.
      destruct v; cbn [outcome_of thenable] in Ho |- *;
        try destruct (has_then _); try done;
        try (injection Ho as <-; apply Hset).
      case_decide; [|done]. injection Ho as <-. apply Hset.
    + intros q [= ->] Hqp. unfold resolve. rewrite decide_False by lia.
      apply holds_subscribe_new. lia.
  - rewrite settle_log. split; [done|]. split; [|done].
    intros o [= <-]. apply Hset.
Qed.

Lemma holds_promise_all inputs σ r rc :
  holds σ r rc → holds (promise_all inputs σ).2 r rc.
Proof.
  intros H. unfold promise_all, alloc. cbn [snd].
  assert (holds (foldl (subscribe_input (length (heap σ)))
                   (set_heap (heap σ ++ [Cell None [] (KAll inputs (slot_of <$> inputs))]) σ)
                   (imap pair inputs)) r rc) as H1.
  { apply holds_subscribe_inputs.
    apply (holds_alloc (Cell None [] (KAll inputs (slot_of <$> inputs))) σ _ _ H). }
  destruct (collect _); [by apply holds_settle|done].
Qed.

Lemma holds_then P σ r rc : holds σ r rc → holds (then_ P σ).2 r rc.
Proof.
  intros H. unfold then_, alloc. cbn [snd]. apply holds_subscribe.
  apply (holds_alloc (Cell None [] KThen) σ _ _ H).
Qed.

Lemma holds_after_create k σ r rc :
  holds σ r rc → holds (after_create this k σ) r rc.
Proof.
  intros H. unfold after_create.
  assert (holds (emit (zip_with EContainerCreate (dep_list this)
                         (imap k (dep_list this))) σ) r rc) as H0
    by by eapply holds_eq; [| |exact H].
  pose proof (holds_promise_all (imap k (dep_list this)) _ _ _ H0) as H1.
  apply (holds_then (promise_all (imap k (dep_list this))
                       (emit (zip_with EContainerCreate (dep_list this)
                                (imap k (dep_list this))) σ)).1) in H1.
  destruct (truthy (singleton this)); [|done].
  by eapply holds_eq; [| |exact H1].
Qed.

Lemma holds_run_job j σ r rc :
  holds σ r rc → holds (run_job this instantiate j σ) r rc.
Proof.
  intros H. destruct j as [[P i0|p|p] [v|e]]; simpl;
    try (by apply holds_fill); try (by apply holds_settle).
  destruct (continuation_heap this instantiate p v σ) as [Hh Hq].
  destruct (continuation this instantiate p v σ) as [[x|e] σ1]; simpl in *.
  - apply holds_resolve. by eapply holds_eq; [| |exact H].
  - apply holds_settle. by eapply holds_eq; [| |exact H].
Qed.

(** A reaction stays where it is until the event loop runs its job. *)
Lemma holds_exec l σ σ' r rc :
  exec this instantiate l σ = Some σ' → holds σ r rc →
  holds σ' r rc
  ∨ (l = LRun ∧ ∃ o js, queue σ = (rc, o) :: js ∧ status_of σ r = Some o).
Proof.
  intros Hex H. apply exec_cases in Hex
    as [[-> ->]|[(r0 & o & rs & -> & Hr & ->)|[(k & v & -> & Hc)|(j & js & -> & Hq & ->)]]].
  - left. by apply holds_alloc.
  - left. by apply holds_settle.
  - left. apply create_cases in Hc as [(_ & _ & ->)|(_ & _ & _ & ->)]; [done|].
    by apply holds_after_create.
  - destruct σ as [h q i lg]. simpl in *. subst q.
    apply holds_pop in H as [H|[H1 H2]].
    + left. by apply holds_run_job.
    + right. split; [done|]. destruct j as [rc' o]. simpl in *. subst rc'.
      by exists o, js.
Qed.

(** What a step adds to the log: nothing, the calls of the container of
    one call of [create], or the events of one continuation. *)
Lemma exec_log l σ σ' :
  Inv σ → exec this instantiate l σ = Some σ' →
  log σ' = log σ
  ∨ (∃ k, l = LCreate k ∧ truthy (_instance σ) = false
          ∧ σ' = after_create this k σ
          ∧ forallb (valid_value (heap σ)) (imap k (dep_list this)) = true
          ∧ log σ' = log σ ++ zip_with EContainerCreate (dep_list this)
                                (imap k (dep_list this)))
  ∨ (∃ p vs js, l = LRun
       ∧ queue σ = (RThen p, Fulfilled (VArray vs)) :: js
       ∧ let res := instantiate (invocations (log σ)) vs in
         log σ' = log σ ++ EInstantiate p vs res
                    :: match res with Ok v => [EEmit v] | Throw _ => [] end
         ∧ (∀ o, outcome_of res p = Some o → status_of σ' p = Some o)
         ∧ (∀ q, res = Ok (VPromise q) → q < p → holds σ' q (RFollow p))).
Proof.
  intros HI Hex. apply exec_cases in Hex
    as [[-> ->]|[(r & o & rs & -> & Hr & ->)|[(k & v & -> & Hc)|(j & js & -> & Hq & ->)]]].
  - by left.
  - left. apply settle_log.
  - apply create_cases in Hc as [(_ & _ & ->)|(Hf & Hv & _ & ->)]; [by left|].
    right; left. exists k. split; [done|]. split; [done|]. split; [done|].
    split; [done|].
    by destruct (after_create_spec this k σ HI Hv) as (_ & _ & _ & _ & _ & Hlog & _).
  - destruct σ as [h q i lg]. simpl in *. subst q.
    destruct j as [[P i0|p|p] [v|e]]; simpl;
      rewrite ?fill_log, ?settle_log; try by left.
    right; right. destruct (job_then h p v js i lg HI) as (vs & -> & Hlog & Hst & Hfo).
    by exists p, vs, js.
Qed.

Lemma is_all_back σ σ' P inputs :
  ext σ σ' → P < length (heap σ) → is_all σ' P inputs → is_all σ P inputs.
Proof.
  intros [He _] Hlt (st & rs & slots & HP').
  apply lookup_lt_is_Some in Hlt as [[st0 rs0 k0] Hc].
  destruct (He _ _ Hc) as (c' & Hc' & Hk & _).
  rewrite HP' in Hc'. injection Hc' as <-. simpl in Hk.
  destruct k0; try done. simpl in Hk. subst. unfold is_all. eauto.
Qed.

Lemma exec_length l σ σ' :
  Inv σ → exec this instantiate l σ = Some σ' →
  length (heap σ') = length (heap σ)
  ∨ (l = LNew ∧ length (heap σ') = S (length (heap σ))
     ∧ kind_of σ' (length (heap σ)) = Some KExternal)
  ∨ (∃ k, l = LCreate k ∧ length (heap σ') = S (S (length (heap σ)))
          ∧ is_all σ' (length (heap σ)) (imap k (dep_list this))
          ∧ kind_of σ' (S (length (heap σ))) = Some KThen).
Proof.
  intros HI Hex. apply exec_cases in Hex
    as [[-> ->]|[(r & o & rs & -> & Hr & ->)|[(k & v & -> & Hc)|(j & js & -> & Hq & ->)]]].
  - right; left. split; [done|]. simpl. rewrite length_app. simpl.
    split; [lia|]. unfold kind_of. simpl.
    by rewrite lookup_app_r, Nat.sub_diag by lia.
  - left. apply settle_length.
  - apply create_cases in Hc as [(_ & _ & ->)|(Hf & Hv & _ & ->)]; [by left|].
    right; right. exists k. split; [done|].
    by destruct (after_create_spec this k σ HI Hv) as (_ & _ & Ha & Hk & Hlen & _).
  - left. by rewrite run_job_length.
Qed.

Lemma LogInv_init : LogInv this instantiate init.
Proof.
  split.
  - intros p l res H. by apply elem_of_nil in H.
  - intros p l res o H. by apply elem_of_nil in H.
  - intros P inputs (st & rs & slots & H). done.
  - intros p l q H. by apply elem_of_nil in H.
Qed.

Lemma follow_step l σ σ' p q :
  Inv σ → exec this instantiate l σ = Some σ' →
  kind_of σ p = Some KThen → q < p →
  holds σ q (RFollow p)
  ∨ (∃ o, status_of σ q = Some o ∧ status_of σ p = Some o) →
  holds σ' q (RFollow p)
  ∨ (∃ o, status_of σ' q = Some o ∧ status_of σ' p = Some o).
Proof.
  intros HI Hex Hk Hlt [H|(o & Hq & Hp)].
  - destruct (holds_exec _ _ _ _ _ Hex H) as [H'|(-> & o & js & Hqu & Hs)];
      [by left|].
    right. exists o. simpl in Hex. rewrite Hqu in Hex. injection Hex as <-.
    pose proof (inv_settles _ HI p Hk) as Ht.
    destruct σ as [h qu i lg]. simpl in *. subst qu.
    rewrite tokens_pop in Ht. simpl in Ht. rewrite decide_True in Ht by done.
    set (σ1 := State h js i lg) in *.
    assert (status_of σ1 p = None) as Hpend.
    { unfold settled in Ht. change (status_of _ p) with (status_of σ1 p) in Ht.
      destruct (status_of σ1 p); [lia|done]. }
    split.
    + rewrite status_of_settle_ne by lia. exact Hs.
    + rewrite status_of_settle_eq by by apply (kind_of_lt σ1 _ KThen).
      by rewrite Hpend.
  - right. exists o. pose proof (ext_exec this instantiate _ _ _ HI Hex) as He.
    split; by eapply ext_status.
Qed.

Lemma LogInv_exec l σ σ' :
  Inv σ → LogInv this instantiate σ →
  exec this instantiate l σ = Some σ' → LogInv this instantiate σ'.
Proof.
  intros HI HL Hex.
  pose proof (ext_exec this instantiate _ _ _ HI Hex) as He.
  pose proof (exec_log _ _ _ HI Hex) as Hlog.
  pose proof (exec_length _ _ _ HI Hex) as Hlen.
  split.
  - intros p l0 res Hin.
    destruct Hlog as [Hlog|[(k & _ & _ & _ & _ & Hlog)|(p0 & vs & js & _ & _ & Hlog & _)]];
      rewrite Hlog in Hin.
    + by eapply log_result.
    + apply elem_of_app in Hin as [Hin|Hin]; [by eapply log_result|].
      by apply events_not_instantiate in Hin.
    + apply elem_of_app in Hin as [Hin|Hin]; [by eapply log_result|].
      apply elem_of_cons in Hin as [[= -> -> ->]|Hin]; [by eexists|].
      destruct (instantiate _ vs); [|by apply elem_of_nil in Hin].
      by apply list_elem_of_singleton in Hin.
  - intros p l0 res o Hin Ho.
    destruct Hlog as [Hlog|[(k & _ & _ & _ & _ & Hlog)|(p0 & vs & js & _ & _ & Hlog & Hst & _)]];
      rewrite Hlog in Hin.
    + eapply ext_status; [done|]. by eapply log_outcome.
    + apply elem_of_app in Hin as [Hin|Hin].
      * eapply ext_status; [done|]. by eapply log_outcome.
      * by apply events_not_instantiate in Hin.
    + apply elem_of_app in Hin as [Hin|Hin].
      * eapply ext_status; [done|]. by eapply log_outcome.
      * apply elem_of_cons in Hin as [[= -> -> ->]|Hin]; [by apply Hst|].
        destruct (instantiate _ vs); [|by apply elem_of_nil in Hin].
        by apply list_elem_of_singleton in Hin.
  - intros P inputs Ha.
    destruct (decide (P < length (heap σ))) as [Hlt|Hge].
    { eapply log_arity; [done|]. by eapply is_all_back. }
    assert (P < length (heap σ')) as Hlt'.
    { destruct Ha as (? & ? & ? & Hc). by apply lookup_lt_Some in Hc. }
    destruct Hlen as [Hlen|[(_ & Hlen & Hk)|(k & _ & Hlen & Ha' & Hk)]].
    + lia.
    + assert (P = length (heap σ)) as -> by lia.
      apply is_all_kind in Ha as [slots Hs]. congruence.
    + destruct (decide (P = length (heap σ))) as [->|Hne].
      * destruct Ha as (? & ? & ? & Hc), Ha' as (? & ? & ? & Hc').
        rewrite Hc in Hc'. injection Hc' as _ _ -> _. apply length_imap.
      * assert (P = S (length (heap σ))) as -> by lia.
        apply is_all_kind in Ha as [slots Hs]. congruence.
  - intros p l0 q Hin Hlt.
    assert (EInstantiate p l0 (Ok (VPromise q)) ∈ log σ →
            holds σ' q (RFollow p)
            ∨ (∃ o, status_of σ' q = Some o ∧ status_of σ' p = Some o)) as Hold.
    { intros Hin0. eapply follow_step; [done|done| |done|by eapply log_follow].
      by destruct (inv_log _ HI _ _ _ Hin0). }
    destruct Hlog as [Hlog|[(k & _ & _ & _ & _ & Hlog)|(p0 & vs & js & _ & _ & Hlog & _ & Hfo)]];
      rewrite Hlog in Hin.
    + by apply Hold.
    + apply elem_of_app in Hin as [Hin|Hin]; [by apply Hold|].
      by apply events_not_instantiate in Hin.
    + apply elem_of_app in Hin as [Hin|Hin]; [by apply Hold|].
      apply elem_of_cons in Hin as [[= -> -> Hres]|Hin].
      * left. by apply Hfo.
      * destruct (instantiate _ vs); [|by apply elem_of_nil in Hin].
        by apply list_elem_of_singleton in Hin.
Qed.

Lemma LogInv_run tr σ σ' :
  Inv σ → LogInv this instantiate σ →
  run this instantiate tr σ = Some σ' → LogInv this instantiate σ'.
Proof.
  revert σ. induction tr as [|l tr IH]; intros σ HI HL; simpl.
  - by intros [= <-].
  - destruct (exec this instantiate l σ) as [σ1|] eqn:He; [|done]. simpl.
    apply IH; [by eapply Inv_exec|by eapply LogInv_exec].
Qed.

Lemma reach_log tr σ :
  run this instantiate tr init = Some σ → LogInv this instantiate σ.
Proof.
  intros H. eapply LogInv_run; [apply Inv_init|apply LogInv_init|done].
Qed.

End Continuation.

(** ** The dependencies of a call, and a cache that holds a falsy instance *)

Section Idle.

Variable this : Spec.
Variable instantiate : nat → list value → result value.

Implicit Types (σ : state) (r p P : nat) (o : outcome) (rc : reaction)
  (c : cell) (k : Container) (tr : list label).

(** What the loop walks, for the two usual shapes of [dependencies]:
    the elements of an array, and the characters of a string. *)
Lemma walk_shapes ds :
  walk (dependencies this) = Some ds →
  (∀ l, dependencies this = VArray l → ds = l)
  ∧ (∀ s, dependencies this = VString s →
       ds = (λ ch, VString (String ch "")) <$> list_ascii_of_string s).
Proof.
  intros Hw. split.
  - intros l Hl. rewrite Hl in Hw. by injection Hw.
  - intros s Hs. rewrite Hs in Hw. by injection Hw.
Qed.

Lemma falsy_le_invocations (l : list event) :
  count is_falsy_return l ≤ invocations l.
Proof.
  unfold count, invocations. induction l as [|e l IH]; simpl; [lia|].
  destruct e as [| q a [i|] |]; simpl; try lia. destruct (truthy i); simpl; lia.
Qed.

Lemma count_le_1 (g : event → bool) (l : list event) e e' :
  count g l ≤ 1 → e ∈ l → e' ∈ l → g e = true → g e' = true → e = e'.
Proof.
  unfold count. induction l as [|x l IH]; intros Hc He He' Hg Hg';
    [by apply elem_of_nil in He|].
  simpl in Hc.
  assert (∀ y, y ∈ l → g y = true → 0 < length (List.filter g l)) as Hpos.
  { intros y Hy Hgy. apply list_elem_of_In in Hy.
    assert (In y (List.filter g l)) as Hin by by apply List.filter_In.
    destruct (List.filter g l); [done|simpl; lia]. }
  apply elem_of_cons in He as [->|He]; apply elem_of_cons in He' as [->|He'].
  - done.
  - rewrite Hg in Hc. simpl in Hc. pose proof (Hpos _ He' Hg'). lia.
  - rewrite Hg' in Hc. simpl in Hc. pose proof (Hpos _ He Hg). lia.
  - apply IH; try done. destruct (g x); simpl in Hc; lia.
Qed.

(** A continuation calls [instantiate] once. *)
Lemma unique_invocation σ p a1 res1 a2 res2 :
  Inv σ → EInstantiate p a1 res1 ∈ log σ → EInstantiate p a2 res2 ∈ log σ →
  a1 = a2 ∧ res1 = res2.
Proof.
  intros HI H1 H2. pose proof (inv_once _ HI p) as Hc.
  assert (EInstantiate p a1 res1 = EInstantiate p a2 res2) as [= -> ->]; [|done].
  apply (count_le_1 (invoked_by p) (log σ)); try done; try lia;
    simpl; by apply bool_decide_eq_true.
Qed.

(** With no continuation waiting, a step that is not a call of
    [create] changes neither the cache nor the log. *)
Lemma idle_step l σ σ' :
  exec this instantiate l σ = Some σ' →
  (∀ k, l ≠ LCreate k) → tokens is_then σ = 0 →
  _instance σ' = _instance σ ∧ log σ' = log σ ∧ tokens is_then σ' = 0.
Proof.
  intros Hex Hl Hz. apply exec_cases in Hex
    as [[-> ->]|[(r & o & rs & -> & Hr & ->)|[(k & v & -> & Hc)|(j & js & -> & Hq & ->)]]].
  - rewrite tokens_alloc. simpl. split; [done|]. split; [done|lia].
  - by rewrite settle_instance, settle_log, tokens_settle.
  - by destruct (Hl k).
  - destruct σ as [h q i lg]. simpl in *. subst q.
    rewrite tokens_pop in Hz.
    assert (tokens is_then (State h js i lg) = 0) as Hz' by lia.
    destruct j as [[P i0|p|p] [v|e]]; simpl in Hz |- *; try lia;
      by rewrite ?fill_instance, ?fill_log, ?tokens_fill,
           ?settle_instance, ?settle_log, ?tokens_settle.
Qed.

Lemma creates_cons l tr :
  creates (l :: tr) = 0 → (∀ k, l ≠ LCreate k) ∧ creates tr = 0.
Proof. unfold creates. destruct l; simpl; try done. Qed.

Lemma idle_run tr σ σ' :
  run this instantiate tr σ = Some σ' →
  creates tr = 0 → tokens is_then σ = 0 →
  _instance σ' = _instance σ ∧ log σ' = log σ.
Proof.
  revert σ. induction tr as [|l tr IH]; intros σ; simpl.
  - by intros [= <-].
  - destruct (exec this instantiate l σ) as [σ1|] eqn:He; [|done]. simpl.
    intros Hr Hc Hz. apply creates_cons in Hc as [Hl Hc].
    destruct (idle_step _ _ _ He Hl Hz) as (Hi & Hlog & Hz1).
    destruct (IH σ1 Hr Hc Hz1) as [Hi' Hl']. split; congruence.
Qed.

(** For a singleton, the continuation at the head of the queue is the
    one whose promise is in the cache. *)
Lemma head_is_cached h p o js i lg :
  truthy (singleton this) = true →
  Inv (State h ((RThen p, o) :: js) i lg) →
  SInv this (State h ((RThen p, o) :: js) i lg) →
  i = VPromise p.
Proof.
  intros Hs HI HS.
  destruct (inv_legit _ HI) as [_ H2].
  destruct (H2 (RThen p) o) as (r & (_ & _ & Hk) & _); [by left|].
  destruct (sinv_current _ _ HS Hs p Hk) as [Hret|Hi]; [|done].
  pose proof (inv_once _ HI p) as Hc. rewrite tokens_pop in Hc. simpl in Hc.
  unfold then_of in Hc at 1. rewrite decide_True in Hc by done.
  pose proof (returned_invoked _ _ Hret). simpl in *. lia.
Qed.

(** The cache of a singleton after the continuation of the cached
    promise has returned a falsy instance, as long as nobody calls
    [create]: it holds that instance. *)
Lemma falsy_cached_run tr σ σ' p0 args i :
  truthy (singleton this) = true →
  Inv σ → SInv this σ →
  run this instantiate tr σ = Some σ' → creates tr = 0 →
  _instance σ = VPromise p0 → ¬ returned p0 (log σ) →
  EInstantiate p0 args (Ok i) ∈ log σ' → truthy i = false →
  _instance σ' = i.
Proof.
  intros Hs. revert σ. induction tr as [|l tr IH]; intros σ HI HS; simpl.
  - intros [= <-] _ _ Hnr Hin _. destruct Hnr. by exists args, i.
  - destruct (exec this instantiate l σ) as [σ1|] eqn:He; [|done]. simpl.
    intros Hr Hc Hi Hnr Hin Hf. apply creates_cons in Hc as [Hl Hc].
    pose proof (Inv_exec this instantiate _ _ _ HI He) as HI1.
    pose proof (SInv_exec this instantiate _ _ _ HI HS He) as HS1.
    assert (_instance σ1 = _instance σ ∧ ¬ returned p0 (log σ1) →
            _instance σ' = i) as Hnext.
    { intros [Hi1 Hnr1]. eapply (IH σ1); try done. by rewrite Hi1. }
    apply exec_cases in He
      as [[-> ->]|[(r & o & rs & -> & Hq & ->)|[(k & v & -> & Hcr)|(j & js & -> & Hq & ->)]]].
    + by apply Hnext.
    + apply Hnext. by rewrite settle_instance, settle_log.
    + by destruct (Hl k).
    + destruct σ as [h q i0 lg]. simpl in Hq, Hi, Hnr. subst q i0.
      cbn [heap _instance log] in *.
      set (σa := State h js (VPromise p0) lg) in *.
      destruct (run_job_effect this instantiate j σa)
        as [(p & args' & vs & i' & -> & Hargs & Hlog & Hinst)|[Hinst [Hlog|(p & args' & vs & e & -> & Hlog)]]].
      * pose proof (head_is_cached _ _ _ _ _ _ Hs HI HS) as [= <-].
        rewrite Hs in Hinst.
        assert (EInstantiate p0 vs (Ok i') ∈ log σ') as Hin'.
        { destruct (ext_run this instantiate _ _ _ HI1 Hr) as [_ [es ->]].
          rewrite Hlog. apply elem_of_app. left. apply elem_of_app. right.
          by left. }
        pose proof (Inv_run this instantiate _ _ _ HI1 Hr) as HI'.
        destruct (unique_invocation _ _ _ _ _ _ HI' Hin Hin') as [_ [= <-]].
        assert (tokens is_then (run_job this instantiate
                  (RThen p0, Fulfilled args') σa) = 0) as Hz.
        { pose proof (sinv_count _ _ HS1 Hs) as Hcount.
          rewrite Hinst, Hf in Hcount.
          pose proof (falsy_le_invocations
                        (log (run_job this instantiate (RThen p0, Fulfilled args') σa))).
          lia. }
        destruct (idle_run _ _ _ Hr Hc Hz) as [Hi' _]. by rewrite Hi', Hinst.
      * apply Hnext. rewrite Hinst, Hlog. done.
      * apply Hnext. rewrite Hinst, Hlog. split; [done|].
        intros (a1 & i1 & Hret). apply elem_of_app in Hret as [Hret|Hret].
        -- apply Hnr. by exists a1, i1.
        -- by apply list_elem_of_singleton in Hret.
Qed.

End Idle.

(** The loop on an array-like object and on a function: as many rounds
    as [length] says, a missing index property reads as [undefined]. *)
Lemma walk_array_like :
  walk (VObject (<["0" := VString "a"]> {["length" := VNumber (S754_finite false 1 1)]}))
    = Some [VString "a"; VUndefined]
  ∧ walk (VFunction 2 {["1" := VString "b"]}) = Some [VUndefined; VString "b"]
  ∧ walk (VObject {["length" := VNumber (S754_finite false 5 (-1))]})
    = Some [VUndefined; VUndefined; VUndefined].
Proof. split_and!; vm_compute; reflexivity. Qed.

(** Where the loop does not come to an end, [create] has no result:
    [undefined] as dependencies (reading [length] throws) and a [length]
    of [Infinity]. *)
Lemma create_without_result (k : Container) (single : value) :
  create (ex_require single VUndefined) k init = None
  ∧ create (ex_require single
              (VObject {["length" := VNumber (S754_infinity false)]})) k init
    = None.
Proof. split; reflexivity. Qed.

(** ** The claims about [create] *)

Section Claims.

Variable this : Spec.
Variable instantiate : nat → list value → result value.

Implicit Types (σ : state) (r p P : nat) (o : outcome) (rc : reaction)
  (c : cell) (k : Container) (tr : list label).

Local Abbreviation run := (run this instantiate).
Local Abbreviation deps := (dep_list this).

(** C1, as the code has it: for a singleton, every call of [create]
    made before [instantiate] has returned receives the same promise,
    the one of the continuation, and changes nothing; and [instantiate]
    is called at most once more than the number of falsy instances it
    has returned (at most once as long as what it returns is truthy). *)
Theorem singleton_coalescing :
  truthy (singleton this) = true →
  (∀ tr1 σ1 k1 v1 σ1' tr2 σ2 k2,
      run tr1 init = Some σ1 →
      create this k1 σ1 = Some (v1, σ1') →
      run tr2 σ1' = Some σ2 →
      count is_return (log σ2) = 0 →
      (∃ p, v1 = VPromise p ∧ kind_of σ2 p = Some KThen)
      ∧ create this k2 σ2 = Some (v1, σ2))
  ∧ (∀ tr σ, run tr init = Some σ →
       invocations (log σ) ≤ 1 + count is_falsy_return (log σ)).
Proof.
  intros Hs. split.
  - intros tr1 σ1 k1 v1 σ1' tr2 σ2 k2 Hr1 Hc Hr2 Hnone.
    destruct (reach this instantiate _ _ Hr1) as [HI1 HS1].
    assert (Inv σ1' ∧ ext σ1 σ1'
            ∧ ∃ p, v1 = VPromise p ∧ _instance σ1' = VPromise p
                   ∧ kind_of σ1' p = Some KThen) as (HI1' & He1 & p & -> & Hi & Hk).
    { apply create_cases in Hc as [(Ht & -> & ->)|(Hf & Hv & -> & ->)].
      - split; [done|]. split; [apply ext_refl|].
        destruct (sinv_cache _ _ HS1) as [H|[(p & H & Hk)|(p & args & H)]].
        + by rewrite H in Ht.
        + by exists p.
        + assert (returned p (log σ1)) as Hret by by eexists _, _.
          apply returned_is_return in Hret.
          pose proof (count_ext is_return _ _
                        (ext_run this instantiate _ _ _ HI1 Hr2)). lia.
      - destruct (after_create_spec this k1 σ1 HI1 Hv)
          as (HI' & He' & _ & Hk & _ & _ & Hinst & _).
        split; [done|]. split; [done|]. eexists. split; [done|].
        rewrite Hinst, Hs. by split. }
    pose proof (ext_run this instantiate _ _ _ HI1' Hr2) as He2.
    assert (_instance σ2 = VPromise p) as Hi2.
    { rewrite <- Hi. eapply (instance_kept this instantiate); [done|done| |].
      - by rewrite Hi.
      - pose proof (count_ext is_return _ _ He2). lia. }
    split.
    + exists p. split; [done|]. by eapply ext_kind_then.
    + rewrite create_fast by by rewrite Hi2. by rewrite Hi2.
  - intros tr σ Hr. destruct (reach this instantiate _ _ Hr) as [HI HS].
    pose proof (sinv_count _ _ HS Hs) as H.
    destruct (truthy (_instance σ)); lia.
Qed.

(** C2: a call of [create] that resolves its dependencies, one of which
    is rejected.  The event loop comes to rest by itself, whatever the
    other dependencies do; at rest the promise that [create] returned is
    rejected with the reason of a rejected dependency, the one given
    when no other is rejected; and [instantiate] is never called for
    it. *)
Theorem dependency_rejection tr0 σ0 k v σ1 tr1 σ i r e :
  run tr0 init = Some σ0 →
  truthy (_instance σ0) = false →
  create this k σ0 = Some (v, σ1) →
  run tr1 σ1 = Some σ →
  imap k deps !! i = Some (VPromise r) →
  status_of σ r = Some (Rejected e) →
  ∃ p, v = VPromise p
    ∧ (∃ n σ', run (replicate n LRun) σ = Some σ' ∧ queue σ' = [])
    ∧ ∀ tr2 σ2, run tr2 σ = Some σ2 →
        (∀ l res, EInstantiate p l res ∉ log σ2)
        ∧ (queue σ2 = [] →
           (∃ i' r' e', imap k deps !! i' = Some (VPromise r')
                        ∧ status_of σ2 r' = Some (Rejected e')
                        ∧ status_of σ2 p = Some (Rejected e'))
           ∧ ((∀ i' r' e', imap k deps !! i' = Some (VPromise r') →
                 status_of σ2 r' = Some (Rejected e') → e' = e) →
              status_of σ2 p = Some (Rejected e))).
Proof.
  intros Hr0 Hf Hc Hr1 Hi Hrej.
  destruct (reach this instantiate _ _ Hr0) as [HI0 _].
  apply create_cases in Hc as [(Ht & _)|(_ & Hv & -> & ->)]; [congruence|].
  destruct (create_then_invoked this instantiate σ0 k tr1 σ HI0 Hv Hr1)
    as (HI & Ha & _).
  eexists. split; [done|]. split; [apply drain|].
  intros tr2 σ2 Hr2.
  pose proof (Inv_run this instantiate _ _ _ HI Hr2) as HI2.
  pose proof (ext_run this instantiate _ _ _ HI Hr2) as He2.
  assert (is_all σ2 (length (heap σ0)) (imap k deps)) as Ha2
    by by eapply ext_is_all.
  assert (status_of σ2 r = Some (Rejected e)) as Hrej2 by by eapply ext_status.
  split.
  - intros l res. by eapply rejected_not_invoked.
  - intros Hq.
    destruct (at_rest_rejected σ2 _ _ i r e HI2 Hq Ha2 Hi Hrej2)
      as (i' & r' & e' & Hi' & Hr' & _ & Hp).
    split; [by exists i', r', e'|].
    intros Hall. by rewrite <- (Hall i' r' e' Hi' Hr').
Qed.

(** C3: a call of [create] that resolves its dependencies.  The loop
    asks the container for the values [ds] that it walks in
    [dependencies] (the elements of an array, the characters of a
    string), in that order.  Whenever the continuation calls
    [instantiate], the arguments are the values these requests were
    fulfilled with, in the same order, whatever the order in which they
    settled; and once they are all fulfilled the call is made: it has
    been made when the event loop is at rest, and the event loop gets
    there by itself. *)
Theorem positional_arguments tr0 σ0 k v σ1 tr1 σ :
  run tr0 init = Some σ0 →
  truthy (_instance σ0) = false →
  create this k σ0 = Some (v, σ1) →
  run tr1 σ1 = Some σ →
  ∃ ds p, walk (dependencies this) = Some ds
    ∧ (∀ l, dependencies this = VArray l → ds = l)
    ∧ (∀ s, dependencies this = VString s →
         ds = (λ ch, VString (String ch "")) <$> list_ascii_of_string s)
    ∧ v = VPromise p
    ∧ log σ1 = log σ0 ++ zip_with EContainerCreate ds (imap k ds)
    ∧ (∀ l res, EInstantiate p l res ∈ log σ →
         Forall2 (resolved σ) (imap k ds) l)
    ∧ ((∀ i r, imap k ds !! i = Some (VPromise r) →
          ∃ x, status_of σ r = Some (Fulfilled x)) →
       (queue σ = [] →
        ∃ l res, EInstantiate p l res ∈ log σ
                 ∧ Forall2 (resolved σ) (imap k ds) l)
       ∧ ∃ n σ' l res,
           run (replicate n LRun) σ = Some σ'
           ∧ EInstantiate p l res ∈ log σ'
           ∧ Forall2 (resolved σ') (imap k ds) l).
Proof.
  intros Hr0 Hf Hc Hr1.
  destruct (reach this instantiate _ _ Hr0) as [HI0 _].
  pose proof (create_walk this _ _ _ _ Hc Hf) as Hw.
  destruct (walk_shapes this _ Hw) as [Hpa Hps].
  apply create_cases in Hc as [(Ht & _)|(_ & Hv & -> & ->)]; [congruence|].
  destruct (after_create_spec this k σ0 HI0 Hv)
    as (_ & _ & _ & _ & _ & Hlog & _).
  destruct (create_then_invoked this instantiate σ0 k tr1 σ HI0 Hv Hr1)
    as (HI & Ha & Hsafe & Hlive).
  exists (dep_list this). eexists.
  split; [done|]. split; [done|]. split; [done|]. split; [done|].
  split; [done|]. split; [done|]. intros Hful.
  split; [|by apply Hlive].
  intros Hq. by apply at_rest_fulfilled.
Qed.

(** C4, as the code has it: for a singleton, a promise of [create] that
    is rejected without [instantiate] having returned (a dependency was
    rejected, or [instantiate] threw) stays in the cache for ever: every
    later call of [create] returns it, still rejected, and changes
    nothing, so neither the container nor [instantiate] is called. *)
Theorem rejection_cached tr σ p e tr' σ' k :
  truthy (singleton this) = true →
  run tr init = Some σ →
  kind_of σ p = Some KThen →
  status_of σ p = Some (Rejected e) →
  ¬ returned p (log σ) →
  run tr' σ = Some σ' →
  _instance σ' = VPromise p
  ∧ status_of σ' p = Some (Rejected e)
  ∧ create this k σ' = Some (VPromise p, σ').
Proof.
  intros Hs Hr Hk Hst Hnr Hr'.
  destruct (reach this instantiate _ _ Hr) as [HI HS].
  pose proof (Inv_run this instantiate _ _ _ HI Hr') as HI'.
  pose proof (SInv_run this instantiate _ _ _ HI HS Hr') as HS'.
  pose proof (ext_run this instantiate _ _ _ HI Hr') as He.
  assert (_instance σ' = VPromise p) as Hi.
  { assert (kind_of σ' p = Some KThen) as Hk' by by eapply ext_kind_then.
    destruct (sinv_current _ _ HS' Hs p Hk') as [Hret|Hi]; [|done].
    destruct Hnr. by eapply (not_returned this instantiate). }
  split; [done|]. split; [by eapply ext_status|].
  rewrite create_fast by by rewrite Hi. by rewrite Hi.
Qed.

(** C5, as the code has it: a call of [create] whose loop over the
    dependencies comes to an end and whose container hands out existing
    promises returns; what it returns is the promise of a continuation,
    or, on the fast path once a truthy instance is cached, that
    instance itself, as [instantiate] returned it, and not a promise of
    it. *)
Theorem create_returns tr σ k :
  run tr init = Some σ →
  walk (dependencies this) = Some deps →
  forallb (valid_value (heap σ)) (imap k deps) = true →
  ∃ v σ', create this k σ = Some (v, σ')
    ∧ ((∃ p, v = VPromise p ∧ kind_of σ' p = Some KThen)
       ∨ (σ' = σ ∧ v = _instance σ ∧ truthy v = true
          ∧ ∃ p args, EInstantiate p args (Ok v) ∈ log σ)).
Proof.
  intros Hr Hw Hv. destruct (reach this instantiate _ _ Hr) as [HI HS].
  destruct (truthy (_instance σ)) eqn:Ht.
  - exists (_instance σ), σ. split; [by apply create_fast|].
    destruct (sinv_cache _ _ HS) as [H|[(p & H & Hk)|(p & args & H)]].
    + by rewrite H in Ht.
    + left. by exists p.
    + right. split; [done|]. split; [done|]. split; [done|]. by exists p, args.
  - eexists _, _. split; [by apply (create_valid this k σ deps)|].
    left. eexists. split; [done|].
    by destruct (after_create_spec this k σ HI Hv) as (_ & _ & _ & Hk & _).
Qed.

(** C9: a specification that is not a singleton never fills
    [_instance]; each of two calls of [create] asks the container for
    every value [ds] that the loop walks in [dependencies] (the
    elements of an array, the characters of a string) and gets a
    promise of its own; each continuation calls [instantiate] with the
    values of the requests of its own call, and once these are all
    fulfilled both calls are made. *)
Theorem non_singleton_independence :
  truthy (singleton this) = false →
  (∀ tr σ, run tr init = Some σ → _instance σ = VUndefined)
  ∧ ∀ tr0 σ0 k1 v1 σ1 tr1 σ2 k2 v2 σ3 tr2 σ,
      run tr0 init = Some σ0 →
      create this k1 σ0 = Some (v1, σ1) →
      run tr1 σ1 = Some σ2 →
      create this k2 σ2 = Some (v2, σ3) →
      run tr2 σ3 = Some σ →
      ∃ ds p1 p2, walk (dependencies this) = Some ds
        ∧ (∀ l, dependencies this = VArray l → ds = l)
        ∧ (∀ s, dependencies this = VString s →
             ds = (λ ch, VString (String ch "")) <$> list_ascii_of_string s)
        ∧ v1 = VPromise p1 ∧ v2 = VPromise p2 ∧ p1 ≠ p2
        ∧ log σ1 = log σ0 ++ zip_with EContainerCreate ds (imap k1 ds)
        ∧ log σ3 = log σ2 ++ zip_with EContainerCreate ds (imap k2 ds)
        ∧ (∀ l res, EInstantiate p1 l res ∈ log σ →
             Forall2 (resolved σ) (imap k1 ds) l)
        ∧ (∀ l res, EInstantiate p2 l res ∈ log σ →
             Forall2 (resolved σ) (imap k2 ds) l)
        ∧ ((∀ i r, imap k1 ds !! i = Some (VPromise r)
                   ∨ imap k2 ds !! i = Some (VPromise r) →
              ∃ x, status_of σ r = Some (Fulfilled x)) →
           ∃ n σ' l1 res1 l2 res2,
             run (replicate n LRun) σ = Some σ'
             ∧ EInstantiate p1 l1 res1 ∈ log σ'
             ∧ EInstantiate p2 l2 res2 ∈ log σ'
             ∧ Forall2 (resolved σ') (imap k1 ds) l1
             ∧ Forall2 (resolved σ') (imap k2 ds) l2).
Proof.
  intros Hs. split.
  - intros tr σ Hr. destruct (reach this instantiate _ _ Hr) as [_ HS].
    by apply (sinv_plain _ _ HS).
  - intros tr0 σ0 k1 v1 σ1 tr1 σ2 k2 v2 σ3 tr2 σ Hr0 Hc1 Hr1 Hc2 Hr2.
    destruct (reach this instantiate _ _ Hr0) as [HI0 HS0].
    pose proof (sinv_plain _ _ HS0 Hs) as Hu0.
    assert (walk (dependencies this) = Some deps) as Hw
      by (eapply create_walk; [exact Hc1|by rewrite Hu0]).
    destruct (walk_shapes this _ Hw) as [Hpa Hps].
    assert (SInv this σ1) as HS1.
    { eapply (SInv_exec this instantiate (LCreate k1)); [exact HI0|exact HS0|].
      simpl. by rewrite Hc1. }
    apply create_cases in Hc1 as [(Ht & _)|(_ & Hv1 & -> & ->)];
      [by rewrite Hu0 in Ht|].
    destruct (after_create_spec this k1 σ0 HI0 Hv1)
      as (HI1 & He1 & Ha1 & _ & Hlen1 & Hlog1 & _).
    pose proof (Inv_run this instantiate _ _ _ HI1 Hr1) as HI2.
    pose proof (ext_run this instantiate _ _ _ HI1 Hr1) as He2.
    assert (SInv this σ2) as HS2
      by (eapply (SInv_run this instantiate); [exact HI1|exact HS1|exact Hr1]).
    pose proof (sinv_plain _ _ HS2 Hs) as Hu2.
    apply create_cases in Hc2 as [(Ht & _)|(_ & Hv2 & -> & ->)];
      [by rewrite Hu2 in Ht|].
    destruct (after_create_spec this k2 σ2 HI2 Hv2)
      as (HI3 & He3 & Ha3 & _ & _ & Hlog3 & _).
    destruct (create_then_invoked this instantiate σ2 k2 tr2 σ HI2 Hv2 Hr2)
      as (HI & Ha & Hsafe2 & _).
    pose proof (ext_run this instantiate _ _ _ HI3 Hr2) as He.
    assert (ext (after_create this k1 σ0) σ) as He13
      by (eapply ext_trans; [done|]; by eapply ext_trans).
    assert (is_all σ (length (heap σ0)) (imap k1 deps)) as Ha1'
      by by eapply ext_is_all.
    pose proof (ext_length _ _ He2) as Hlen2. rewrite Hlen1 in Hlen2.
    exists deps. eexists _, _.
    split; [done|]. split; [done|]. split; [done|].
    split; [done|]. split; [done|].
    split; [lia|]. split; [done|]. split; [done|].
    split; [intros l res Hin; by eapply invoked_aligned|].
    split; [done|].
    intros Hful. destruct (drain this instantiate σ) as (n & σ' & Hd & Hq).
    pose proof (Inv_run this instantiate _ _ _ HI Hd) as HI'.
    pose proof (ext_run this instantiate _ _ _ HI Hd) as He'.
    destruct (at_rest_fulfilled σ' (length (heap σ0)) (imap k1 deps) HI' Hq)
      as (l1 & res1 & Hin1 & Hall1).
    { by eapply ext_is_all. }
    { intros j r Hj. destruct (Hful j r (or_introl Hj)) as [x Hx].
      exists x. by eapply ext_status. }
    destruct (at_rest_fulfilled σ' (length (heap σ2)) (imap k2 deps) HI' Hq)
      as (l2 & res2 & Hin2 & Hall2).
    { by eapply ext_is_all. }
    { intros j r Hj. destruct (Hful j r (or_intror Hj)) as [x Hx].
      exists x. by eapply ext_status. }
    by exists n, σ', l1, res1, l2, res2.
Qed.

(** C10: a singleton whose [instantiate] returns a falsy instance.
    After a call of [create] that found the cache empty, once its
    continuation has returned the falsy instance [i] and as long as
    nobody has called [create] since, the cache holds [i] (line 94).
    The next call of [create] then does not return it: it asks the
    container again for every value [ds] that the loop walks in
    [dependencies] and returns a new promise, for which [instantiate]
    has not been called yet, and its continuation calls [instantiate]
    again once these requests are fulfilled. *)
Theorem falsy_instance_not_cached tr0 σ0 k0 p0 σ1 tr1 σ args i k :
  truthy (singleton this) = true →
  run tr0 init = Some σ0 →
  truthy (_instance σ0) = false →
  create this k0 σ0 = Some (VPromise p0, σ1) →
  run tr1 σ1 = Some σ →
  creates tr1 = 0 →
  EInstantiate p0 args (Ok i) ∈ log σ →
  truthy i = false →
  ∃ ds, walk (dependencies this) = Some ds
    ∧ (∀ l, dependencies this = VArray l → ds = l)
    ∧ (∀ s, dependencies this = VString s →
         ds = (λ ch, VString (String ch "")) <$> list_ascii_of_string s)
    ∧ _instance σ = i
    ∧ (forallb (valid_value (heap σ)) (imap k ds) = true →
       ∃ p σ2, create this k σ = Some (VPromise p, σ2)
         ∧ p ≠ p0
         ∧ (∀ l res, EInstantiate p l res ∉ log σ)
         ∧ log σ2 = log σ ++ zip_with EContainerCreate ds (imap k ds)
         ∧ _instance σ2 = VPromise p
         ∧ ∀ tr2 σ3, run tr2 σ2 = Some σ3 →
             (∀ j r, imap k ds !! j = Some (VPromise r) →
                ∃ x, status_of σ3 r = Some (Fulfilled x)) →
             ∃ n σ' l res,
               run (replicate n LRun) σ3 = Some σ'
               ∧ EInstantiate p l res ∈ log σ'
               ∧ Forall2 (resolved σ') (imap k ds) l).
Proof.
  intros Hs Hr0 Hf0 Hc0 Hr1 Hcr Hin Hfi.
  destruct (reach this instantiate _ _ Hr0) as [HI0 HS0].
  pose proof (create_walk this _ _ _ _ Hc0 Hf0) as Hw.
  destruct (walk_shapes this _ Hw) as [Hpa Hps].
  assert (SInv this σ1) as HS1.
  { eapply (SInv_exec this instantiate (LCreate k0)); [exact HI0|exact HS0|].
    simpl. by rewrite Hc0. }
  apply create_cases in Hc0 as [(Ht & _)|(_ & Hv0 & [= ->] & ->)]; [congruence|].
  destruct (after_create_spec this k0 σ0 HI0 Hv0)
    as (HI1 & He1 & _ & Hk1 & _ & Hlog1 & Hinst1 & _).
  rewrite Hs in Hinst1.
  assert (¬ returned (S (length (heap σ0))) (log (after_create this k0 σ0)))
    as Hnr.
  { intros (a1 & i1 & Hret). rewrite Hlog1 in Hret.
    apply elem_of_app in Hret as [Hret|Hret].
    - destruct (inv_log _ HI0 _ _ _ Hret) as [Hk _]. apply kind_of_lt in Hk. lia.
    - by apply events_not_instantiate in Hret. }
  pose proof (falsy_cached_run this instantiate _ _ _ _ _ _
                Hs HI1 HS1 Hr1 Hcr Hinst1 Hnr Hin Hfi) as Hi.
  pose proof (Inv_run this instantiate _ _ _ HI1 Hr1) as HI.
  exists deps. split; [done|]. split; [done|]. split; [done|]. split; [done|].
  intros Hv.
  destruct (after_create_spec this k σ HI Hv)
    as (HI2 & He2 & Ha2 & _ & Hlen2 & Hlog2 & Hinst2 & _).
  eexists _, _. split.
  { apply (create_valid this k σ deps); [by rewrite Hi|done|done]. }
  split.
  { destruct (inv_log _ HI _ _ _ Hin) as [Hk _]. apply kind_of_lt in Hk. lia. }
  split.
  { intros l res Hl. destruct (inv_log _ HI _ _ _ Hl) as [Hk _].
    apply kind_of_lt in Hk. lia. }
  split; [done|]. split; [by rewrite Hinst2, Hs|].
  intros tr2 σ3 Hr2 Hful.
  by destruct (create_then_invoked this instantiate σ k tr2 σ3 HI Hv Hr2)
    as (_ & _ & _ & Hlive); apply Hlive.
Qed.

End Claims.

(** ** The claims on small systems *)

Lemma singleton_coalescing_witness :
  ∃ σ2,
    run (ex_spec (VBool true) [VString "a"; VString "b"]) ex_array
      [LNew; LNew; LCreate ex_container; LSettle 1 (Fulfilled (VString "B"))]
      init = Some σ2
    ∧ create (ex_spec (VBool true) [VString "a"; VString "b"]) ex_container σ2
      = Some (VPromise 3, σ2)
    ∧ invocations (log σ2) ≤ 1 + count is_falsy_return (log σ2).
Proof.
  destruct (singleton_coalescing
              (ex_spec (VBool true) [VString "a"; VString "b"]) ex_array eq_refl)
    as [H1 H2].
  eexists. split; [vm_compute; reflexivity|]. split.
  - eapply (H1 [LNew; LNew] _ ex_container (VPromise 3) _
              [LSettle 1 (Fulfilled (VString "B"))] _ ex_container);
      reflexivity.
  - apply (H2 [LNew; LNew; LCreate ex_container;
               LSettle 1 (Fulfilled (VString "B"))]). reflexivity.
Defined.

(** C1 fails as stated when [instantiate] returns a promise: the promise
    2 that the first call returned is still pending, it follows the
    promise 0 of the factory, and the second call returns promise 0. *)
Lemma coalescing_counterexample :
  ∃ σ0 σ1 σ2,
    run (ex_spec (VBool true) []) (ex_const (VPromise 0)) [LNew] init = Some σ0
    ∧ create (ex_spec (VBool true) []) ex_container σ0 = Some (VPromise 2, σ1)
    ∧ run (ex_spec (VBool true) []) (ex_const (VPromise 0)) [LRun] σ1 = Some σ2
    ∧ status_of σ2 2 = None
    ∧ create (ex_spec (VBool true) []) ex_container σ2 = Some (VPromise 0, σ2)
    ∧ VPromise 0 ≠ VPromise 2.
Proof.
  eexists _, _, _. split; [vm_compute; reflexivity|]. split; [vm_compute; reflexivity|].
  split; [vm_compute; reflexivity|]. split; [vm_compute; reflexivity|]. split; [vm_compute; reflexivity|].
  discriminate.
Qed.

Lemma dependency_rejection_witness :
  ∃ σ0 σ1 σ σ2,
    run (ex_spec VUndefined [VString "a"; VString "b"]) ex_array
      [LNew; LNew] init = Some σ0
    ∧ create (ex_spec VUndefined [VString "a"; VString "b"]) ex_container σ0
      = Some (VPromise 3, σ1)
    ∧ run (ex_spec VUndefined [VString "a"; VString "b"]) ex_array
        [LSettle 1 (Rejected (VString "B"))] σ1 = Some σ
    ∧ status_of σ 0 = None
    ∧ run (ex_spec VUndefined [VString "a"; VString "b"]) ex_array
        [LRun; LRun] σ = Some σ2
    ∧ status_of σ2 3 = Some (Rejected (VString "B"))
    ∧ ∀ l res, EInstantiate 3 l res ∉ log σ2.
Proof.
  eexists _, _, _, _. split; [vm_compute; reflexivity|]. split; [vm_compute; reflexivity|].
  split; [vm_compute; reflexivity|]. split; [vm_compute; reflexivity|]. split; [vm_compute; reflexivity|].
  destruct (dependency_rejection
              (ex_spec VUndefined [VString "a"; VString "b"]) ex_array
              [LNew; LNew] _ ex_container _ _
              [LSettle 1 (Rejected (VString "B"))] _ 1 1 (VString "B")
              eq_refl eq_refl eq_refl eq_refl eq_refl eq_refl)
    as (p & Hp & _ & H).
  injection Hp as <-.
  destruct (H [LRun; LRun] _ eq_refl) as [Hnever Hrest].
  split; [|exact Hnever].
  apply Hrest; [vm_compute; reflexivity|].
  intros [|[|i']] r' e' Hi Hs.
  - injection Hi as <-. discriminate Hs.
  - injection Hi as <-. by injection Hs.
  - discriminate Hi.
Defined.

Lemma positional_arguments_witness :
  ∃ σ0 σ1 σ,
    run (ex_spec VUndefined [VString "a"; VString "b"]) ex_array
      [LNew; LNew] init = Some σ0
    ∧ create (ex_spec VUndefined [VString "a"; VString "b"]) ex_container σ0
      = Some (VPromise 3, σ1)
    ∧ run (ex_spec VUndefined [VString "a"; VString "b"]) ex_array
        [LSettle 1 (Fulfilled (VString "B")); LRun;
         LSettle 0 (Fulfilled (VString "A")); LRun; LRun] σ1 = Some σ
    ∧ log σ1 = [EContainerCreate (VString "a") (VPromise 0);
                EContainerCreate (VString "b") (VPromise 1)]
    ∧ ∃ res, EInstantiate 3 [VString "A"; VString "B"] res ∈ log σ.
Proof.
  eassert (run (ex_spec VUndefined [VString "a"; VString "b"]) ex_array
             [LNew; LNew] init = Some _) as H0 by (vm_compute; reflexivity).
  lazymatch type of H0 with _ = Some ?s0 =>
    eassert (create (ex_spec VUndefined [VString "a"; VString "b"])
               ex_container s0 = Some (VPromise 3, _)) as H1
      by (vm_compute; reflexivity)
  end.
  lazymatch type of H1 with _ = Some (_, ?s1) =>
    eassert (run (ex_spec VUndefined [VString "a"; VString "b"]) ex_array
               [LSettle 1 (Fulfilled (VString "B")); LRun;
                LSettle 0 (Fulfilled (VString "A")); LRun; LRun] s1 = Some _)
      as H2 by (vm_compute; reflexivity)
  end.
  eexists _, _, _. split; [exact H0|]. split; [exact H1|]. split; [exact H2|].
  destruct (positional_arguments _ _ _ _ _ _ _ _ _ H0 eq_refl H1 H2)
    as (ds & p & _ & Hpa & _ & Hp & Hlog & _ & H).
  pose proof (Hpa _ eq_refl) as ->.
  injection Hp as <-. split; [vm_compute in Hlog; exact Hlog|].
  destruct H as [Hrest _].
  { intros [|[|i']] r Hi.
    - injection Hi as <-. by eexists.
    - injection Hi as <-. by eexists.
    - discriminate Hi. }
  destruct (Hrest eq_refl) as (l & res & Hin & Hall).
  exists res.
  apply Forall2_cons_inv_l in Hall as (x & l' & Hx & Hall & ->).
  apply Forall2_cons_inv_l in Hall as (y & l'' & Hy & Hall & ->).
  apply Forall2_nil_inv_l in Hall as ->.
  injection Hx as <-. injection Hy as <-. exact Hin.
Defined.

Lemma rejection_cached_witness :
  ∃ σ σ',
    run (ex_spec (VBool true) [VString "a"]) ex_array
      [LNew; LCreate ex_container; LSettle 0 (Rejected (VString "boom"));
       LRun; LRun] init = Some σ
    ∧ status_of σ 2 = Some (Rejected (VString "boom"))
    ∧ run (ex_spec (VBool true) [VString "a"]) ex_array
        [LCreate ex_container; LNew] σ = Some σ'
    ∧ log σ' = log σ
    ∧ create (ex_spec (VBool true) [VString "a"]) ex_container σ'
      = Some (VPromise 2, σ').
Proof.
  eexists _, _. split; [vm_compute; reflexivity|]. split; [vm_compute; reflexivity|].
  split; [vm_compute; reflexivity|]. split; [vm_compute; reflexivity|].
  eapply (rejection_cached
            (ex_spec (VBool true) [VString "a"]) ex_array
            [LNew; LCreate ex_container; LSettle 0 (Rejected (VString "boom"));
             LRun; LRun] _ 2 (VString "boom") [LCreate ex_container; LNew]);
    try reflexivity.
  intros (args & i & Hin). apply list_elem_of_singleton in Hin. discriminate Hin.
Defined.

(** C4 fails as stated when [instantiate] returned a promise that is
    rejected later: the promise 2 of [create] is rejected, but the cache
    holds the promise 0 of the factory, which the next call returns. *)
Lemma rejection_counterexample :
  ∃ σ0 σ1 σ,
    run (ex_spec (VBool true) []) (ex_const (VPromise 0)) [LNew] init = Some σ0
    ∧ create (ex_spec (VBool true) []) ex_container σ0 = Some (VPromise 2, σ1)
    ∧ run (ex_spec (VBool true) []) (ex_const (VPromise 0))
        [LRun; LSettle 0 (Rejected (VString "boom")); LRun] σ1 = Some σ
    ∧ status_of σ 2 = Some (Rejected (VString "boom"))
    ∧ _instance σ ≠ VPromise 2
    ∧ create (ex_spec (VBool true) []) ex_container σ = Some (VPromise 0, σ).
Proof.
  eexists _, _, _. split; [vm_compute; reflexivity|]. split; [vm_compute; reflexivity|].
  split; [vm_compute; reflexivity|]. split; [vm_compute; reflexivity|]. split; [discriminate|].
  reflexivity.
Qed.

Lemma create_returns_witness :
  ∃ σ v σ',
    run (ex_spec (VBool true) []) (ex_const (VObject ∅))
      [LCreate ex_container; LRun] init = Some σ
    ∧ create (ex_spec (VBool true) []) ex_container σ = Some (v, σ')
    ∧ ((∃ p, v = VPromise p ∧ kind_of σ' p = Some KThen)
       ∨ (σ' = σ ∧ v = _instance σ ∧ truthy v = true
          ∧ ∃ p args, EInstantiate p args (Ok v) ∈ log σ)).
Proof.
  eexists.
  destruct (create_returns (ex_spec (VBool true) []) (ex_const (VObject ∅))
              [LCreate ex_container; LRun] _ ex_container eq_refl eq_refl eq_refl)
    as (v & σ' & Hc & H).
  exists v, σ'. split; [vm_compute; reflexivity|]. split; [exact Hc|exact H].
Defined.

(** C5 fails as stated on the fast path of a settled singleton: the call
    returns the cached instance, an object here, not a promise. *)
Lemma create_returns_counterexample :
  ∃ σ,
    run (ex_spec (VBool true) []) (ex_const (VObject ∅))
      [LCreate ex_container; LRun] init = Some σ
    ∧ create (ex_spec (VBool true) []) ex_container σ = Some (VObject ∅, σ)
    ∧ ∀ p, VObject ∅ ≠ VPromise p.
Proof.
  eexists. split; [vm_compute; reflexivity|]. split; [vm_compute; reflexivity|]. discriminate.
Qed.

Lemma non_singleton_independence_witness :
  ∃ σ0 σ1 σ3 σ,
    run (ex_require VUndefined (VString "ab")) ex_array
      [LNew; LNew; LNew; LNew] init = Some σ0
    ∧ create (ex_require VUndefined (VString "ab")) ex_container σ0
      = Some (VPromise 5, σ1)
    ∧ create (ex_require VUndefined (VString "ab")) (λ i _, VPromise (2 + i)) σ1
      = Some (VPromise 7, σ3)
    ∧ run (ex_require VUndefined (VString "ab")) ex_array
        [LSettle 3 (Fulfilled (VString "B2"));
         LSettle 1 (Fulfilled (VString "B1"));
         LSettle 2 (Fulfilled (VString "A2"));
         LSettle 0 (Fulfilled (VString "A1"))] σ3 = Some σ
    ∧ _instance σ = VUndefined
    ∧ log σ3 = [EContainerCreate (VString "a") (VPromise 0);
                EContainerCreate (VString "b") (VPromise 1);
                EContainerCreate (VString "a") (VPromise 2);
                EContainerCreate (VString "b") (VPromise 3)]
    ∧ ∃ n σ' l1 res1 l2 res2,
        run (ex_require VUndefined (VString "ab")) ex_array (replicate n LRun) σ
        = Some σ'
        ∧ EInstantiate 5 l1 res1 ∈ log σ'
        ∧ EInstantiate 7 l2 res2 ∈ log σ'
        ∧ Forall2 (resolved σ') [VPromise 0; VPromise 1] l1
        ∧ Forall2 (resolved σ') [VPromise 2; VPromise 3] l2.
Proof.
  eassert (run (ex_require VUndefined (VString "ab")) ex_array
             [LNew; LNew; LNew; LNew] init = Some _) as H0
    by (vm_compute; reflexivity).
  lazymatch type of H0 with _ = Some ?s0 =>
    eassert (create (ex_require VUndefined (VString "ab")) ex_container s0
             = Some (VPromise 5, _)) as H1 by (vm_compute; reflexivity)
  end.
  lazymatch type of H1 with _ = Some (_, ?s1) =>
    eassert (create (ex_require VUndefined (VString "ab"))
               (λ i _, VPromise (2 + i)) s1 = Some (VPromise 7, _)) as H2
      by (vm_compute; reflexivity)
  end.
  lazymatch type of H2 with _ = Some (_, ?s3) =>
    eassert (run (ex_require VUndefined (VString "ab")) ex_array
               [LSettle 3 (Fulfilled (VString "B2"));
                LSettle 1 (Fulfilled (VString "B1"));
                LSettle 2 (Fulfilled (VString "A2"));
                LSettle 0 (Fulfilled (VString "A1"))] s3 = Some _) as H3
      by (vm_compute; reflexivity)
  end.
  eexists _, _, _, _. split; [exact H0|]. split; [exact H1|].
  split; [exact H2|]. split; [exact H3|]. split; [reflexivity|].
  destruct (non_singleton_independence
              (ex_require VUndefined (VString "ab")) ex_array eq_refl)
    as [_ H].
  destruct (H _ _ _ _ _ [] _ _ _ _ _ _ H0 H1 eq_refl H2 H3)
    as (ds & p1 & p2 & _ & _ & Hps & Hp1 & Hp2 & _ & Hlog1 & Hlog3 & _ & _ & Hlive).
  pose proof (Hps _ eq_refl) as ->.
  injection Hp1 as <-. injection Hp2 as <-.
  split; [vm_compute in Hlog3; exact Hlog3|].
  apply Hlive.
  intros [|[|i]] r [Hi|Hi]; try discriminate Hi; injection Hi as <-; by eexists.
Defined.

Lemma falsy_instance_not_cached_witness :
  ∃ σ0 σ1 σ,
    run (ex_spec (VBool true) [VString "a"]) (ex_const (VNumber (S754_zero false)))
      [LNew] init = Some σ0
    ∧ create (ex_spec (VBool true) [VString "a"]) ex_container σ0
      = Some (VPromise 2, σ1)
    ∧ run (ex_spec (VBool true) [VString "a"]) (ex_const (VNumber (S754_zero false)))
        [LSettle 0 (Fulfilled (VString "A")); LRun; LRun] σ1 = Some σ
    ∧ _instance σ = VNumber (S754_zero false)
    ∧ ∃ σ2,
        create (ex_spec (VBool true) [VString "a"]) ex_container σ
        = Some (VPromise 4, σ2)
        ∧ log σ2 = [EContainerCreate (VString "a") (VPromise 0);
                    EInstantiate 2 [VString "A"] (Ok (VNumber (S754_zero false)));
                    EEmit (VNumber (S754_zero false));
                    EContainerCreate (VString "a") (VPromise 0)]
        ∧ ∃ n σ' l res,
            run (ex_spec (VBool true) [VString "a"])
              (ex_const (VNumber (S754_zero false))) (replicate n LRun) σ2
            = Some σ'
            ∧ EInstantiate 4 l res ∈ log σ'.
Proof.
  eassert (run (ex_spec (VBool true) [VString "a"])
             (ex_const (VNumber (S754_zero false))) [LNew] init = Some _) as H0
    by (vm_compute; reflexivity).
  lazymatch type of H0 with _ = Some ?s0 =>
    eassert (create (ex_spec (VBool true) [VString "a"]) ex_container s0
             = Some (VPromise 2, _)) as H1 by (vm_compute; reflexivity)
  end.
  lazymatch type of H1 with _ = Some (_, ?s1) =>
    eassert (run (ex_spec (VBool true) [VString "a"])
               (ex_const (VNumber (S754_zero false)))
               [LSettle 0 (Fulfilled (VString "A")); LRun; LRun] s1 = Some _)
      as H2 by (vm_compute; reflexivity)
  end.
  eexists _, _, _. split; [exact H0|]. split; [exact H1|]. split; [exact H2|].
  destruct (falsy_instance_not_cached
              (ex_spec (VBool true) [VString "a"])
              (ex_const (VNumber (S754_zero false))) _ _ _ _ _ _ _
              [VString "A"] (VNumber (S754_zero false)) ex_container
              eq_refl H0 eq_refl H1 H2 eq_refl)
    as (ds & _ & Hpa & _ & Hi & Hnext); [simpl; right; by left|reflexivity|].
  pose proof (Hpa _ eq_refl) as ->.
  destruct Hnext as (p & σ2 & Hc & _ & _ & Hlog & _ & Hlive);
    [vm_compute; reflexivity|].
  split; [exact Hi|].
  pose proof Hc as Hc'. vm_compute in Hc'. injection Hc' as <- <-.
  eexists. split; [exact Hc|]. split; [vm_compute in Hlog; exact Hlog|].
  destruct (Hlive [] _ eq_refl) as (n & σ' & l & res & Hrun & Hin & _).
  - intros [|j] r Hj; [|discriminate Hj]. injection Hj as <-. by eexists.
  - by exists n, σ', l, res.
Defined.

(** ** More about the constructor *)

(** X1: The constructor fails exactly on [undefined] and [null], where
    reading [mod['@require']] on line 44 throws a TypeError; on every
    other descriptor it returns a specification that carries the [id] and
    the [source] it was given. *)
Theorem constructor_fails_iff id_ mod_ source :
  if nullish mod_
  then new_Spec id_ mod_ source
       = Throw (type_error "Cannot read property of undefined or null")
  else ∃ s, new_Spec id_ mod_ source = Ok s ∧ id s = id_ ∧ _source s = source.
Proof.
  destruct mod_ as [| | | | |l|m|n m| |]; cbn [nullish]; try done;
    try (eexists; split; [reflexivity|done]).
  - unfold new_Spec. cbn [get_prop mbind result_bind typeof String.eqb orb
      Ascii.eqb Bool.eqb object_keys].
    rewrite copy_annotations_array. eexists. split; [reflexivity|done].
  - rewrite (new_Spec_object false 0). eexists. split; [reflexivity|done].
  - rewrite (new_Spec_object true n). eexists. split; [reflexivity|done].
Qed.

(** X2: An array as descriptor passes the test [typeof mod === 'object'], so
    the loop of lines 54-58 runs over its index keys; none of them begins
    with [@], so nothing is copied and every field has its default. *)
Theorem array_descriptor id_ l source :
  new_Spec id_ (VArray l) source =
    Ok {| id := id_; dependencies := VArray []; singleton := VUndefined;
          implements := VArray []; a := ∅; _source := source |}.
Proof.
  unfold new_Spec. cbn [get_prop mbind result_bind typeof String.eqb orb
    Ascii.eqb Bool.eqb object_keys].
  by rewrite copy_annotations_array.
Qed.

(** X3: For a descriptor whose properties are its own enumerable ones
    (what an object or a function of the model is; inherited and
    non-enumerable properties are outside it), the hash [a] carries
    everything the constructor reads: building a specification from the
    annotations of a specification gives the same specification
    again. *)
Theorem annotations_round_trip (fn : bool) (n : nat) id_ m source :
  ∃ s, new_Spec id_ (if fn then VFunction n m else VObject m) source = Ok s
     ∧ new_Spec id_ (VObject (a s)) source = Ok s.
Proof.
  rewrite new_Spec_object. eexists. split; [reflexivity|].
  rewrite (new_Spec_object false 0). cbn [a].
  assert (∀ (m' : gmap string value) k, String.prefix "@" k = true →
            filter (λ kv : string * value, String.prefix "@" kv.1 = true) m' !! k
            = m' !! k) as Hl.
  { intros m' k Hk. destruct (m' !! k) as [v|] eqn:Hm.
    - by apply map_lookup_filter_Some.
    - apply map_lookup_filter_None. by left. }
  rewrite !Hl by done. f_equal. f_equal.
  apply map_eq. intros k.
  destruct (String.prefix "@" k) eqn:Hk.
  - by rewrite !Hl.
  - transitivity (@None value).
    + apply map_lookup_filter_None. right. intros v _. simpl. congruence.
    + symmetry. apply map_lookup_filter_None. right. intros v _. simpl. congruence.
Qed.

(** ** More about [create]: instances, outcomes and the container *)

Section Outcomes.

Variable this : Spec.
Variable instantiate : nat → list value → result value.

Implicit Types (σ : state) (r p P : nat) (o : outcome) (rc : reaction)
  (c : cell) (k : Container) (tr : list label).

Local Abbreviation run := (run this instantiate).
Local Abbreviation exec := (exec this instantiate).
Local Abbreviation deps := (dep_list this).

Lemma omap_container {A} (f : event → option A) ds rs :
  (∀ d x, f (EContainerCreate d x) = None) →
  omap f (zip_with EContainerCreate ds rs) = [].
Proof.
  intros Hf. revert rs. induction ds as [|d ds IH]; intros [|x rs]; simpl;
    try done. by rewrite Hf, IH.
Qed.

Lemma emitted_instances_exec l σ σ' :
  Inv σ → exec l σ = Some σ' →
  emitted (log σ) = instances (log σ) →
  emitted (log σ') = instances (log σ').
Proof.
  intros HI Hex Heq.
  destruct (exec_log this instantiate _ _ _ HI Hex)
    as [->|[(k & _ & _ & _ & _ & ->)|(p & vs & js & _ & _ & -> & _)]];
    [done| |]; unfold emitted, instances in *; rewrite !omap_app, Heq.
  - by rewrite !omap_container.
  - by destruct (instantiate _ vs).
Qed.

Lemma emitted_instances_run tr σ σ' :
  Inv σ → run tr σ = Some σ' →
  emitted (log σ) = instances (log σ) →
  emitted (log σ') = instances (log σ').
Proof.
  revert σ. induction tr as [|l tr IH]; intros σ HI; simpl.
  - by intros [= <-].
  - destruct (exec l σ) as [σ1|] eqn:He; [|done]. simpl. intros Hr Heq.
    eapply IH; [by eapply Inv_exec|done|by eapply emitted_instances_exec].
Qed.

(** X4: The container is told of every instance, and of nothing else:
    [container.emit('create', i, this)] has been called once for each
    call of [instantiate] that returned, with the instance it returned
    and in the same order; a call of [instantiate] that threw is
    followed by no [emit]. *)
Theorem emit_per_instance tr σ :
  run tr init = Some σ → emitted (log σ) = instances (log σ).
Proof.
  intros Hr. eapply emitted_instances_run; [apply Inv_init|done|done].
Qed.

Lemma reach_create tr0 σ0 k v σ1 tr1 σ :
  run tr0 init = Some σ0 →
  create this k σ0 = Some (v, σ1) →
  run tr1 σ1 = Some σ →
  run (tr0 ++ LCreate k :: tr1) init = Some σ.
Proof.
  intros Hr0 Hc Hr1. rewrite run_app, Hr0. simpl. by rewrite Hc.
Qed.

(** X5: What becomes of the promise that [create] returned, once the
    requests for the values [ds] that the loop walks in [dependencies]
    (the elements of an array, the characters of a string) are
    fulfilled and the event loop is at rest: [instantiate] has been
    called with the values of these requests, and the promise is
    rejected with what [instantiate] threw, or fulfilled with the
    instance it returned (when that is not a thenable), or rejected
    with a TypeError when [instantiate] returned that very promise. *)
Theorem create_outcome tr0 σ0 k v σ1 tr1 σ :
  run tr0 init = Some σ0 →
  truthy (_instance σ0) = false →
  create this k σ0 = Some (v, σ1) →
  run tr1 σ1 = Some σ →
  queue σ = [] →
  ∃ ds, walk (dependencies this) = Some ds
    ∧ (∀ l, dependencies this = VArray l → ds = l)
    ∧ (∀ s, dependencies this = VString s →
         ds = (λ ch, VString (String ch "")) <$> list_ascii_of_string s)
    ∧ ((∀ i r, imap k ds !! i = Some (VPromise r) →
          ∃ x, status_of σ r = Some (Fulfilled x)) →
       ∃ p l n, v = VPromise p
         ∧ Forall2 (resolved σ) (imap k ds) l
         ∧ EInstantiate p l (instantiate n l) ∈ log σ
         ∧ (∀ e, instantiate n l = Throw e →
              status_of σ p = Some (Rejected e))
         ∧ (∀ i, instantiate n l = Ok i → thenable i = false →
              status_of σ p = Some (Fulfilled i))
         ∧ (instantiate n l = Ok (VPromise p) →
              status_of σ p
              = Some (Rejected (type_error "A promise cannot be resolved with itself.")))).
Proof.
  intros Hr0 Hf Hc Hr1 Hq.
  pose proof (reach_log this instantiate _ _ (reach_create _ _ _ _ _ _ _ Hr0 Hc Hr1))
    as HL.
  destruct (reach this instantiate _ _ Hr0) as [HI0 _].
  pose proof (create_walk this _ _ _ _ Hc Hf) as Hw.
  destruct (walk_shapes this _ Hw) as [Hpa Hps].
  exists deps. split; [done|]. split; [done|]. split; [done|]. intros Hful.
  apply create_cases in Hc as [(Ht & _)|(_ & Hv & -> & ->)]; [congruence|].
  destruct (create_then_invoked this instantiate σ0 k tr1 σ HI0 Hv Hr1)
    as (HI & Ha & _).
  destruct (at_rest_fulfilled σ _ _ HI Hq Ha Hful) as (l & res & Hin & Hall).
  destruct (log_result _ _ _ HL _ _ _ Hin) as [n ->].
  eexists _, l, n. split; [done|]. split; [done|]. split; [done|].
  split_and!.
  - intros e He. eapply log_outcome; [done|done|]. by rewrite He.
  - intros i Hi Hnt. eapply log_outcome; [done|done|]. rewrite Hi.
    destruct i; cbn [outcome_of thenable] in Hnt |- *; try done;
      by rewrite Hnt.
  - intros Hi. eapply log_outcome; [done|done|]. rewrite Hi. simpl.
    by rewrite decide_True.
Qed.

End Outcomes.

Lemma instances_nil (l : list event) :
  (∀ p args i, EInstantiate p args (Ok i) ∉ l) → instances l = [].
Proof.
  induction l as [|e l IH]; intros H; [done|].
  assert (instances l = []) as Hl
    by (apply IH; intros p args i Hin; apply (H p args i); by right).
  destruct e as [| p args [i|] |]; try exact Hl.
  destruct (H p args i). by left.
Qed.

(** X6: The base class: [Spec.prototype.instantiate] throws, so a
    specification that does not override it never yields an instance.
    Every call of [instantiate] throws the Error of line 112 and rejects
    the promise of its continuation with it, [container.emit] is never
    called, and [create] always returns a promise. *)
Theorem base_class_rejects (this : Spec) tr σ :
  run this base_instantiate tr init = Some σ →
  emitted (log σ) = []
  ∧ (∀ p l res, EInstantiate p l res ∈ log σ →
       res = Throw (VError "Error" "Spec#instantiate must be overridden by subclass")
       ∧ status_of σ p
         = Some (Rejected (VError "Error" "Spec#instantiate must be overridden by subclass")))
  ∧ (∀ k v σ', create this k σ = Some (v, σ') → ∃ p, v = VPromise p).
Proof.
  intros Hr.
  pose proof (reach_log this base_instantiate _ _ Hr) as HL.
  destruct (reach this base_instantiate _ _ Hr) as [HI HS].
  assert (∀ p l res, EInstantiate p l res ∈ log σ →
            res = Throw (VError "Error" "Spec#instantiate must be overridden by subclass"))
    as Hthrow.
  { intros p l res Hin. by destruct (log_result _ _ _ HL _ _ _ Hin) as [n ->]. }
  split_and!.
  - rewrite (emitted_instances_run this base_instantiate tr init σ Inv_init Hr eq_refl).
    apply instances_nil. intros p args i Hin. by specialize (Hthrow _ _ _ Hin).
  - intros p l res Hin. pose proof (Hthrow _ _ _ Hin) as ->. split; [done|].
    by eapply log_outcome.
  - intros k v σ' Hc.
    apply create_cases in Hc as [(Ht & -> & _)|(_ & _ & -> & _)]; [|by eexists].
    destruct (sinv_cache _ _ HS) as [H|[(p & H & _)|(p & args & Hin)]].
    + by rewrite H in Ht.
    + by exists p.
    + by specialize (Hthrow _ _ _ Hin).
Qed.

(** ** More about [create]: how often it calls its collaborators *)

Section Calls.

Variable this : Spec.
Variable instantiate : nat → list value → result value.

Implicit Types (σ : state) (r p P : nat) (o : outcome) (rc : reaction)
  (c : cell) (k : Container) (tr : list label).

Local Abbreviation run := (run this instantiate).
Local Abbreviation exec := (exec this instantiate).
Local Abbreviation deps := (dep_list this).

Lemma truthy_return_count (l : list event) p args i :
  EInstantiate p args (Ok i) ∈ l → truthy i = true →
  count is_falsy_return l < invocations l.
Proof.
  intros Hin Ht. apply list_elem_of_split in Hin as (l1 & l2 & ->).
  rewrite count_app, invocations_app.
  change (EInstantiate p args (Ok i) :: l2)
    with ([EInstantiate p args (Ok i)] ++ l2).
  rewrite count_app, invocations_app.
  pose proof (falsy_le_invocations l1). pose proof (falsy_le_invocations l2).
  unfold count at 2, invocations at 2. simpl. rewrite Ht. simpl. lia.
Qed.

(** With a truthy instance in the cache and no continuation waiting,
    no step changes the cache or the log. *)
Lemma frozen_step l σ σ' :
  exec l σ = Some σ' →
  truthy (_instance σ) = true → tokens is_then σ = 0 →
  _instance σ' = _instance σ ∧ log σ' = log σ ∧ tokens is_then σ' = 0.
Proof.
  intros Hex Ht Hz. apply exec_cases in Hex
    as [[-> ->]|[(r & o & rs & -> & Hr & ->)|[(k & v & -> & Hc)|(j & js & -> & Hq & ->)]]].
  - rewrite tokens_alloc. simpl. split; [done|]. split; [done|lia].
  - by rewrite settle_instance, settle_log, tokens_settle.
  - apply create_cases in Hc as [(_ & _ & ->)|(Hf & _)]; [done|congruence].
  - destruct σ as [h q i lg]. simpl in *. subst q.
    rewrite tokens_pop in Hz.
    assert (tokens is_then (State h js i lg) = 0) as Hz' by lia.
    destruct j as [[P i0|p|p] [v|e]]; simpl in Hz |- *; try lia;
      by rewrite ?fill_instance, ?fill_log, ?tokens_fill,
           ?settle_instance, ?settle_log, ?tokens_settle.
Qed.

Lemma frozen_run tr σ σ' :
  run tr σ = Some σ' →
  truthy (_instance σ) = true → tokens is_then σ = 0 →
  _instance σ' = _instance σ ∧ log σ' = log σ.
Proof.
  revert σ. induction tr as [|l tr IH]; intros σ; simpl.
  - by intros [= <-].
  - destruct (exec l σ) as [σ1|] eqn:He; [|done]. simpl. intros Hr Ht Hz.
    destruct (frozen_step _ _ _ He Ht Hz) as (Hi & Hl & Hz1).
    destruct (IH σ1 Hr) as [Hi' Hl']; [by rewrite Hi|done|].
    split; congruence.
Qed.

Lemma singleton_settled σ p args i :
  truthy (singleton this) = true → SInv this σ →
  EInstantiate p args (Ok i) ∈ log σ → truthy i = true → _instance σ = i →
  tokens is_then σ = 0.
Proof.
  intros Hs HS Hin Ht Hi. pose proof (sinv_count _ _ HS Hs) as Hc.
  rewrite Hi, Ht in Hc. pose proof (truthy_return_count _ _ _ _ Hin Ht). lia.
Qed.

(** A truthy instance that [instantiate] returned is in the cache. *)
Lemma cached_step l σ σ' :
  truthy (singleton this) = true → Inv σ → SInv this σ →
  exec l σ = Some σ' →
  (∀ p args i, EInstantiate p args (Ok i) ∈ log σ → truthy i = true →
     _instance σ = i) →
  ∀ p args i, EInstantiate p args (Ok i) ∈ log σ' → truthy i = true →
    _instance σ' = i.
Proof.
  intros Hs HI HS Hex HK p args i Hin Ht. apply exec_cases in Hex
    as [[-> ->]|[(r & o & rs & -> & Hr & ->)|[(k & v & -> & Hc)|(j & js & -> & Hq & ->)]]].
  - by eapply HK.
  - rewrite settle_log in Hin. rewrite settle_instance. by eapply HK.
  - apply create_cases in Hc as [(_ & _ & ->)|(Hf & Hv & _ & ->)]; [by eapply HK|].
    destruct (after_create_spec this k σ HI Hv) as (_ & _ & _ & _ & _ & Hlog & _).
    rewrite Hlog in Hin. apply elem_of_app in Hin as [Hin|Hin].
    + rewrite (HK _ _ _ Hin Ht) in Hf. congruence.
    + by apply events_not_instantiate in Hin.
  - set (σ1 := State (heap σ) js (_instance σ) (log σ)) in *.
    assert (EInstantiate p args (Ok i) ∈ log σ → is_then j.1 = 0) as Hold.
    { intros Hin0. pose proof (HK _ _ _ Hin0 Ht) as Hi.
      pose proof (singleton_settled _ _ _ _ Hs HS Hin0 Ht Hi) as Hz.
      destruct σ as [h q i0 lg]. simpl in Hq. subst q.
      rewrite tokens_pop in Hz. lia. }
    destruct (run_job_effect this instantiate j σ1)
      as [(p0 & args0 & vs & i0 & -> & Hargs & Hlog & Hinst)|[Hinst [Hlog|(p0 & args0 & vs & e & -> & Hlog)]]];
      rewrite Hlog in Hin; rewrite Hinst; change (log σ1) with (log σ) in Hin;
      change (_instance σ1) with (_instance σ).
    + rewrite Hs. apply elem_of_app in Hin as [Hin|Hin].
      * by specialize (Hold Hin).
      * apply elem_of_cons in Hin as [[= _ _ ->]|Hin]; [done|].
        by apply list_elem_of_singleton in Hin.
    + by eapply HK.
    + apply elem_of_app in Hin as [Hin|Hin]; [by eapply HK|].
      by apply list_elem_of_singleton in Hin.
Qed.

Lemma cached_run tr σ σ' :
  truthy (singleton this) = true → Inv σ → SInv this σ →
  run tr σ = Some σ' →
  (∀ p args i, EInstantiate p args (Ok i) ∈ log σ → truthy i = true →
     _instance σ = i) →
  ∀ p args i, EInstantiate p args (Ok i) ∈ log σ' → truthy i = true →
    _instance σ' = i.
Proof.
  intros Hs. revert σ. induction tr as [|l tr IH]; intros σ HI HS; simpl.
  - by intros [= <-].
  - destruct (exec l σ) as [σ1|] eqn:He; [|done]. simpl. intros Hr HK.
    eapply (IH σ1); [by eapply Inv_exec|by eapply SInv_exec|done|].
    by eapply cached_step.
Qed.

(** X7: Once [instantiate] has returned a truthy instance, a singleton is
    settled for good: the cache holds that instance, and whatever
    happens next it stays there, [create] returns it (the instance
    itself, not a promise for it) and changes nothing, and neither
    [container.create] nor [instantiate] nor [container.emit] is ever
    called again. *)
Theorem settled_singleton_frozen tr σ p args i tr' σ' k :
  truthy (singleton this) = true →
  run tr init = Some σ →
  EInstantiate p args (Ok i) ∈ log σ →
  truthy i = true →
  run tr' σ = Some σ' →
  _instance σ' = i ∧ log σ' = log σ ∧ create this k σ' = Some (i, σ').
Proof.
  intros Hs Hr Hin Ht Hr'. destruct (reach this instantiate _ _ Hr) as [HI HS].
  assert (_instance σ = i) as Hi.
  { eapply (cached_run tr init σ Hs Inv_init (SInv_init this) Hr); [|done..].
    intros ??? H. by apply elem_of_nil in H. }
  pose proof (singleton_settled _ _ _ _ Hs HS Hin Ht Hi) as Hz.
  destruct (frozen_run _ _ _ Hr') as [Hi' Hl']; [by rewrite Hi|done|].
  rewrite Hi in Hi'. split; [done|]. split; [done|].
  rewrite <- Hi'. apply create_fast. by rewrite Hi'.
Qed.

Lemma requests_container (ds inputs : list value) :
  length inputs = length ds →
  requests (zip_with EContainerCreate ds inputs) = length ds.
Proof.
  unfold requests, count. revert inputs.
  induction ds as [|d ds IH]; intros [|x inputs]; simpl; try done.
  intros [= H]. by rewrite IH.
Qed.

Lemma requests_app l1 l2 : requests (l1 ++ l2) = requests l1 + requests l2.
Proof. apply count_app. Qed.

(** What a step adds to the calls of [container.create]: those of one
    call of [create] that found the cache empty, one for each
    dependency. *)
Lemma requests_step l σ σ' :
  Inv σ → exec l σ = Some σ' →
  requests (log σ') = requests (log σ)
  ∨ (∃ k, l = LCreate k ∧ truthy (_instance σ) = false
       ∧ σ' = after_create this k σ
       ∧ requests (log σ') = requests (log σ) + length deps).
Proof.
  intros HI Hex.
  destruct (exec_log this instantiate _ _ _ HI Hex)
    as [->|[(k & -> & Hf & -> & Hv & Hlog)|(p & vs & js & _ & _ & -> & _)]].
  - by left.
  - right. exists k. split; [done|]. split; [done|]. split; [done|].
    rewrite Hlog, requests_app, requests_container; [done|apply length_imap].
  - left. rewrite requests_app. unfold requests at 2, count.
    destruct (instantiate _ vs); simpl; lia.
Qed.

Lemma requests_run tr σ σ' :
  Inv σ → run tr σ = Some σ' →
  requests (log σ') ≤ requests (log σ) + length deps * creates tr.
Proof.
  revert σ. induction tr as [|l tr IH]; intros σ HI; simpl.
  - intros [= <-]. lia.
  - destruct (exec l σ) as [σ1|] eqn:He; [|done]. simpl. intros Hr.
    pose proof (IH σ1 (Inv_exec this instantiate _ _ _ HI He) Hr) as H1.
    unfold creates in *. simpl.
    destruct (requests_step _ _ _ HI He) as [Hreq|(k & -> & Hf & -> & Hreq)];
      rewrite Hreq in H1; [destruct l|]; simpl; lia.
Qed.

Lemma instantiate_arity σ p l res :
  Inv σ → LogInv this instantiate σ →
  EInstantiate p l res ∈ log σ → length l = length deps.
Proof.
  intros HI HL Hin.
  destruct (inv_log _ HI _ _ _ Hin) as (_ & P & inputs & _ & Ha & Hs).
  rewrite <- (log_arity _ _ _ HL _ _ Ha).
  destruct Ha as (st & rs & slots & HP).
  destruct (inv_all _ HI _ _ _ _ _ HP) as ((Hlen & _ & Hst) & _).
  unfold status_of in Hs. rewrite HP in Hs. simpl in Hs. subst st.
  destruct Hst as (vs & [= <-] & ->). by rewrite length_fmap in Hlen.
Qed.

Lemma singleton_requests_exec l σ σ' :
  truthy (singleton this) = true → Inv σ → exec l σ = Some σ' →
  requests (log σ)
  ≤ length deps * ((if truthy (_instance σ) then 1 else 0)
                   + count is_falsy_return (log σ)) →
  requests (log σ')
  ≤ length deps * ((if truthy (_instance σ') then 1 else 0)
                   + count is_falsy_return (log σ')).
Proof.
  intros Hs HI Hex Hb.
  destruct (requests_step _ _ _ HI Hex) as [Hreq|(k & -> & Hf & -> & Hreq)].
  - rewrite Hreq. etrans; [exact Hb|]. apply Nat.mul_le_mono_l.
    apply exec_cases in Hex
      as [[-> ->]|[(r & o & rs & -> & Hr & ->)|[(k & v & -> & Hc)|(j & js & -> & Hq & ->)]]].
    + done.
    + by rewrite settle_instance, settle_log.
    + apply create_cases in Hc as [(_ & _ & ->)|(Hf & Hv & _ & ->)]; [done|].
      destruct (after_create_spec this k σ HI Hv) as (_ & _ & _ & _ & _ & Hlog & Hi & _).
      rewrite Hi, Hs, Hf, Hlog, count_app. simpl. lia.
    + set (σ1 := State (heap σ) js (_instance σ) (log σ)) in *.
      destruct (run_job_effect this instantiate j σ1)
        as [(p & args & vs & i & -> & Hargs & Hlog & Hinst)|[Hinst [Hlog|(p & args & vs & e & -> & Hlog)]]];
        rewrite Hinst, Hlog; change (_instance σ1) with (_instance σ);
        change (log σ1) with (log σ); rewrite ?count_app, ?Hs.
      * unfold count. simpl. destruct (truthy i), (truthy (_instance σ));
          simpl; lia.
      * lia.
      * unfold count. simpl. lia.
  - destruct (after_create_spec this k σ HI)
      as (_ & _ & _ & _ & _ & Hlog & Hi & _).
    { apply exec_cases in Hex as [[? _]|[(? & ? & ? & ? & _)|[(k' & v & Hk & Hc)|(? & ? & ? & _)]]];
        try done. injection Hk as <-.
      by apply create_cases in Hc as [(? & _)|(_ & Hv & _)]; [congruence|]. }
    rewrite Hreq, Hi, Hs, Hlog, count_app. simpl.
    rewrite (count_container is_falsy_return) by done.
    rewrite Hf in Hb. simpl in Hb. lia.
Qed.

(** X8: A singleton asks the container for its dependencies, the values
    [ds] that the loop walks in [dependencies] (the elements of an
    array, the characters of a string), at most once, and once more for
    every falsy instance that [instantiate] has returned: the calls of
    [container.create] are at most the number of these values times
    this count. *)
Theorem container_calls_bound tr σ ds :
  truthy (singleton this) = true →
  walk (dependencies this) = Some ds →
  run tr init = Some σ →
  (∀ l, dependencies this = VArray l → ds = l)
  ∧ (∀ s, dependencies this = VString s →
       ds = (λ ch, VString (String ch "")) <$> list_ascii_of_string s)
  ∧ requests (log σ)
    ≤ length ds * ((if truthy (_instance σ) then 1 else 0)
                   + count is_falsy_return (log σ)).
Proof.
  intros Hs Hw. destruct (walk_shapes this _ Hw) as [Hpa Hps].
  pose proof (walk_dep_list this _ Hw) as <-.
  assert (∀ σ0, Inv σ0 → run tr σ0 = Some σ →
    requests (log σ0)
    ≤ length deps * ((if truthy (_instance σ0) then 1 else 0)
                     + count is_falsy_return (log σ0)) →
    requests (log σ)
    ≤ length deps * ((if truthy (_instance σ) then 1 else 0)
                     + count is_falsy_return (log σ))) as H.
  { induction tr as [|l tr IH]; intros σ0 HI; simpl.
    - by intros [= <-].
    - destruct (exec l σ0) as [σ1|] eqn:He; [|done]. simpl. intros Hr Hb.
      eapply IH; [by eapply Inv_exec|done|by eapply singleton_requests_exec]. }
  intros Hr. split; [done|]. split; [done|].
  apply (H init Inv_init Hr). unfold requests, count. simpl. lia.
Qed.

Lemma plain_requests_run tr σ σ' :
  truthy (singleton this) = false →
  Inv σ → SInv this σ → run tr σ = Some σ' →
  requests (log σ') = requests (log σ) + length deps * creates tr.
Proof.
  intros Hs. revert σ. induction tr as [|l tr IH]; intros σ HI HS; simpl.
  - intros [= <-]. unfold creates. simpl. lia.
  - destruct (exec l σ) as [σ1|] eqn:He; [|done]. simpl. intros Hr.
    rewrite (IH σ1); [|by eapply Inv_exec|by eapply SInv_exec|done].
    unfold creates. simpl.
    destruct (requests_step _ _ _ HI He) as [Hreq|(k & -> & Hf & -> & Hreq)].
    + rewrite Hreq. destruct l as [| | k|]; simpl; try lia.
      simpl in He. destruct (create this k σ) as [[v σ2]|] eqn:Hc; [|done].
      injection He as ->.
      apply create_cases in Hc as [(Ht & _)|(_ & Hv & _ & ->)].
      * by rewrite (sinv_plain _ _ HS Hs) in Ht.
      * destruct (after_create_spec this k σ HI Hv)
          as (_ & _ & _ & _ & _ & Hlog & _).
        rewrite Hlog, requests_app, requests_container in Hreq
          by apply length_imap.
        lia.
    + rewrite Hreq. simpl. lia.
Qed.

(** X9: A specification that is not a singleton asks the container for
    every dependency at every call of [create]: the calls of
    [container.create] are exactly the number of the values [ds] that
    the loop walks in [dependencies] (the elements of an array, the
    characters of a string) times the number of calls of [create]. *)
Theorem container_calls_exact tr σ ds :
  truthy (singleton this) = false →
  walk (dependencies this) = Some ds →
  run tr init = Some σ →
  (∀ l, dependencies this = VArray l → ds = l)
  ∧ (∀ s, dependencies this = VString s →
       ds = (λ ch, VString (String ch "")) <$> list_ascii_of_string s)
  ∧ requests (log σ) = length ds * creates tr.
Proof.
  intros Hs Hw Hr. destruct (walk_shapes this _ Hw) as [Hpa Hps].
  pose proof (walk_dep_list this _ Hw) as <-.
  split; [done|]. split; [done|].
  by rewrite (plain_requests_run tr init σ Hs Inv_init (SInv_init this) Hr).
Qed.

Lemma invocations_step l σ σ' :
  Inv σ → exec l σ = Some σ' →
  tokens is_then σ' + invocations (log σ')
  ≤ tokens is_then σ + invocations (log σ)
    + match l with LCreate _ => 1 | _ => 0 end.
Proof.
  intros HI Hex. apply exec_cases in Hex
    as [[-> ->]|[(r & o & rs & -> & Hr & ->)|[(k & v & -> & Hc)|(j & js & -> & Hq & ->)]]].
  - rewrite tokens_alloc. simpl. lia.
  - rewrite tokens_settle, settle_log. lia.
  - apply create_cases in Hc as [(_ & _ & ->)|(Hf & Hv & _ & ->)]; [lia|].
    destruct (after_create_spec this k σ HI Hv)
      as (_ & _ & _ & _ & _ & Hlog & _ & Htok).
    specialize (Htok is_then (λ _, eq_refl)). simpl in Htok.
    rewrite Hlog, invocations_app, invocations_container. lia.
  - destruct σ as [h q i lg]. simpl in *. subst q. rewrite tokens_pop.
    destruct j as [[P i0|p|p] [v|e]]; cbn [fst is_then run_job];
      rewrite ?tokens_fill, ?fill_log, ?tokens_settle, ?settle_log;
      cbn [log]; try lia.
    destruct (job_then this instantiate h p v js i lg HI)
      as (vs & -> & Hlog & _). simpl in Hlog. rewrite Hlog, invocations_app.
    clear Hlog.
    replace (invocations (EInstantiate _ _ _ :: _)) with 1
      by (by destruct (instantiate (invocations lg) vs)).
    destruct (continuation_array this instantiate p vs (State h js i lg))
      as (Hres & Hh & Hqq & _).
    simpl. destruct (continuation this instantiate p (VArray vs) (State h js i lg))
      as [res σ2] eqn:Hcont. simpl in Hres, Hh, Hqq.
    pose proof (tokens_eq is_then (State h js i lg) σ2 Hh Hqq) as Heq.
    destruct res as [x|e].
    + pose proof (tokens_resolve is_then p x σ2). simpl in *. lia.
    + rewrite tokens_settle. lia.
Qed.

Lemma invocations_run tr σ σ' :
  Inv σ → run tr σ = Some σ' →
  tokens is_then σ' + invocations (log σ')
  ≤ tokens is_then σ + invocations (log σ) + creates tr.
Proof.
  revert σ. induction tr as [|l tr IH]; intros σ HI; simpl.
  - intros [= <-]. lia.
  - destruct (exec l σ) as [σ1|] eqn:He; [|done]. simpl. intros Hr.
    pose proof (invocations_step _ _ _ HI He).
    pose proof (IH σ1 (Inv_exec this instantiate _ _ _ HI He) Hr).
    unfold creates in *. destruct l; simpl in *; lia.
Qed.

(** X10: [instantiate] is never called more often than [create]: every call
    of [instantiate] is made by the continuation of one call of
    [create], and a continuation calls it at most once. *)
Theorem instantiate_per_create tr σ :
  run tr init = Some σ → invocations (log σ) ≤ creates tr.
Proof.
  intros Hr. pose proof (invocations_run tr init σ Inv_init Hr) as H.
  change (tokens is_then init) with 0 in H.
  change (invocations (log init)) with 0 in H. lia.
Qed.

End Calls.

(** ** More about [create]: the promise it returns *)

Section Returned.

Variable this : Spec.
Variable instantiate : nat → list value → result value.

Implicit Types (σ : state) (r p P : nat) (o : outcome) (rc : reaction)
  (c : cell) (k : Container) (tr : list label).

Local Abbreviation run := (run this instantiate).
Local Abbreviation deps := (dep_list this).

Lemma then_pending P σ : status_of (then_ P σ).2 (then_ P σ).1 = None.
Proof.
  unfold then_, alloc. cbn [fst snd]. rewrite status_of_subscribe.
  unfold status_of, set_heap. cbn [heap].
  by rewrite lookup_app_r, Nat.sub_diag by lia.
Qed.

Lemma after_create_pending k σ :
  Inv σ →
  forallb (valid_value (heap σ)) (imap k deps) = true →
  status_of (after_create this k σ) (S (length (heap σ))) = None.
Proof.
  intros HI Hv.
  set (σ0 := emit (zip_with EContainerCreate deps (imap k deps)) σ).
  assert (Inv σ0) as HI0.
  { eapply (Inv_same_heap σ σ0); try done. apply events_not_instantiate. }
  destruct (Inv_promise_all_then (imap k deps) σ0 HI0) as (_ & Hp & _).
  { by apply valid_inputs. }
  pose proof (then_pending (promise_all (imap k deps) σ0).1
                (promise_all (imap k deps) σ0).2) as H.
  rewrite Hp in H. unfold after_create. fold σ0.
  by destruct (truthy (singleton this)).
Qed.

(** X11: [create] never instantiates on the spot.  A call of [create] calls
    neither [instantiate] nor [container.emit] before it returns; and
    when the cache is empty it returns a promise that did not exist
    before and is still pending, even when there is no dependency to
    wait for. *)
Theorem create_asynchronous tr σ k v σ' :
  run tr init = Some σ →
  create this k σ = Some (v, σ') →
  invocations (log σ') = invocations (log σ)
  ∧ emitted (log σ') = emitted (log σ)
  ∧ (truthy (_instance σ) = false →
     ∃ p, v = VPromise p ∧ heap σ !! p = None
          ∧ kind_of σ' p = Some KThen ∧ status_of σ' p = None).
Proof.
  intros Hr Hc. destruct (reach this instantiate _ _ Hr) as [HI _].
  apply create_cases in Hc as [(Ht & -> & ->)|(Hf & Hv & -> & ->)].
  - split; [done|]. split; [done|]. congruence.
  - destruct (after_create_spec this k σ HI Hv)
      as (_ & _ & _ & Hk & _ & Hlog & _).
    rewrite Hlog, invocations_app, invocations_container.
    unfold emitted. rewrite omap_app, omap_container, app_nil_r by done.
    split; [lia|]. split; [done|]. intros _. eexists. split; [done|].
    split; [apply lookup_ge_None_2; lia|]. split; [done|].
    by apply after_create_pending.
Qed.

(** X12: A factory that returns a promise: when [instantiate] returns a
    promise older than the one [create] returned, the promise of
    [create] follows it.  It is settled only with the outcome of the
    promise of the factory, and has that outcome once the event loop is
    at rest. *)
Theorem factory_promise_adopted tr σ p l q :
  run tr init = Some σ →
  EInstantiate p l (Ok (VPromise q)) ∈ log σ →
  q < p →
  (∀ o, status_of σ p = Some o → status_of σ q = Some o)
  ∧ (queue σ = [] → status_of σ p = status_of σ q).
Proof.
  intros Hr Hin Hlt. destruct (reach this instantiate _ _ Hr) as [HI _].
  pose proof (reach_log this instantiate _ _ Hr) as HL.
  destruct (log_follow _ _ _ HL _ _ _ Hin Hlt) as [H|(o & Hq & Hp)].
  - assert (status_of σ p = None) as Hpend.
    { destruct (inv_log _ HI _ _ _ Hin) as [Hk _].
      pose proof (inv_settles _ HI p Hk) as Ht.
      pose proof (tokens_holds (settles p) _ _ _ H) as Hh. simpl in Hh.
      rewrite decide_True in Hh by done. unfold settled in Ht.
      destruct (status_of σ p); [lia|done]. }
    rewrite Hpend. split; [done|]. intros Hq.
    destruct (status_of σ q) as [o|] eqn:Hs; [|done].
    destruct (holds_at_rest _ _ _ _ Hq Hs H).
  - rewrite Hq, Hp. split; [|done]. by intros o' [= <-].
Qed.

End Returned.

Lemma new_Spec_dependencies id_ mod_ source s v :
  new_Spec id_ mod_ source = Ok s →
  get_prop mod_ "@require" = Ok v →
  dependencies s = js_or v (VArray []).
Proof.
  intros Hn Hg. destruct mod_ as [| | | | |l|m|n m| |]; try done;
    try (by injection Hn as <-; injection Hg as <-).
  - unfold new_Spec in Hn. cbn [get_prop mbind result_bind typeof String.eqb orb
      Ascii.eqb Bool.eqb object_keys] in Hn.
    rewrite copy_annotations_array in Hn. by injection Hn as <-; injection Hg as <-.
  - rewrite (new_Spec_object false 0) in Hn. by injection Hn as <-; injection Hg as <-.
  - rewrite (new_Spec_object true n) in Hn. by injection Hn as <-; injection Hg as <-.
Qed.

(** X13: A descriptor without dependencies: when [mod['@require']] is missing
    or falsy, the specification the constructor builds never calls
    [container.create], and every call of [instantiate] is made with no
    argument. *)
Theorem no_dependencies id_ mod_ source s v instantiate tr σ :
  new_Spec id_ mod_ source = Ok s →
  get_prop mod_ "@require" = Ok v →
  truthy v = false →
  run s instantiate tr init = Some σ →
  requests (log σ) = 0
  ∧ ∀ p l res, EInstantiate p l res ∈ log σ → l = [].
Proof.
  intros Hn Hg Hv Hr.
  assert (dep_list s = []) as Hd.
  { unfold dep_list. rewrite (new_Spec_dependencies _ _ _ _ _ Hn Hg).
    unfold js_or. by rewrite Hv. }
  destruct (reach s instantiate _ _ Hr) as [HI _].
  pose proof (reach_log s instantiate _ _ Hr) as HL.
  split.
  - pose proof (requests_run s instantiate tr init σ Inv_init Hr) as H.
    rewrite Hd in H. change (requests (log init)) with 0 in H. simpl in H. lia.
  - intros p l res Hin.
    pose proof (instantiate_arity s instantiate _ _ _ _ HI HL Hin) as H.
    rewrite Hd in H. by destruct l.
Qed.

Lemma new_Spec_singleton id_ mod_ source s v :
  new_Spec id_ mod_ source = Ok s →
  get_prop mod_ "@singleton" = Ok v →
  singleton s = v.
Proof.
  intros Hn Hg. destruct mod_ as [| | | | |l|m|n m| |]; try done;
    try (by injection Hn as <-; injection Hg as <-).
  - unfold new_Spec in Hn. cbn [get_prop mbind result_bind typeof String.eqb orb
      Ascii.eqb Bool.eqb object_keys] in Hn.
    rewrite copy_annotations_array in Hn. by injection Hn as <-; injection Hg as <-.
  - rewrite (new_Spec_object false 0) in Hn. by injection Hn as <-; injection Hg as <-.
  - rewrite (new_Spec_object true n) in Hn. by injection Hn as <-; injection Hg as <-.
Qed.

(** X14: A descriptor that is not marked as a singleton: when
    [mod['@singleton']] is missing or falsy, the specification the
    constructor builds never caches anything, and every call of [create]
    returns a promise of its own. *)
Theorem unannotated_never_cached id_ mod_ source s v instantiate tr σ :
  new_Spec id_ mod_ source = Ok s →
  get_prop mod_ "@singleton" = Ok v →
  truthy v = false →
  run s instantiate tr init = Some σ →
  _instance σ = VUndefined
  ∧ ∀ k w σ', create s k σ = Some (w, σ') →
      ∃ p, w = VPromise p ∧ heap σ !! p = None ∧ _instance σ' = VUndefined.
Proof.
  intros Hn Hg Hv Hr.
  assert (truthy (singleton s) = false) as Hs
    by by rewrite (new_Spec_singleton _ _ _ _ _ Hn Hg).
  destruct (reach s instantiate _ _ Hr) as [HI HS].
  pose proof (sinv_plain _ _ HS Hs) as Hu. split; [done|].
  intros k w σ' Hc.
  apply create_cases in Hc as [(Ht & _)|(_ & Hval & -> & ->)];
    [by rewrite Hu in Ht|].
  destruct (after_create_spec s k σ HI Hval) as (_ & _ & _ & _ & _ & _ & Hi & _).
  eexists. split; [done|]. split; [apply lookup_ge_None_2; lia|].
  by rewrite Hi, Hs.
Qed.

(** ** The further properties on small systems *)

Lemma emit_per_instance_witness :
  ∃ σ,
    run (ex_spec (VBool true) [VString "a"]) ex_array
      [LNew; LCreate ex_container; LSettle 0 (Fulfilled (VString "A"));
       LRun; LRun] init = Some σ
    ∧ emitted (log σ) = instances (log σ).
Proof.
  eexists. split; [vm_compute; reflexivity|].
  apply (emit_per_instance (ex_spec (VBool true) [VString "a"]) ex_array
           [LNew; LCreate ex_container; LSettle 0 (Fulfilled (VString "A"));
            LRun; LRun]).
  vm_compute; reflexivity.
Defined.

Lemma create_outcome_witness :
  ∃ σ0 σ1 σ,
    run (ex_spec VUndefined [VString "a"]) ex_array [LNew] init = Some σ0
    ∧ create (ex_spec VUndefined [VString "a"]) ex_container σ0
      = Some (VPromise 2, σ1)
    ∧ run (ex_spec VUndefined [VString "a"]) ex_array
        [LSettle 0 (Fulfilled (VString "A")); LRun; LRun] σ1 = Some σ
    ∧ queue σ = []
    ∧ status_of σ 2 = Some (Fulfilled (VArray [VString "A"])).
Proof.
  eassert (run (ex_spec VUndefined [VString "a"]) ex_array [LNew] init = Some _)
    as H0 by (vm_compute; reflexivity).
  lazymatch type of H0 with _ = Some ?s0 =>
    eassert (create (ex_spec VUndefined [VString "a"]) ex_container s0
             = Some (VPromise 2, _)) as H1 by (vm_compute; reflexivity)
  end.
  lazymatch type of H1 with _ = Some (_, ?s1) =>
    eassert (run (ex_spec VUndefined [VString "a"]) ex_array
               [LSettle 0 (Fulfilled (VString "A")); LRun; LRun] s1 = Some _)
      as H2 by (vm_compute; reflexivity)
  end.
  eexists _, _, _. split; [exact H0|]. split; [exact H1|]. split; [exact H2|].
  split; [reflexivity|].
  destruct (create_outcome _ _ _ _ _ _ _ _ _ H0 eq_refl H1 H2 eq_refl)
    as (ds & _ & Hpa & _ & H).
  pose proof (Hpa _ eq_refl) as ->.
  destruct H as (p & l & n & Hp & Hall & _ & _ & Hful & _).
  - intros [|i] r Hi; [|discriminate Hi]. injection Hi as <-.
    eexists. reflexivity.
  - injection Hp as <-.
    apply Forall2_cons_inv_l in Hall as (x & l' & Hx & Hall & ->).
    apply Forall2_nil_inv_l in Hall as ->. injection Hx as <-.
    by apply (Hful (VArray [VString "A"])).
Defined.

Lemma base_class_rejects_witness :
  ∃ σ,
    run (ex_spec VUndefined []) base_instantiate
      [LCreate ex_container; LRun] init = Some σ
    ∧ emitted (log σ) = []
    ∧ status_of σ 1
      = Some (Rejected (VError "Error" "Spec#instantiate must be overridden by subclass")).
Proof.
  eexists. split; [vm_compute; reflexivity|].
  destruct (base_class_rejects (ex_spec VUndefined [])
              [LCreate ex_container; LRun] _ eq_refl) as (He & Hs & _).
  split; [exact He|].
  apply (Hs 1 [] (Throw (VError "Error" "Spec#instantiate must be overridden by subclass"))).
  simpl. by left.
Defined.

Lemma settled_singleton_frozen_witness :
  ∃ σ σ',
    run (ex_spec (VBool true) []) (ex_const (VString "I"))
      [LCreate ex_container; LRun] init = Some σ
    ∧ run (ex_spec (VBool true) []) (ex_const (VString "I"))
        [LCreate ex_container; LNew] σ = Some σ'
    ∧ _instance σ' = VString "I"
    ∧ log σ' = log σ
    ∧ create (ex_spec (VBool true) []) ex_container σ' = Some (VString "I", σ').
Proof.
  eexists _, _. split; [vm_compute; reflexivity|].
  split; [vm_compute; reflexivity|].
  apply (settled_singleton_frozen (ex_spec (VBool true) []) (ex_const (VString "I"))
           [LCreate ex_container; LRun] _ 1 [] (VString "I")
           [LCreate ex_container; LNew] _ ex_container eq_refl eq_refl);
    [simpl; by left|reflexivity|reflexivity].
Defined.

Lemma container_calls_bound_witness :
  ∃ σ,
    run (ex_spec (VBool true) [VString "a"; VString "b"]) ex_array
      [LNew; LNew; LCreate ex_container; LCreate ex_container] init = Some σ
    ∧ log σ = [EContainerCreate (VString "a") (VPromise 0);
               EContainerCreate (VString "b") (VPromise 1)]
    ∧ requests (log σ) ≤ 2 * (1 + 0).
Proof.
  eexists. split; [vm_compute; reflexivity|]. split; [reflexivity|].
  apply (container_calls_bound (ex_spec (VBool true) [VString "a"; VString "b"])
           ex_array [LNew; LNew; LCreate ex_container; LCreate ex_container]
           _ [VString "a"; VString "b"] eq_refl eq_refl eq_refl).
Defined.

Lemma container_calls_exact_witness :
  ∃ σ,
    run (ex_require VUndefined (VString "ab")) ex_array
      [LNew; LNew; LCreate ex_container; LCreate ex_container] init = Some σ
    ∧ log σ = [EContainerCreate (VString "a") (VPromise 0);
               EContainerCreate (VString "b") (VPromise 1);
               EContainerCreate (VString "a") (VPromise 0);
               EContainerCreate (VString "b") (VPromise 1)]
    ∧ requests (log σ) = 2 * 2.
Proof.
  eexists. split; [vm_compute; reflexivity|]. split; [reflexivity|].
  apply (container_calls_exact (ex_require VUndefined (VString "ab"))
           ex_array [LNew; LNew; LCreate ex_container; LCreate ex_container]
           _ [VString "a"; VString "b"] eq_refl eq_refl eq_refl).
Defined.

Lemma instantiate_per_create_witness :
  ∃ σ,
    run (ex_spec VUndefined []) ex_array
      [LCreate ex_container; LRun; LCreate ex_container] init = Some σ
    ∧ invocations (log σ) ≤ 2.
Proof.
  eexists. split; [vm_compute; reflexivity|].
  apply (instantiate_per_create (ex_spec VUndefined []) ex_array
           [LCreate ex_container; LRun; LCreate ex_container] _ eq_refl).
Defined.

Lemma create_asynchronous_witness :
  ∃ σ',
    create (ex_spec VUndefined []) ex_container init = Some (VPromise 1, σ')
    ∧ invocations (log σ') = 0
    ∧ status_of σ' 1 = None.
Proof.
  eexists. split; [vm_compute; reflexivity|].
  destruct (create_asynchronous (ex_spec VUndefined []) ex_array [] init
              ex_container _ _ eq_refl eq_refl) as (Hi & _ & Hp).
  split; [exact Hi|].
  destruct (Hp eq_refl) as (p & Hv & _ & _ & Hs). by injection Hv as <-.
Defined.

Lemma factory_promise_adopted_witness :
  ∃ σ,
    run (ex_spec (VBool true) []) (ex_const (VPromise 0))
      [LNew; LCreate ex_container; LRun;
       LSettle 0 (Fulfilled (VString "X")); LRun] init = Some σ
    ∧ queue σ = []
    ∧ status_of σ 2 = status_of σ 0.
Proof.
  eexists. split; [vm_compute; reflexivity|]. split; [reflexivity|].
  apply (factory_promise_adopted (ex_spec (VBool true) []) (ex_const (VPromise 0))
           [LNew; LCreate ex_container; LRun;
            LSettle 0 (Fulfilled (VString "X")); LRun] _ 2 [] 0 eq_refl);
    [simpl; by left|lia|reflexivity].
Defined.

Lemma no_dependencies_witness :
  ∃ σ,
    new_Spec (VString "x") (VObject ∅) VUndefined = Ok (ex_spec VUndefined [])
    ∧ run (ex_spec VUndefined []) ex_array
        [LCreate ex_container; LRun] init = Some σ
    ∧ requests (log σ) = 0
    ∧ ∀ p l res, EInstantiate p l res ∈ log σ → l = [].
Proof.
  eexists. split; [reflexivity|]. split; [vm_compute; reflexivity|].
  apply (no_dependencies (VString "x") (VObject ∅) VUndefined
           (ex_spec VUndefined []) VUndefined ex_array
           [LCreate ex_container; LRun]); reflexivity.
Defined.

Lemma unannotated_never_cached_witness :
  ∃ σ,
    new_Spec (VString "x") (VObject ∅) VUndefined = Ok (ex_spec VUndefined [])
    ∧ run (ex_spec VUndefined []) ex_array
        [LCreate ex_container; LRun] init = Some σ
    ∧ _instance σ = VUndefined.
Proof.
  eexists. split; [reflexivity|]. split; [vm_compute; reflexivity|].
  apply (unannotated_never_cached (VString "x") (VObject ∅) VUndefined
           (ex_spec VUndefined []) VUndefined ex_array
           [LCreate ex_container; LRun]); reflexivity.
Defined.
